(** * jam: scanner, parser and code generator, embedded and verified

    The development follows the C++ sources:
    - [lexer.cpp]  (class [Lexer])      -> module [Lexer]
    - [parser.cpp] (class [Parser])     -> module [Parser]
    - [ast.cpp], [codegen.cpp]          -> module [Codegen]

    C++ [int] counters ([current], [line]) are modelled by [nat]: on a source
    shorter than 2^31 bytes neither of them leaves the range of [int].
    An exception ([throw std::runtime_error]) is the outcome [Throw]; loops
    that are not structurally recursive run on fuel and report [OutOfFuel]
    when it is exhausted, and the theorems show that this never happens. *)

From Stdlib Require Import ZArith Lia Ascii String DecimalString.
From stdpp Require Import gmap strings list.

Local Open Scope nat_scope.

(** ** Outcomes *)

Inductive Res (A : Type) : Type :=
| Ok (a : A)
| Throw (msg : string)
| OutOfFuel.
Arguments Ok {A} a.
Arguments Throw {A} msg.
Arguments OutOfFuel {A}.

Definition res_bind {A B} (r : Res A) (k : A → Res B) : Res B :=
  match r with
  | Ok a => k a
  | Throw m => Throw m
  | OutOfFuel => OutOfFuel
  end.

#[global] Instance Res_ret : MRet Res := λ A, Ok.
#[global] Instance Res_bind : MBind Res := λ A B k r, res_bind r k.

(** [std::to_string] on a non-negative [int]. *)
Definition to_string (n : nat) : string := NilEmpty.string_of_uint (Nat.to_uint n).

(** ** token.h *)

Inductive TokenType : Set :=
| TOK_EOF | TOK_FN | TOK_IDENTIFIER | TOK_COLON | TOK_ARROW
| TOK_OPEN_BRACE | TOK_CLOSE_BRACE | TOK_OPEN_PAREN | TOK_CLOSE_PAREN
| TOK_COMMA | TOK_RETURN | TOK_PLUS | TOK_MINUS | TOK_SEMI | TOK_NUMBER
| TOK_CONST | TOK_VAR | TOK_EQUAL | TOK_TYPE | TOK_IF | TOK_ELSE
| TOK_EQUAL_EQUAL | TOK_NOT_EQUAL | TOK_LESS | TOK_LESS_EQUAL
| TOK_GREATER | TOK_GREATER_EQUAL | TOK_TRUE | TOK_FALSE
| TOK_OPEN_BRACKET | TOK_CLOSE_BRACKET | TOK_STRING_LITERAL
| TOK_WHILE | TOK_FOR | TOK_BREAK | TOK_CONTINUE | TOK_IN
| TOK_EXTERN | TOK_EXPORT.

#[global] Instance TokenType_eq_dec : EqDecision TokenType.
Proof. solve_decision. Defined.

Record Token : Set := mkToken {
  type : TokenType;
  lexeme : string;
  line_of : nat
}.

(** ** lexer.cpp *)

Module Lexer.

Record State : Set := mkState {
  current : nat;
  line : nat;
  tokens : list Token;
  cerr : list string
}.

Definition set_current (n : nat) (s : State) : State :=
  mkState n (line s) (tokens s) (cerr s).
Definition incr_line (s : State) : State :=
  mkState (current s) (S (line s)) (tokens s) (cerr s).
Definition emit_cerr (m : string) (s : State) : State :=
  mkState (current s) (line s) (tokens s) (cerr s ++ [m]).

Definition NUL : ascii := "000"%char.
Definition NL : ascii := "010"%char.
Definition CR : ascii := "013"%char.
Definition TAB : ascii := "009"%char.
Definition QUOTE : ascii := "034"%char.

Section WithSource.

Variable source : list ascii.

(** [source[i]]; the scanner only indexes below [source.length()]. *)
Definition at_ (i : nat) : ascii := default NUL (source !! i).

(** [source.substr(pos, len)] *)
Definition substr (pos len : nat) : string :=
  string_of_list_ascii (take len (drop pos source)).

Definition isAtEnd (s : State) : bool := length source <=? current s.

Definition advance (s : State) : ascii * State :=
  (at_ (current s), set_current (S (current s)) s).

(** [advance()] with the returned character dropped. *)
Definition advance_ (s : State) : State := snd (advance s).

Definition peek (s : State) : ascii :=
  if isAtEnd s then NUL else at_ (current s).

Definition peekNext (s : State) : ascii :=
  if length source <=? current s + 1 then NUL else at_ (current s + 1).

Definition match_ (expected : ascii) (s : State) : bool * State :=
  if isAtEnd s || negb (Ascii.eqb (at_ (current s)) expected) then (false, s)
  else (true, set_current (S (current s)) s).

(** [while (cond) body] on fuel. *)
Fixpoint while (fuel : nat) (cond : State → bool) (body : State → State)
    (s : State) : Res State :=
  match fuel with
  | 0 => OutOfFuel
  | S fuel' => if cond s then while fuel' cond body (body s) else Ok s
  end.

(** Every loop of the scanner stops at the end of the source at the latest,
    so [length source + 1] rounds are enough for each of them. *)
Definition fuel : nat := S (length source).

(** [while (peek() != '\n' && !isAtEnd()) advance();] *)
Definition skipComment (s : State) : Res State :=
  while fuel (λ s, negb (Ascii.eqb (peek s) NL) && negb (isAtEnd s)) advance_ s.

Fixpoint skipWhitespace_loop (n : nat) (s : State) : Res State :=
  match n with
  | 0 => OutOfFuel
  | S n' =>
    let c := peek s in
    if Ascii.eqb c " " || Ascii.eqb c CR || Ascii.eqb c TAB then
      skipWhitespace_loop n' (advance_ s)
    else if Ascii.eqb c NL then
      skipWhitespace_loop n' (advance_ (incr_line s))
    else if Ascii.eqb c "/" then
      if Ascii.eqb (peekNext s) "/" then
        res_bind (skipComment s) (skipWhitespace_loop n')
      else Ok s
    else Ok s
  end.

Definition skipWhitespace (s : State) : Res State := skipWhitespace_loop fuel s.

Definition isDigit (c : ascii) : bool :=
  (nat_of_ascii "0" <=? nat_of_ascii c) && (nat_of_ascii c <=? nat_of_ascii "9").

Definition isAlpha (c : ascii) : bool :=
  ((nat_of_ascii "a" <=? nat_of_ascii c) && (nat_of_ascii c <=? nat_of_ascii "z"))
  || ((nat_of_ascii "A" <=? nat_of_ascii c) && (nat_of_ascii c <=? nat_of_ascii "Z"))
  || Ascii.eqb c "_".

Definition isAlphaNumeric (c : ascii) : bool := isAlpha c || isDigit c.

Definition addToken (ty : TokenType) (lx : string) (s : State) : State :=
  mkState (current s) (line s) (tokens s ++ [mkToken ty lx (line s)]) (cerr s).

(** The keyword chain of [Lexer::identifier]. *)
Definition keyword (text : string) : TokenType :=
  if String.eqb text "fn" then TOK_FN
  else if String.eqb text "return" then TOK_RETURN
  else if String.eqb text "const" then TOK_CONST
  else if String.eqb text "var" then TOK_VAR
  else if String.eqb text "if" then TOK_IF
  else if String.eqb text "else" then TOK_ELSE
  else if String.eqb text "while" then TOK_WHILE
  else if String.eqb text "for" then TOK_FOR
  else if String.eqb text "break" then TOK_BREAK
  else if String.eqb text "continue" then TOK_CONTINUE
  else if String.eqb text "in" then TOK_IN
  else if String.eqb text "true" then TOK_TRUE
  else if String.eqb text "false" then TOK_FALSE
  else if String.eqb text "extern" then TOK_EXTERN
  else if String.eqb text "export" then TOK_EXPORT
  else if String.eqb text "print" || String.eqb text "println"
          || String.eqb text "printf" then TOK_IDENTIFIER
  else if String.eqb text "u8" || String.eqb text "u16" || String.eqb text "u32"
          || String.eqb text "i8" || String.eqb text "i16" || String.eqb text "i32"
          || String.eqb text "bool" || String.eqb text "str" then TOK_TYPE
  else TOK_IDENTIFIER.

Definition identifier (s : State) : Res State :=
  let start := current s - 1 in
  res_bind (while fuel (λ s, isAlphaNumeric (peek s)) advance_ s) (λ s,
  let text := substr start (current s - start) in
  Ok (addToken (keyword text) text s)).

Definition number (s : State) : Res State :=
  let start := current s - 1 in
  res_bind (while fuel (λ s, isDigit (peek s)) advance_ s) (λ s,
  let num := substr start (current s - start) in
  Ok (addToken TOK_NUMBER num s)).

Definition negativeNumber (s : State) : Res State :=
  let start := current s - 1 in
  res_bind (while fuel (λ s, isDigit (peek s)) advance_ s) (λ s,
  let num := substr start (current s - start) in
  Ok (addToken TOK_NUMBER num s)).

Definition unterminated (ln : nat) : string :=
  "Unterminated string at line " +:+ to_string ln.

Definition stringLiteral (s : State) : Res State :=
  let start := current s in
  res_bind
    (while fuel (λ s, negb (Ascii.eqb (peek s) QUOTE) && negb (isAtEnd s))
       (λ s, advance_ (if Ascii.eqb (peek s) NL then incr_line s else s)) s)
    (λ s,
  if isAtEnd s then Throw (unterminated (line s))
  else
    let s := advance_ s in
    let value := substr start (current s - start - 1) in
    Ok (addToken TOK_STRING_LITERAL value s)).

Definition unexpected (ln : nat) (c : ascii) : string :=
  "Unexpected character at line " +:+ to_string ln +:+ ": " +:+ String c EmptyString.

(** The [switch (c)] of [scanTokens], after [c = advance()]. *)
Definition scanToken (c : ascii) (s : State) : Res State :=
  if Ascii.eqb c "(" then Ok (addToken TOK_OPEN_PAREN "(" s)
  else if Ascii.eqb c ")" then Ok (addToken TOK_CLOSE_PAREN ")" s)
  else if Ascii.eqb c "{" then Ok (addToken TOK_OPEN_BRACE "{" s)
  else if Ascii.eqb c "}" then Ok (addToken TOK_CLOSE_BRACE "}" s)
  else if Ascii.eqb c "[" then Ok (addToken TOK_OPEN_BRACKET "[" s)
  else if Ascii.eqb c "]" then Ok (addToken TOK_CLOSE_BRACKET "]" s)
  else if Ascii.eqb c "," then Ok (addToken TOK_COMMA "," s)
  else if Ascii.eqb c ";" then Ok (addToken TOK_SEMI ";" s)
  else if Ascii.eqb c ":" then Ok (addToken TOK_COLON ":" s)
  else if Ascii.eqb c "+" then Ok (addToken TOK_PLUS "+" s)
  else if Ascii.eqb c QUOTE then stringLiteral s
  else if Ascii.eqb c "=" then
    let '(m, s) := match_ "=" s in
    if m then Ok (addToken TOK_EQUAL_EQUAL "==" s) else Ok (addToken TOK_EQUAL "=" s)
  else if Ascii.eqb c "!" then
    let '(m, s) := match_ "=" s in
    if m then Ok (addToken TOK_NOT_EQUAL "!=" s)
    else Ok (emit_cerr (unexpected (line s) c) s)
  else if Ascii.eqb c "<" then
    let '(m, s) := match_ "=" s in
    if m then Ok (addToken TOK_LESS_EQUAL "<=" s) else Ok (addToken TOK_LESS "<" s)
  else if Ascii.eqb c ">" then
    let '(m, s) := match_ "=" s in
    if m then Ok (addToken TOK_GREATER_EQUAL ">=" s) else Ok (addToken TOK_GREATER ">" s)
  else if Ascii.eqb c "-" then
    let '(m, s) := match_ ">" s in
    if m then Ok (addToken TOK_ARROW "->" s)
    else if isDigit (peek s) then negativeNumber s
    else Ok (addToken TOK_MINUS "-" s)
  else if isDigit c then number s
  else if isAlpha c then identifier s
  else Ok (emit_cerr (unexpected (line s) c) s).

(** The [while (!isAtEnd())] loop of [scanTokens]. *)
Fixpoint scan_loop (n : nat) (s : State) : Res State :=
  match n with
  | 0 => OutOfFuel
  | S n' =>
    if isAtEnd s then Ok s
    else
      res_bind (skipWhitespace s) (λ s,
      if isAtEnd s then Ok s
      else
        let '(c, s) := advance s in
        res_bind (scanToken c s) (scan_loop n'))
  end.

Definition init : State := mkState 0 1 [] [].

(** [scanTokens]: the result is the final scanner state, whose [tokens] field
    is the returned vector and whose [cerr] field is what was written to the
    diagnostic stream. *)
Definition scanTokens : Res State :=
  res_bind (scan_loop fuel init) (λ s,
  Ok (mkState (current s) (line s) (tokens s ++ [mkToken TOK_EOF EmptyString (line s)]) (cerr s))).

End WithSource.

End Lexer.

Definition bytes (s : string) : list ascii := list_ascii_of_string s.

(** ** ast.h *)

#[warnings="-register-all"]
Inductive ExprAST : Type :=
| NumberExprAST (Val : Z)
| BooleanExprAST (Val : bool)
| StringLiteralExprAST (Val : string)
| VariableExprAST (Name : string)
| BinaryExprAST (Op : string) (LHS RHS : ExprAST)
| CallExprAST (Callee : string) (Args : list ExprAST)
| ReturnExprAST (RetVal : ExprAST)
| VarDeclAST (Name : string) (Type_ : string) (IsConst : bool) (Init : option ExprAST)
| IfExprAST (Condition : ExprAST) (ThenBody ElseBody : list ExprAST)
| WhileExprAST (Condition : ExprAST) (Body : list ExprAST)
| ForExprAST (VarName : string) (Start End_ : ExprAST) (Body : list ExprAST)
| BreakExprAST
| ContinueExprAST.

Record FunctionAST : Type := mkFunctionAST {
  Name : string;
  Args : list (string * string);
  ReturnType : string;
  Body : list ExprAST;
  isExtern : bool;
  isExport : bool
}.

(** ** parser.cpp *)

(** [std::stoll] on a token lexeme: leading white space, an optional sign and
    the longest run of decimal digits; no digit or a value outside the signed
    64-bit range is an exception (the text of [what()] depends on the
    standard library). *)
Module Stoll.

Definition isspace (c : ascii) : bool :=
  Ascii.eqb c " " || ((9 <=? nat_of_ascii c) && (nat_of_ascii c <=? 13)).

Fixpoint skip_space (l : list ascii) : list ascii :=
  match l with
  | c :: l' => if isspace c then skip_space l' else l
  | [] => []
  end.

(** The value of the leading digits, most significant first, and whether
    there was any digit. *)
Fixpoint digits (acc : Z) (seen : bool) (l : list ascii) : Z * bool :=
  match l with
  | c :: l' =>
      if Lexer.isDigit c
      then digits (10 * acc + Z.of_nat (nat_of_ascii c - 48)) true l'
      else (acc, seen)
  | [] => (acc, seen)
  end.

Definition stoll (str : string) : Res Z :=
  let l := skip_space (list_ascii_of_string str) in
  let '(neg, l) :=
    match l with
    | c :: l' =>
        if Ascii.eqb c "-" then (true, l')
        else if Ascii.eqb c "+" then (false, l') else (false, l)
    | [] => (false, l)
    end in
  let '(v, seen) := digits 0 false l in
  let v := if neg then (- v)%Z else v in
  if negb seen then Throw "stoll: no conversion"
  else if ((- 2 ^ 63 <=? v) && (v <? 2 ^ 63))%Z then Ok v
  else Throw "stoll: out of range".

End Stoll.

Module Parser.

Section WithTokens.

Variable tokens : list Token.

(** [tokens[i]].  The vector handed to the parser ends with [TOK_EOF] and
    [advance] never steps past that token, so every index the parser uses is
    in range; a read outside the vector, which C++ leaves undefined, is given
    an end-of-input token here. *)
Definition at_ (i : nat) : Token :=
  default (mkToken TOK_EOF EmptyString 0) (tokens !! i).

Definition peek (current : nat) : Token := at_ current.

Definition previous (current : nat) : Token := at_ (current - 1).

Definition isAtEnd (current : nat) : bool :=
  bool_decide (type (peek current) = TOK_EOF).

(** [advance()]: the new position; the returned token is [previous] of it. *)
Definition advance (current : nat) : nat :=
  if isAtEnd current then current else S current.

Definition check (ty : TokenType) (current : nat) : bool :=
  if isAtEnd current then false else bool_decide (type (peek current) = ty).

Definition match_ (ty : TokenType) (current : nat) : bool * nat :=
  if check ty current then (true, advance current) else (false, current).

Definition consume (ty : TokenType) (message : string) (current : nat) : Res nat :=
  if check ty current then Ok (advance current) else Throw message.

Fixpoint parseType_rec (n : nat) (current : nat) : Res (string * nat) :=
  match n with
  | 0 => OutOfFuel
  | S n' =>
    let '(m, current) := match_ TOK_OPEN_BRACKET current in
    if m then
      current ← consume TOK_CLOSE_BRACKET "Expected ']' after '['" current;
      '(elementType, current) ← parseType_rec n' current;
      Ok ("[]" +:+ elementType, current)
    else
      let '(m, current) := match_ TOK_TYPE current in
      if m then Ok (lexeme (previous current), current)
      else Throw "Expected type"
  end.

(** [parseType] recurses once per pair of brackets. *)
Definition parseType (current : nat) : Res (string * nat) :=
  parseType_rec (S (length tokens)) current.

(** The recursive-descent functions.  Every call costs one unit of fuel, so
    fuel bounds the depth of the call stack.  [parseArgs] is the [do ... while
    (match(TOK_COMMA))] loop of [parsePrimary] and [parseBlock] the
    [while (!check(TOK_CLOSE_BRACE) && !isAtEnd())] loop shared by the
    bodies. *)
Fixpoint parsePrimary (n : nat) (current : nat) {struct n} : Res (ExprAST * nat) :=
  match n with
  | 0 => OutOfFuel
  | S n' =>
    let '(m, current) := match_ TOK_NUMBER current in
    if m then
      v ← Stoll.stoll (lexeme (previous current));
      Ok (NumberExprAST v, current)
    else
    let '(m, current) := match_ TOK_TRUE current in
    if m then Ok (BooleanExprAST true, current) else
    let '(m, current) := match_ TOK_FALSE current in
    if m then Ok (BooleanExprAST false, current) else
    let '(m, current) := match_ TOK_STRING_LITERAL current in
    if m then Ok (StringLiteralExprAST (lexeme (previous current)), current) else
    let '(m, current) := match_ TOK_OPEN_PAREN current in
    if m then
      '(expr, current) ← parseExpression n' current;
      current ← consume TOK_CLOSE_PAREN "Expected ')' after expression" current;
      Ok (expr, current)
    else
    let '(m, current) := match_ TOK_IDENTIFIER current in
    if m then
      let name := lexeme (previous current) in
      let '(m, current) := match_ TOK_OPEN_PAREN current in
      if m then
        '(args, current) ←
          (if negb (check TOK_CLOSE_PAREN current) then parseArgs n' current []
           else Ok ([], current));
        current ← consume TOK_CLOSE_PAREN "Expected ')' after function arguments" current;
        Ok (CallExprAST name args, current)
      else Ok (VariableExprAST name, current)
    else Throw "Expected primary expression"
  end

with parseArgs (n : nat) (current : nat) (args : list ExprAST) {struct n}
    : Res (list ExprAST * nat) :=
  match n with
  | 0 => OutOfFuel
  | S n' =>
    '(arg, current) ← parseComparison n' current;
    let args := args ++ [arg] in
    let '(m, current) := match_ TOK_COMMA current in
    if m then parseArgs n' current args else Ok (args, current)
  end

with parseBlock (n : nat) (current : nat) (body : list ExprAST) {struct n}
    : Res (list ExprAST * nat) :=
  match n with
  | 0 => OutOfFuel
  | S n' =>
    if negb (check TOK_CLOSE_BRACE current) && negb (isAtEnd current) then
      '(e, current) ← parseExpression n' current;
      parseBlock n' current (body ++ [e])
    else Ok (body, current)
  end

with parseExpression (n : nat) (current : nat) {struct n} : Res (ExprAST * nat) :=
  match n with
  | 0 => OutOfFuel
  | S n' =>
    let '(m, current) := match_ TOK_RETURN current in
    if m then
      '(expr, current) ← parseComparison n' current;
      current ← consume TOK_SEMI "Expected ';' after return statement" current;
      Ok (ReturnExprAST expr, current)
    else
    let '(m, current) :=
      let '(m, current) := match_ TOK_CONST current in
      if m then (true, current) else match_ TOK_VAR current in
    if m then
      let isConst := bool_decide (type (previous current) = TOK_CONST) in
      current ← consume TOK_IDENTIFIER "Expected variable name" current;
      let name := lexeme (previous current) in
      let '(m, current) := match_ TOK_COLON current in
      '(type_, current) ← (if m then parseType current else Ok ("u8", current));
      let '(m, current) := match_ TOK_EQUAL current in
      '(init, current) ←
        (if m then
           '(e, current) ← parseComparison n' current; Ok (Some e, current)
         else Ok (None, current));
      current ← consume TOK_SEMI "Expected ';' after variable declaration" current;
      Ok (VarDeclAST name type_ isConst init, current)
    else
    let '(m, current) := match_ TOK_IF current in
    if m then
      current ← consume TOK_OPEN_PAREN "Expected '(' after 'if'" current;
      '(condition, current) ← parseComparison n' current;
      current ← consume TOK_CLOSE_PAREN "Expected ')' after if condition" current;
      current ← consume TOK_OPEN_BRACE "Expected '{' after if condition" current;
      '(thenBody, current) ← parseBlock n' current [];
      current ← consume TOK_CLOSE_BRACE "Expected '}' after if body" current;
      let '(m, current) := match_ TOK_ELSE current in
      '(elseBody, current) ←
        (if m then
           current ← consume TOK_OPEN_BRACE "Expected '{' after 'else'" current;
           '(elseBody, current) ← parseBlock n' current [];
           current ← consume TOK_CLOSE_BRACE "Expected '}' after else body" current;
           Ok (elseBody, current)
         else Ok ([], current));
      Ok (IfExprAST condition thenBody elseBody, current)
    else
    let '(m, current) := match_ TOK_WHILE current in
    if m then
      current ← consume TOK_OPEN_PAREN "Expected '(' after 'while'" current;
      '(condition, current) ← parseComparison n' current;
      current ← consume TOK_CLOSE_PAREN "Expected ')' after while condition" current;
      current ← consume TOK_OPEN_BRACE "Expected '{' after while condition" current;
      '(body, current) ← parseBlock n' current [];
      current ← consume TOK_CLOSE_BRACE "Expected '}' after while body" current;
      Ok (WhileExprAST condition body, current)
    else
    let '(m, current) := match_ TOK_FOR current in
    if m then
      current ← consume TOK_IDENTIFIER "Expected variable name after 'for'" current;
      let varName := lexeme (previous current) in
      current ← consume TOK_IN "Expected 'in' after for variable" current;
      '(start, current) ← parseComparison n' current;
      current ← consume TOK_COLON "Expected ':' in for range" current;
      '(end_, current) ← parseComparison n' current;
      current ← consume TOK_OPEN_BRACE "Expected '{' after for range" current;
      '(body, current) ← parseBlock n' current [];
      current ← consume TOK_CLOSE_BRACE "Expected '}' after for body" current;
      Ok (ForExprAST varName start end_ body, current)
    else
    let '(m, current) := match_ TOK_BREAK current in
    if m then
      current ← consume TOK_SEMI "Expected ';' after break" current;
      Ok (BreakExprAST, current)
    else
    let '(m, current) := match_ TOK_CONTINUE current in
    if m then
      current ← consume TOK_SEMI "Expected ';' after continue" current;
      Ok (ContinueExprAST, current)
    else
    (* look ahead: an identifier followed by '(' is a call statement; in both
       cases [current] is reset to [saved_current] *)
    if check TOK_IDENTIFIER current && check TOK_OPEN_PAREN (advance current)
    then
      '(expr, current) ← parseComparison n' current;
      current ← consume TOK_SEMI "Expected ';' after function call" current;
      Ok (expr, current)
    else parseComparison n' current
  end

with parseComparison (n : nat) (current : nat) {struct n} : Res (ExprAST * nat) :=
  match n with
  | 0 => OutOfFuel
  | S n' =>
    '(LHS, current) ← parseAddition n' current;
    let binary (op : string) (current : nat) :=
      '(RHS, current) ← parseAddition n' current;
      Ok (BinaryExprAST op LHS RHS, current) in
    let '(m, current) := match_ TOK_EQUAL_EQUAL current in
    if m then binary "==" current else
    let '(m, current) := match_ TOK_NOT_EQUAL current in
    if m then binary "!=" current else
    let '(m, current) := match_ TOK_LESS current in
    if m then binary "<" current else
    let '(m, current) := match_ TOK_LESS_EQUAL current in
    if m then binary "<=" current else
    let '(m, current) := match_ TOK_GREATER current in
    if m then binary ">" current else
    let '(m, current) := match_ TOK_GREATER_EQUAL current in
    if m then binary ">=" current else
    Ok (LHS, current)
  end

with parseAddition (n : nat) (current : nat) {struct n} : Res (ExprAST * nat) :=
  match n with
  | 0 => OutOfFuel
  | S n' =>
    '(LHS, current) ← parsePrimary n' current;
    let '(m, current) := match_ TOK_PLUS current in
    if m then
      '(RHS, current) ← parsePrimary n' current;
      Ok (BinaryExprAST "+" LHS RHS, current)
    else Ok (LHS, current)
  end.

(** Fuel for a call that starts the descent: the stack is never deeper than
    five frames per token that is left. *)
Definition fuel : nat := 5 * S (length tokens).

(** The [do ... while (match(TOK_COMMA))] loop over the parameters. *)
Fixpoint parseParams (n : nat) (current : nat) (args : list (string * string))
    : Res (list (string * string) * nat) :=
  match n with
  | 0 => OutOfFuel
  | S n' =>
    current ← consume TOK_IDENTIFIER "Expected parameter name" current;
    let paramName := lexeme (previous current) in
    current ← consume TOK_COLON "Expected ':' after parameter name" current;
    '(paramType, current) ← parseType current;
    let args := args ++ [(paramName, paramType)] in
    let '(m, current) := match_ TOK_COMMA current in
    if m then parseParams n' current args else Ok (args, current)
  end.

Definition parseFunction (current : nat) : Res (FunctionAST * nat) :=
  let '(isExtern, isExport, current) :=
    let '(m, current) := match_ TOK_EXTERN current in
    if m then (true, false, current)
    else
      let '(m, current) := match_ TOK_EXPORT current in
      if m then (false, true, current) else (false, false, current) in
  current ← consume TOK_FN "Expected 'fn' keyword" current;
  current ← consume TOK_IDENTIFIER "Expected function name" current;
  let name := lexeme (previous current) in
  current ← consume TOK_OPEN_PAREN "Expected '(' after function name" current;
  '(args, current) ←
    (if negb (check TOK_CLOSE_PAREN current)
     then parseParams (S (length tokens)) current []
     else Ok ([], current));
  current ← consume TOK_CLOSE_PAREN "Expected ')' after parameters" current;
  let '(m, current) := match_ TOK_ARROW current in
  '(returnType, current) ←
    (if m then parseType current else Ok (EmptyString, current));
  if isExtern then
    current ← consume TOK_SEMI "Expected ';' after extern function declaration" current;
    Ok (mkFunctionAST name args returnType [] true false, current)
  else
    current ← consume TOK_OPEN_BRACE "Expected '{' before function body" current;
    '(body, current) ← parseBlock fuel current [];
    current ← consume TOK_CLOSE_BRACE "Expected '}' after function body" current;
    Ok (mkFunctionAST name args returnType body false isExport, current).

(** The [while (!isAtEnd())] loop of [parse]. *)
Fixpoint parse_loop (n : nat) (current : nat) (functions : list FunctionAST)
    : Res (list FunctionAST) :=
  match n with
  | 0 => OutOfFuel
  | S n' =>
    if negb (isAtEnd current) then
      '(f, current) ← parseFunction current;
      parse_loop n' current (functions ++ [f])
    else Ok functions
  end.

Definition parse : Res (list FunctionAST) := parse_loop (S (length tokens)) 0 [].

End WithTokens.

End Parser.

(** The front end of [main]: scan, then parse. *)
Definition front_end (source : string) : Res (list FunctionAST) :=
  res_bind (Lexer.scanTokens (bytes source)) (λ s, Parser.parse (Lexer.tokens s)).

(** ** The LLVM objects the code generator builds

    The model records what the generator asks of LLVM: every
    [Builder.Create...] call appends the instruction it names to the insertion
    block, and the simplifications the [IRBuilder] may apply on its own
    (constant folding, casts to the same type) are not modelled.  Handles
    ([BasicBlock*], [Function*]) are indices into the lists that hold the
    objects, and a pointer that may be null is an [option]. *)

Module Codegen.

Inductive LType : Set :=
| IntegerTy (bits : nat)
| VoidTy
| PointerTy
| StructTy (e0 e1 : LType)       (* the two-field aggregates {ptr, i64} *)
| ArrayTy (n : nat) (elt : LType).

#[global] Instance LType_eq_dec : EqDecision LType.
Proof. solve_decision. Defined.

Definition isIntegerTy (t : LType) : bool :=
  match t with IntegerTy _ => true | _ => false end.
Definition isStructTy (t : LType) : bool :=
  match t with StructTy _ _ => true | _ => false end.

Inductive Value : Set :=
| ConstantInt (ty : LType) (V : Z) (isSigned : bool)   (* ConstantInt::get(ty, V, isSigned) *)
| ConstantNull (ty : LType)                            (* Constant::getNullValue(ty) *)
| UndefValue (ty : LType)
| Argument (fn idx : nat) (ty : LType)
| GlobalRef (idx : nat)                                (* address of a module-level object *)
| AllocaInst (id : nat) (AllocatedType : LType)
| InstValue (id : nat) (ty : LType).                   (* result of instruction [id] *)

Definition getType (v : Value) : LType :=
  match v with
  | ConstantInt ty _ _ | ConstantNull ty | UndefValue ty | Argument _ _ ty
  | InstValue _ ty => ty
  | GlobalRef _ | AllocaInst _ _ => PointerTy
  end.

(** The bits of an integer constant: [APInt(width, V, isSigned)] keeps the low
    [width] bits of [V]; read back as an unsigned or as a two's complement
    number. *)
Definition APInt_bits (width : nat) (V : Z) : Z := (V mod 2 ^ Z.of_nat width)%Z.
Definition getZExtValue (width : nat) (V : Z) : Z := APInt_bits width V.
Definition getSExtValue (width : nat) (V : Z) : Z :=
  let b := APInt_bits width V in
  if (b <? 2 ^ (Z.of_nat width - 1))%Z then b else (b - 2 ^ Z.of_nat width)%Z.

Inductive Predicate : Set :=
| ICMP_EQ | ICMP_NE | ICMP_ULT | ICMP_ULE | ICMP_UGT | ICMP_UGE | ICMP_SLT.

Inductive Instruction : Set :=
| Alloca (id : nat) (ty : LType) (name : string)
| Load (id : nat) (ty : LType) (ptr : Value) (name : string)
| Store (val ptr : Value)
| Add (id : nat) (L R : Value) (name : string)
| ICmp (id : nat) (pred : Predicate) (L R : Value) (name : string)
| Br (dest : nat)
| CondBr (cond : Value) (ifTrue ifFalse : nat)
| Ret (v : Value)
| RetVoid
| Call (id : nat) (callee : nat) (args : list Value) (name : string)
| BitCast (id : nat) (v : Value) (ty : LType)
| InsertValue (id : nat) (agg val : Value) (idx : nat)
| ExtractValue (id : nat) (agg : Value) (idx : nat) (name : string)
| IntCast (id : nat) (v : Value) (ty : LType) (isSigned : bool) (name : string).

Definition isTerminator (i : Instruction) : bool :=
  match i with
  | Br _ | CondBr _ _ _ | Ret _ | RetVoid => true
  | _ => false
  end.

Record BasicBlock : Set := mkBasicBlock {
  bb_name : string;
  bb_parent : option nat;
  bb_insts : list Instruction
}.

(** [BasicBlock::getTerminator() != nullptr] *)
Definition has_terminator (bb : BasicBlock) : bool :=
  match last (bb_insts bb) with
  | Some i => isTerminator i
  | None => false
  end.

Inductive LinkageTypes : Set := ExternalLinkage | InternalLinkage | PrivateLinkage.
Inductive CallingConv : Set := CC_C.

Record Function : Set := mkFunction {
  fn_name : string;
  fn_ret : LType;
  fn_params : list LType;
  fn_vararg : bool;
  fn_linkage : LinkageTypes;
  fn_callconv : CallingConv;
  fn_arg_names : list string
}.

Record GlobalVariable : Set := mkGlobalVariable {
  gv_name : string;
  gv_type : LType;
  gv_constant : bool;
  gv_linkage : LinkageTypes;
  gv_init : string           (* the bytes, followed by a NUL in the object *)
}.

Inductive GlobalValue : Set :=
| GFunction (f : Function)
| GVariable (g : GlobalVariable).

Definition global_name (g : GlobalValue) : string :=
  match g with GFunction f => fn_name f | GVariable v => gv_name v end.

(** The state the generator works on: the module and the builder that [main]
    passes by reference, the [NamedValues] map, and the two globals of
    [ast.cpp].  A key of [NamedValues] may be bound to a null pointer. *)
Record State : Type := mkState {
  TheModule : list GlobalValue;
  blocks : list BasicBlock;
  InsertBlock : option nat;
  next_id : nat;
  NamedValues : gmap string (option Value);
  CurrentLoopContinue : option nat;
  CurrentLoopBreak : option nat
}.

Definition set_TheModule (m : list GlobalValue) (st : State) : State :=
  mkState m (blocks st) (InsertBlock st) (next_id st) (NamedValues st)
    (CurrentLoopContinue st) (CurrentLoopBreak st).
Definition set_blocks (b : list BasicBlock) (st : State) : State :=
  mkState (TheModule st) b (InsertBlock st) (next_id st) (NamedValues st)
    (CurrentLoopContinue st) (CurrentLoopBreak st).
Definition set_InsertBlock (b : option nat) (st : State) : State :=
  mkState (TheModule st) (blocks st) b (next_id st) (NamedValues st)
    (CurrentLoopContinue st) (CurrentLoopBreak st).
Definition set_next_id (n : nat) (st : State) : State :=
  mkState (TheModule st) (blocks st) (InsertBlock st) n (NamedValues st)
    (CurrentLoopContinue st) (CurrentLoopBreak st).
Definition set_NamedValues (nv : gmap string (option Value)) (st : State) : State :=
  mkState (TheModule st) (blocks st) (InsertBlock st) (next_id st) nv
    (CurrentLoopContinue st) (CurrentLoopBreak st).
Definition set_CurrentLoopContinue (b : option nat) (st : State) : State :=
  mkState (TheModule st) (blocks st) (InsertBlock st) (next_id st) (NamedValues st)
    b (CurrentLoopBreak st).
Definition set_CurrentLoopBreak (b : option nat) (st : State) : State :=
  mkState (TheModule st) (blocks st) (InsertBlock st) (next_id st) (NamedValues st)
    (CurrentLoopContinue st) b.

(** What [main] starts from: an empty module, a builder without insertion
    point, an empty map and no loop. *)
Definition initial : State := mkState [] [] None 0 ∅ None None.

(** A call either returns or throws; the state it leaves behind is kept in
    both cases. *)
Inductive Outcome (A : Type) : Type :=
| Returned (a : A)
| Thrown (msg : string).
Arguments Returned {A} a.
Arguments Thrown {A} msg.

Definition CG (A : Type) : Type := State → Outcome A * State.

#[global] Instance CG_ret : MRet CG := λ A a st, (Returned a, st).
#[global] Instance CG_bind : MBind CG := λ A B k m st,
  match m st with
  | (Returned a, st') => k a st'
  | (Thrown msg, st') => (Thrown msg, st')
  end.

Definition throw {A} (msg : string) : CG A := λ st, (Thrown msg, st).
Definition get {A} (f : State → A) : CG A := λ st, (Returned (f st), st).
Definition modify (f : State → State) : CG unit := λ st, (Returned tt, f st).

(** *** llvm::IRBuilder and llvm::Module *)

Definition fresh : CG nat :=
  λ st, (Returned (next_id st), set_next_id (S (next_id st)) st).

Definition append_inst (i : Instruction) (bb : BasicBlock) : BasicBlock :=
  mkBasicBlock (bb_name bb) (bb_parent bb) (bb_insts bb ++ [i]).

(** Insert at the insertion point; a builder without insertion point creates
    the instruction and inserts it nowhere. *)
Definition insert (i : Instruction) : CG unit :=
  modify (λ st,
    match InsertBlock st with
    | Some b => set_blocks (alter (append_inst i) b (blocks st)) st
    | None => st
    end).

Definition BasicBlock_Create (name : string) (parent : option nat) : CG nat :=
  λ st, (Returned (length (blocks st)),
         set_blocks (blocks st ++ [mkBasicBlock name parent []]) st).

Definition SetInsertPoint (bb : nat) : CG unit := modify (set_InsertBlock (Some bb)).

(** [Builder.GetInsertBlock()->getParent()]; the generator only asks while a
    function body is being lowered, where the insertion block exists. *)
Definition GetInsertBlock_getParent : CG (option nat) :=
  get (λ st, ib ← InsertBlock st; bb ← blocks st !! ib; bb_parent bb).

(** [Builder.GetInsertBlock()->getTerminator()] as a truth value. *)
Definition GetInsertBlock_getTerminator : CG bool :=
  get (λ st,
    match InsertBlock st with
    | Some ib => match blocks st !! ib with
                 | Some bb => has_terminator bb
                 | None => false
                 end
    | None => false
    end).

Definition CreateAlloca (ty : LType) (name : string) : CG Value :=
  id ← fresh; _ ← insert (Alloca id ty name); mret (AllocaInst id ty).
Definition CreateLoad (ty : LType) (ptr : Value) (name : string) : CG Value :=
  id ← fresh; _ ← insert (Load id ty ptr name); mret (InstValue id ty).
Definition CreateStore (val ptr : Value) : CG unit := insert (Store val ptr).
Definition CreateAdd (L R : Value) (name : string) : CG Value :=
  id ← fresh; _ ← insert (Add id L R name); mret (InstValue id (getType L)).
Definition CreateICmp (pred : Predicate) (L R : Value) (name : string) : CG Value :=
  id ← fresh; _ ← insert (ICmp id pred L R name); mret (InstValue id (IntegerTy 1)).
Definition CreateBr (dest : nat) : CG unit := insert (Br dest).
Definition CreateCondBr (cond : Value) (ifTrue ifFalse : nat) : CG unit :=
  insert (CondBr cond ifTrue ifFalse).
Definition CreateRet (v : Value) : CG unit := insert (Ret v).
Definition CreateRetVoid : CG unit := insert RetVoid.
Definition CreateBitCast (v : Value) (ty : LType) : CG Value :=
  id ← fresh; _ ← insert (BitCast id v ty); mret (InstValue id ty).
Definition CreateInsertValue (agg val : Value) (idx : nat) : CG Value :=
  id ← fresh; _ ← insert (InsertValue id agg val idx); mret (InstValue id (getType agg)).
Definition CreateExtractValue (agg : Value) (idx : nat) (name : string) : CG Value :=
  id ← fresh; _ ← insert (ExtractValue id agg idx name);
  mret (InstValue id
          match getType agg, idx with
          | StructTy e0 _, 0 => e0
          | StructTy _ e1, _ => e1
          | t, _ => t
          end).
Definition CreateIntCast (v : Value) (ty : LType) (isSigned : bool) (name : string)
    : CG Value :=
  id ← fresh; _ ← insert (IntCast id v ty isSigned name); mret (InstValue id ty).

(** [TheModule->getFunction(name)].  LLVM gives a module-level object whose
    name is taken a fresh name ([str], [str.1], ...), so the name belongs to
    the first object created under it; the lookup finds that object and fails
    when it is not a function.  (A callee name with a dot in it cannot come
    from the scanner.) *)
Definition getFunction (name : string) (m : list GlobalValue) : option (nat * Function) :=
  match list_find (λ g, global_name g = name) m with
  | Some (i, GFunction f) => Some (i, f)
  | _ => None
  end.

Definition add_global (g : GlobalValue) : CG nat :=
  λ st, (Returned (length (TheModule st)), set_TheModule (TheModule st ++ [g]) st).

Definition Function_Create (ret : LType) (params : list LType) (vararg : bool)
    (linkage : LinkageTypes) (name : string) : CG nat :=
  add_global (GFunction (mkFunction name ret params vararg linkage CC_C [])).

Definition CreateCall (callee : nat) (ret : LType) (args : list Value) (name : string)
    : CG Value :=
  id ← fresh; _ ← insert (Call id callee args name); mret (InstValue id ret).

Definition Int1Ty := IntegerTy 1.
Definition Int8Ty := IntegerTy 8.
Definition Int16Ty := IntegerTy 16.
Definition Int32Ty := IntegerTy 32.
Definition Int64Ty := IntegerTy 64.

(** *** codegen.cpp *)

Definition slice_type : LType := StructTy PointerTy Int64Ty.

Fixpoint getTypeFromString (typeStr : string) {struct typeStr} : CG LType :=
  if String.eqb typeStr "u8" || String.eqb typeStr "i8" then mret Int8Ty
  else if String.eqb typeStr "u16" || String.eqb typeStr "i16" then mret Int16Ty
  else if String.eqb typeStr "u32" || String.eqb typeStr "i32" then mret Int32Ty
  else if String.eqb typeStr "bool" then mret Int1Ty
  else if String.eqb typeStr "str" then mret slice_type
  else
    (* typeStr.substr(0, 2) == "[]", then the element type from
       typeStr.substr(2): it is computed, and may throw; the pointer to it is
       the opaque pointer type *)
    match typeStr with
    | String c0 (String c1 elementType) =>
        if Ascii.eqb c0 "[" && Ascii.eqb c1 "]" then
          elemType ← getTypeFromString elementType;
          mret slice_type
        else throw ("Unknown type: " +:+ typeStr)
    | _ => throw ("Unknown type: " +:+ typeStr)
    end.

(** *** ast.cpp *)

(** [NamedValues[Name]] read as an rvalue: [std::map::operator[]] inserts a
    null pointer under a key that is absent. *)
Definition NamedValues_subscript (Name : string) : CG (option Value) :=
  λ st,
    match NamedValues st !! Name with
    | Some V => (Returned V, st)
    | None => (Returned None, set_NamedValues (<[Name := None]> (NamedValues st)) st)
    end.

(** [NamedValues[Name] = V] *)
Definition NamedValues_assign (Name : string) (V : option Value) : CG unit :=
  modify (λ st, set_NamedValues (<[Name := V]> (NamedValues st)) st).

Definition NamedValues_erase (Name : string) : CG unit :=
  modify (λ st, set_NamedValues (delete Name (NamedValues st)) st).

Definition some (m : CG Value) : CG (option Value) := v ← m; mret (Some v).

(** The dummy value statements return. *)
Definition dummy : option Value := Some (ConstantInt Int8Ty 0 false).

Definition NumberExprAST_codegen (Val : Z) : CG (option Value) :=
  let IntType :=
    if ((0 <=? Val) && (Val <=? 255))%Z then Int8Ty
    else if ((-128 <=? Val) && (Val <? 0))%Z then Int8Ty
    else if ((0 <=? Val) && (Val <=? 65535))%Z then Int16Ty
    else if ((-32768 <=? Val) && (Val <? 0))%Z then Int16Ty
    else if ((0 <=? Val) && (Val mod 2 ^ 64 <=? 4294967295))%Z then Int32Ty
    else if ((-2147483648 <=? Val) && (Val <? 0))%Z then Int32Ty
    else Int64Ty in
  mret (Some (ConstantInt IntType Val true)).

Definition BooleanExprAST_codegen (Val : bool) : CG (option Value) :=
  mret (Some (ConstantInt Int1Ty (if Val then 1 else 0) false)).

Definition StringLiteralExprAST_codegen (Val : string) : CG (option Value) :=
  StrGlobal ← add_global (GVariable
    (mkGlobalVariable "str" (ArrayTy (S (String.length Val)) Int8Ty) true PrivateLinkage Val));
  StrPtr ← CreateBitCast (GlobalRef StrGlobal) PointerTy;
  SliceStruct ← CreateInsertValue (UndefValue slice_type) StrPtr 0;
  SliceStruct ← CreateInsertValue SliceStruct
    (ConstantInt Int64Ty (Z.of_nat (String.length Val)) false) 1;
  mret (Some SliceStruct).

Definition VariableExprAST_codegen (Name : string) : CG (option Value) :=
  V ← NamedValues_subscript Name;
  match V with
  | None => throw ("Unknown variable name: " +:+ Name)
  | Some (AllocaInst id LoadType) =>
      some (CreateLoad LoadType (AllocaInst id LoadType) Name)
  | Some _ =>
      (* llvm::cast<llvm::AllocaInst> on another value: never the case, the
         map only ever holds allocas *)
      throw "cast<AllocaInst>() argument of incompatible type"
  end.

Section Recursive.

(** The virtual [codegen] the node calls on its children. *)
Variable codegen : ExprAST → CG (option Value).

(** [for (auto& Expr : Body) Expr->codegen(...)]: the values are dropped. *)
Definition for_each : list ExprAST → CG unit :=
  fix go (l : list ExprAST) : CG unit :=
    match l with
    | [] => mret tt
    | Expr :: l' => _ ← codegen Expr; go l'
    end.

Definition BinaryExprAST_codegen (Op : string) (LHS RHS : ExprAST) : CG (option Value) :=
  L ← codegen LHS;
  R ← codegen RHS;
  match L, R with
  | Some L, Some R =>
      if String.eqb Op "+" then some (CreateAdd L R "addtmp")
      else if String.eqb Op "==" then some (CreateICmp ICMP_EQ L R "cmptmp")
      else if String.eqb Op "!=" then some (CreateICmp ICMP_NE L R "cmptmp")
      else if String.eqb Op "<" then some (CreateICmp ICMP_ULT L R "cmptmp")
      else if String.eqb Op "<=" then some (CreateICmp ICMP_ULE L R "cmptmp")
      else if String.eqb Op ">" then some (CreateICmp ICMP_UGT L R "cmptmp")
      else if String.eqb Op ">=" then some (CreateICmp ICMP_UGE L R "cmptmp")
      else throw ("Invalid binary operator: " +:+ Op)
  | _, _ => mret None
  end.

(** The argument loop of [CallExprAST::codegen]; [None] is its
    [return nullptr]. *)
Definition lower_args : list ExprAST → list Value → CG (option (list Value)) :=
  fix go (l : list ExprAST) (ArgsV : list Value) : CG (option (list Value)) :=
    match l with
    | [] => mret (Some ArgsV)
    | Arg :: l' =>
        V ← codegen Arg;
        match V with
        | None => mret None
        | Some V => go l' (ArgsV ++ [V])
        end
    end.

Definition declare (name : string) (vararg : bool) : CG nat :=
  f ← get (λ st, getFunction name (TheModule st));
  match f with
  | Some (i, _) => mret i
  | None => Function_Create Int32Ty [PointerTy] vararg ExternalLinkage name
  end.

Definition str_ptr (arg : Value) : CG Value :=
  if isStructTy (getType arg) then CreateExtractValue arg 0 "str_ptr" else mret arg.

Definition generatePrintCall (Callee : string) (Args : list ExprAST) : CG (option Value) :=
  printfFunc ← declare "printf" true;
  putsFunc ← declare "puts" false;
  match Args with
  | [Arg0] =>
      if String.eqb Callee "println" then
        arg ← codegen Arg0;
        match arg with
        | None => mret None
        | Some arg =>
            arg ← str_ptr arg;
            some (CreateCall putsFunc Int32Ty [arg] "puts_call")
        end
      else if String.eqb Callee "print" then
        arg ← codegen Arg0;
        match arg with
        | None => mret None
        | Some arg =>
            arg ← str_ptr arg;
            formatGlobal ← add_global (GVariable
              (mkGlobalVariable "print_fmt" (ArrayTy 3 Int8Ty) true PrivateLinkage "%s"));
            formatPtr ← CreateBitCast (GlobalRef formatGlobal) PointerTy;
            some (CreateCall printfFunc Int32Ty [formatPtr; arg] "printf_call")
        end
      else throw "Complex print formatting not yet implemented"
  | _ => throw "Complex print formatting not yet implemented"
  end.

Definition CallExprAST_codegen (Callee : string) (Args : list ExprAST) : CG (option Value) :=
  if String.eqb Callee "print" || String.eqb Callee "println" || String.eqb Callee "printf"
  then generatePrintCall Callee Args
  else
    CalleeF ← get (λ st, getFunction Callee (TheModule st));
    match CalleeF with
    | None => throw ("Unknown function referenced: " +:+ Callee)
    | Some (F, f) =>
        if negb (length (fn_params f) =? length Args)
        then throw "Incorrect number of arguments passed"
        else
          ArgsV ← lower_args Args [];
          match ArgsV with
          | None => mret None
          | Some ArgsV => some (CreateCall F (fn_ret f) ArgsV "calltmp")
          end
    end.

Definition ReturnExprAST_codegen (RetVal : ExprAST) : CG (option Value) :=
  RetVal ← codegen RetVal;
  match RetVal with
  | None => mret None
  | Some RetVal => _ ← CreateRet RetVal; mret (Some RetVal)
  end.

Definition VarDeclAST_codegen (Name Type_ : string) (Init : option ExprAST)
    : CG (option Value) :=
  VarType ← getTypeFromString Type_;
  Alloca ← CreateAlloca VarType Name;
  let bind := _ ← NamedValues_assign Name (Some Alloca); mret (Some Alloca) in
  match Init with
  | Some Init =>
      InitVal ← codegen Init;
      match InitVal with
      | None => mret None
      | Some InitVal => _ ← CreateStore InitVal Alloca; bind
      end
  | None => _ ← CreateStore (ConstantNull VarType) Alloca; bind
  end.

(** [if (!Builder.GetInsertBlock()->getTerminator()) Builder.CreateBr(dest);] *)
Definition branch_unless_terminated (dest : nat) : CG unit :=
  t ← GetInsertBlock_getTerminator;
  if negb t then CreateBr dest else mret tt.

Definition IfExprAST_codegen (Condition : ExprAST) (ThenBody ElseBody : list ExprAST)
    : CG (option Value) :=
  CondV ← codegen Condition;
  match CondV with
  | None => mret None
  | Some CondV =>
      CondV ← CreateICmp ICMP_NE CondV (ConstantInt (getType CondV) 0 false) "ifcond";
      TheFunction ← GetInsertBlock_getParent;
      ThenBB ← BasicBlock_Create "then" TheFunction;
      ElseBB ← BasicBlock_Create "else" TheFunction;
      MergeBB ← BasicBlock_Create "ifcont" TheFunction;
      _ ← CreateCondBr CondV ThenBB ElseBB;
      _ ← SetInsertPoint ThenBB;
      _ ← for_each ThenBody;
      _ ← branch_unless_terminated MergeBB;
      _ ← SetInsertPoint ElseBB;
      _ ← for_each ElseBody;
      _ ← branch_unless_terminated MergeBB;
      _ ← SetInsertPoint MergeBB;
      mret dummy
  end.

Definition set_loop_context (Continue Break : option nat) : CG unit :=
  _ ← modify (set_CurrentLoopContinue Continue);
  modify (set_CurrentLoopBreak Break).

Definition WhileExprAST_codegen (Condition : ExprAST) (Body : list ExprAST)
    : CG (option Value) :=
  TheFunction ← GetInsertBlock_getParent;
  CondBB ← BasicBlock_Create "whilecond" TheFunction;
  LoopBB ← BasicBlock_Create "whileloop" TheFunction;
  AfterBB ← BasicBlock_Create "afterloop" TheFunction;
  PrevContinue ← get CurrentLoopContinue;
  PrevBreak ← get CurrentLoopBreak;
  _ ← set_loop_context (Some CondBB) (Some AfterBB);
  _ ← CreateBr CondBB;
  _ ← SetInsertPoint CondBB;
  CondV ← codegen Condition;
  match CondV with
  | None => _ ← set_loop_context PrevContinue PrevBreak; mret None
  | Some CondV =>
      CondV ← CreateICmp ICMP_NE CondV (ConstantInt (getType CondV) 0 false) "whilecond";
      _ ← CreateCondBr CondV LoopBB AfterBB;
      _ ← SetInsertPoint LoopBB;
      _ ← for_each Body;
      _ ← branch_unless_terminated CondBB;
      _ ← SetInsertPoint AfterBB;
      _ ← set_loop_context PrevContinue PrevBreak;
      mret dummy
  end.

Definition ForExprAST_codegen (VarName : string) (Start End_ : ExprAST)
    (Body : list ExprAST) : CG (option Value) :=
  TheFunction ← GetInsertBlock_getParent;
  StartVal ← codegen Start;
  EndVal ← codegen End_;
  match StartVal, EndVal with
  | Some StartVal, Some EndVal =>
      let VarType := getType StartVal in
      EndVal ←
        (if bool_decide (getType EndVal ≠ VarType) then
           if isIntegerTy VarType && isIntegerTy (getType EndVal)
           then CreateIntCast EndVal VarType true "endcast"
           else throw "Type mismatch in for loop range"
         else mret EndVal);
      Alloca ← CreateAlloca VarType VarName;
      _ ← CreateStore StartVal Alloca;
      OldVal ← NamedValues_subscript VarName;
      _ ← NamedValues_assign VarName (Some Alloca);
      CondBB ← BasicBlock_Create "forcond" TheFunction;
      LoopBB ← BasicBlock_Create "forloop" TheFunction;
      IncrBB ← BasicBlock_Create "forincr" TheFunction;
      AfterBB ← BasicBlock_Create "afterloop" TheFunction;
      PrevContinue ← get CurrentLoopContinue;
      PrevBreak ← get CurrentLoopBreak;
      _ ← set_loop_context (Some IncrBB) (Some AfterBB);
      _ ← CreateBr CondBB;
      _ ← SetInsertPoint CondBB;
      CurVar ← CreateLoad VarType Alloca VarName;
      CondV ← CreateICmp ICMP_SLT CurVar EndVal "forcond";
      _ ← CreateCondBr CondV LoopBB AfterBB;
      _ ← SetInsertPoint LoopBB;
      _ ← for_each Body;
      _ ← branch_unless_terminated IncrBB;
      _ ← SetInsertPoint IncrBB;
      CurVarForIncrement ← CreateLoad VarType Alloca VarName;
      let StepVal := ConstantInt VarType 1 false in
      NextVar ← CreateAdd CurVarForIncrement StepVal "nextvar";
      _ ← CreateStore NextVar Alloca;
      _ ← CreateBr CondBB;
      _ ← SetInsertPoint AfterBB;
      _ ← match OldVal with
          | Some _ => NamedValues_assign VarName OldVal
          | None => NamedValues_erase VarName
          end;
      _ ← set_loop_context PrevContinue PrevBreak;
      mret dummy
  | _, _ => mret None
  end.

End Recursive.

Definition BreakExprAST_codegen : CG (option Value) :=
  target ← get CurrentLoopBreak;
  match target with
  | None => throw "break statement not inside a loop"
  | Some bb => _ ← CreateBr bb; mret dummy
  end.

Definition ContinueExprAST_codegen : CG (option Value) :=
  target ← get CurrentLoopContinue;
  match target with
  | None => throw "continue statement not inside a loop"
  | Some bb => _ ← CreateBr bb; mret dummy
  end.

(** [ExprAST::codegen], dispatched on the node. *)
Fixpoint codegen (e : ExprAST) {struct e} : CG (option Value) :=
  match e with
  | NumberExprAST Val => NumberExprAST_codegen Val
  | BooleanExprAST Val => BooleanExprAST_codegen Val
  | StringLiteralExprAST Val => StringLiteralExprAST_codegen Val
  | VariableExprAST Name => VariableExprAST_codegen Name
  | BinaryExprAST Op LHS RHS => BinaryExprAST_codegen codegen Op LHS RHS
  | CallExprAST Callee Args => CallExprAST_codegen codegen Callee Args
  | ReturnExprAST RetVal => ReturnExprAST_codegen codegen RetVal
  | VarDeclAST Name Type_ IsConst Init => VarDeclAST_codegen codegen Name Type_ Init
  | IfExprAST Condition ThenBody ElseBody =>
      IfExprAST_codegen codegen Condition ThenBody ElseBody
  | WhileExprAST Condition Body => WhileExprAST_codegen codegen Condition Body
  | ForExprAST VarName Start End_ Body => ForExprAST_codegen codegen VarName Start End_ Body
  | BreakExprAST => BreakExprAST_codegen
  | ContinueExprAST => ContinueExprAST_codegen
  end.

(** The linkage [FunctionAST::codegen] chooses. *)
Definition linkage_of (F : FunctionAST) : LinkageTypes :=
  if isExtern F || isExport F || String.eqb (Name F) "main"
  then ExternalLinkage else InternalLinkage.

(** The loop that types the parameters. *)
Fixpoint arg_types (Args : list (string * string)) : CG (list LType) :=
  match Args with
  | [] => mret []
  | arg :: Args' =>
      t ← getTypeFromString arg.2;
      ts ← arg_types Args';
      mret (t :: ts)
  end.

(** The loop that gives every parameter its stack slot.  (The key is the name
    of the IR argument, which is the parameter's name as long as the names of a
    function's parameters are distinct.) *)
Fixpoint arg_slots (F : nat) (Idx : nat) (Args : list (string * string)) : CG unit :=
  match Args with
  | [] => mret tt
  | arg :: Args' =>
      ArgType ← getTypeFromString arg.2;
      Alloca ← CreateAlloca ArgType arg.1;
      _ ← CreateStore (Argument F Idx ArgType) Alloca;
      _ ← NamedValues_assign arg.1 (Some Alloca);
      arg_slots F (S Idx) Args'
  end.

Section WithVerifier.

(** [llvm::verifyFunction]: true when the function is broken. *)
Variable verifyFunction : State → nat → bool.

Definition FunctionAST_codegen (Fn : FunctionAST) : CG nat :=
  ArgTypes ← arg_types (Args Fn);
  RetType ←
    (if String.eqb (ReturnType Fn) EmptyString then mret VoidTy
     else getTypeFromString (ReturnType Fn));
  let linkage := linkage_of Fn in
  (* Function::Create, setCallingConv(C) for extern, export and main (C is the
     default), and the names of the arguments *)
  F ← add_global (GFunction
         (mkFunction (Name Fn) RetType ArgTypes false linkage CC_C (Args Fn).*1));
  if isExtern Fn then mret F
  else
    BB ← BasicBlock_Create "entry" (Some F);
    _ ← SetInsertPoint BB;
    _ ← modify (set_NamedValues ∅);
    _ ← arg_slots F 0 (Args Fn);
    _ ← for_each codegen (Body Fn);
    t ← GetInsertBlock_getTerminator;
    _ ← (if String.eqb (ReturnType Fn) EmptyString && negb t
         then CreateRetVoid else mret tt);
    (* the call of llvm::verifyFunction on F; the value it returns is not used *)
    _ ← get (λ st, verifyFunction st F);
    mret F.

(** The loop of [main] over the parsed functions. *)
Fixpoint main_codegen (functions : list FunctionAST) : CG unit :=
  match functions with
  | [] => mret tt
  | function :: functions' =>
      _ ← FunctionAST_codegen function;
      main_codegen functions'
  end.

End WithVerifier.

(** One rule of LLVM's verifier, for running examples: every block of the
    function ends with its only terminator.  True when the function is
    broken. *)
Definition block_well_formed (bb : BasicBlock) : bool :=
  match reverse (bb_insts bb) with
  | [] => false
  | i :: before => isTerminator i && forallb (λ j, negb (isTerminator j)) before
  end.

Definition verify_terminators (st : State) (F : nat) : bool :=
  negb (forallb (λ bb, bool_decide (bb_parent bb ≠ Some F) || block_well_formed bb)
          (blocks st)).

(** *** The loop context as an explicit parameter

    The specification describes the loop context as a pair that belongs to
    the innermost loop being lowered.  [codegen_in loop e] is the generator
    with that pair made an explicit, lexically scoped parameter: a loop hands
    its own blocks to its condition and body, every other node hands on what
    it received, and [break] and [continue] branch to the pair they are given
    instead of reading the two globals.  The writes to the two globals are
    kept as they are in the source, so that the two generators can be compared
    state for state. *)

Definition LoopContext : Type := option nat * option nat.

Definition loop_context (st : State) : LoopContext :=
  (CurrentLoopContinue st, CurrentLoopBreak st).



Section Lexical.

(** The generator for the children, under the loop context given to it. *)
Variable lower : LoopContext → ExprAST → CG (option Value).



End Lexical.


End Codegen.

(** ** main.cpp: the command line *)

Module Main.

Record Options : Set := mkOptions {
  runFlag : bool;
  showTarget : bool;
  filename : string
}.

(** What [main] does before it opens the input file: it gives up with exit
    code 1 and what it wrote to [cerr], or goes on with the options. *)
Inductive Startup : Set :=
| Exit (code : Z) (cerr : list string)
| Proceed (o : Options).

Definition usage (argv0 : string) : string :=
  "Usage: " +:+ argv0 +:+ " [--run] [--target-info] <filename>".

(** The loop over [argv[1]], ..., [argv[argc - 1]]: it ends at the first
    argument that is not one of the two flags. *)
Fixpoint parse_flags (args : list string) (o : Options) : Options :=
  match args with
  | [] => o
  | arg :: args' =>
      if String.eqb arg "--run" then
        parse_flags args' (mkOptions true (showTarget o) (filename o))
      else if String.eqb arg "--target-info" then
        parse_flags args' (mkOptions (runFlag o) true (filename o))
      else mkOptions (runFlag o) (showTarget o) arg
  end.

(** [argv] with the program name first, as the system hands it over. *)
Definition command_line (argv : list string) : Startup :=
  let argv0 := default EmptyString (head argv) in
  if length argv <? 2 then Exit 1 [usage argv0]
  else
    let o := parse_flags (tail argv) (mkOptions false false EmptyString) in
    if String.eqb (filename o) EmptyString
    then Exit 1 ["Error: No input file specified"; usage argv0]
    else Proceed o.

End Main.

(** ** target.cpp *)

Module Target.

Inductive Arch : Set := X86_64 | AArch64 | ARM | RISCV64 | ArchUnknown.
Inductive OS : Set := Linux | MacOS | Windows | FreeBSD | OSUnknown.
Inductive ABI : Set := ABINone | GNU | MSVC | MinGW | Musl | ABIUnknown.

#[global] Instance Arch_eq_dec : EqDecision Arch.
Proof. solve_decision. Defined.
#[global] Instance OS_eq_dec : EqDecision OS.
Proof. solve_decision. Defined.
#[global] Instance ABI_eq_dec : EqDecision ABI.
Proof. solve_decision. Defined.

Record Target : Set := mkTarget { arch : Arch; os : OS; abi : ABI }.

(** The enumerators of [llvm::Triple] that [fromLLVMTriple] names; every
    other enumerator takes the [default] branch and is [OtherArch],
    [OtherOS] or [OtherEnvironment] here. *)
Inductive ArchType : Set :=
| x86_64 | aarch64 | aarch64_be | arm | armeb | thumb | thumbeb | riscv64 | OtherArch.
Inductive OSType : Set :=
| TLinux | Darwin | MacOSX | Win32 | TFreeBSD | OtherOS.
Inductive EnvironmentType : Set :=
| EnvGNU | GNUEABI | GNUEABIHF | GNUX32 | EnvMSVC | EnvMusl | MuslEABI | MuslEABIHF
| UnknownEnvironment | OtherEnvironment.

#[global] Instance EnvironmentType_eq_dec : EqDecision EnvironmentType.
Proof. solve_decision. Defined.

Record Triple : Set := mkTriple {
  getArch : ArchType;
  getOS : OSType;
  getEnvironment : EnvironmentType
}.

Definition fromLLVMTriple (triple : Triple) : Target :=
  let arch :=
    match getArch triple with
    | x86_64 => X86_64
    | aarch64 | aarch64_be => AArch64
    | arm | armeb | thumb | thumbeb => ARM
    | riscv64 => RISCV64
    | OtherArch => ArchUnknown
    end in
  let os :=
    match getOS triple with
    | TLinux => Linux
    | Darwin | MacOSX => MacOS
    | Win32 => Windows
    | TFreeBSD => FreeBSD
    | OtherOS => OSUnknown
    end in
  let abi :=
    match getEnvironment triple with
    | EnvGNU | GNUEABI | GNUEABIHF | GNUX32 => GNU
    | EnvMSVC => MSVC
    | EnvMusl | MuslEABI | MuslEABIHF => Musl
    | env =>
        if bool_decide (os = Windows) && bool_decide (env = UnknownEnvironment) then MinGW
        else if bool_decide (os = MacOS) then ABINone
        else ABIUnknown
    end in
  mkTarget arch os abi.

Definition arch_name (a : Arch) : string :=
  match a with
  | X86_64 => "x86_64" | AArch64 => "aarch64" | ARM => "arm" | RISCV64 => "riscv64"
  | ArchUnknown => "unknown"
  end.

Definition toLLVMTriple (t : Target) : string :=
  arch_name (arch t) +:+ "-" +:+ "unknown-"
  +:+ match os t with
      | Linux => "linux" | MacOS => "darwin" | Windows => "windows"
      | FreeBSD => "freebsd" | OSUnknown => "unknown"
      end
  +:+ match abi t with
      | GNU => "-gnu" | MSVC => "-msvc" | MinGW => "-gnu" | Musl => "-musl"
      | ABINone => EmptyString | ABIUnknown => EmptyString
      end.

Definition getName (t : Target) : string :=
  arch_name (arch t) +:+ "-"
  +:+ match os t with
      | Linux => "linux" | MacOS => "macos" | Windows => "windows"
      | FreeBSD => "freebsd" | OSUnknown => "unknown"
      end
  +:+ (if bool_decide (abi t ≠ ABINone) && bool_decide (abi t ≠ ABIUnknown) then
         "-" +:+ match abi t with
                 | GNU => "gnu" | MSVC => "msvc" | MinGW => "mingw" | Musl => "musl"
                 | _ => EmptyString
                 end
       else EmptyString).

Definition requiresLibC (t : Target) : bool :=
  bool_decide (os t = MacOS) || bool_decide (os t = FreeBSD).

Definition requiresPIC (t : Target) : bool :=
  bool_decide (os t = Windows) || bool_decide (abi t = GNU).

Definition requiresPIE (t : Target) : bool := bool_decide (os t = MacOS).

Definition getLibCName (t : Target) : string :=
  match os t with
  | Windows => "mingw"
  | MacOS => "darwin"
  | _ =>
      match abi t with
      | GNU | MinGW => "glibc"
      | Musl => "musl"
      | MSVC => "msvcrt"
      | _ => "unknown"
      end
  end.

Definition getPointerSize (t : Target) : Z :=
  match arch t with
  | X86_64 | AArch64 | RISCV64 => 8
  | ARM => 4
  | ArchUnknown => 8
  end.

Definition getPointerAlignment (t : Target) : Z := getPointerSize t.

End Target.



(** * Predicates the statements are written with *)

(** ** Scanner *)

Section LexerSpec.

Import Lexer.

Fixpoint count_nl (l : list ascii) : nat :=
  match l with
  | [] => 0
  | c :: l' => (if Ascii.eqb c NL then 1 else 0) + count_nl l'
  end.

Variable source : list ascii.

(** The token [t] is the slice [p, q) of the source: for a string literal the
    slice runs from the opening to the closing quote and the lexeme is what
    lies between them; the end-of-input token sits at the end of the source. *)
Definition occupies (t : Token) (p q : nat) : Prop :=
  q ≤ length source ∧
  match type t with
  | TOK_STRING_LITERAL =>
      p + 2 ≤ q ∧ source !! p = Some QUOTE ∧ source !! (q - 1) = Some QUOTE
      ∧ lexeme t = substr source (p + 1) (q - p - 2)
  | TOK_EOF => p = length source ∧ q = p ∧ lexeme t = EmptyString
  | _ => p < q ∧ lexeme t = substr source p (q - p)
  end.

(** What the scanner does: the line a token carries is one more than the
    number of newlines before its end, which for every token but a string
    literal is also the number of newlines before its first byte. *)
Definition line_tracked (t : Token) : Prop :=
  ∃ p q, occupies t p q
    ∧ line_of t = 1 + count_nl (take q source)
    ∧ (type t ≠ TOK_STRING_LITERAL → line_of t = 1 + count_nl (take p source)).

(** What the specification claims: the line a token carries is one more than
    the number of newlines before its first byte. *)
Definition first_byte_line (t : Token) : Prop :=
  ∃ p q, occupies t p q ∧ line_of t = 1 + count_nl (take p source).

Definition line_of_first_byte : Prop :=
  ∀ s, scanTokens source = Ok s → ∀ t, t ∈ tokens s → first_byte_line t.

(** The invariant of the scan loop. *)
Definition tracked (t : Token) : Prop := type t ≠ TOK_EOF ∧ line_tracked t.

Definition inv (s : State) : Prop :=
  current s ≤ length source
  ∧ line s = 1 + count_nl (take (current s) source)
  ∧ Forall tracked (tokens s).

(** The state right after [c = advance()] on a byte that is not a newline. *)
Definition entered (c : ascii) (s : State) : Prop :=
  inv s ∧ 0 < current s ∧ source !! (current s - 1) = Some c
  ∧ count_nl (take (current s) source) = count_nl (take (current s - 1) source).

Definition progress (s s' : State) : Prop :=
  inv s' ∧ current s ≤ current s'.

End LexerSpec.

(** A string literal that spans two lines. *)
Definition two_line_string : list ascii :=
  [Lexer.QUOTE; "a"; Lexer.NL; "b"; Lexer.QUOTE]%char.


Definition is_ascii (c : ascii) : Prop := nat_of_ascii c < 128.

(** Bytes that start no token. *)
Definition stray (c : ascii) : Prop :=
  (c ∉ [ "("; ")"; "{"; "}"; "["; "]"; ","; ";"; ":"; "+"; Lexer.QUOTE;
         "="; "!"; "<"; ">"; "-" ]%char)
  ∧ Lexer.isDigit c = false ∧ Lexer.isAlpha c = false.

Definition stray_input : list ascii := bytes "a @ b".

(** ** Parser *)

Section ParserSpec.

Import Parser.

Variable tokens : list Token.

(** The tokens in [cur, cur') have been stepped over by the parser: none of
    them is a minus sign or the end-of-input token. *)
Definition passed (cur cur' : nat) : Prop :=
  cur ≤ cur' ∧ cur' ≤ max cur (length tokens) ∧
  ∀ i, cur ≤ i → i < cur' →
    type (at_ tokens i) ≠ TOK_MINUS ∧ type (at_ tokens i) ≠ TOK_EOF.

(** What a successful descent has stepped over. *)
Definition descends (n : nat) : Prop :=
  (∀ cur e cur', parsePrimary tokens n cur = Ok (e, cur') → passed cur cur' ∧ cur < cur')
  ∧ (∀ cur args r cur',
       parseArgs tokens n cur args = Ok (r, cur') → passed cur cur' ∧ cur < cur')
  ∧ (∀ cur body r cur', parseBlock tokens n cur body = Ok (r, cur') → passed cur cur')
  ∧ (∀ cur e cur', parseExpression tokens n cur = Ok (e, cur') → passed cur cur' ∧ cur < cur')
  ∧ (∀ cur e cur', parseComparison tokens n cur = Ok (e, cur') → passed cur cur' ∧ cur < cur')
  ∧ (∀ cur e cur', parseAddition tokens n cur = Ok (e, cur') → passed cur cur' ∧ cur < cur').

(** Fuel that is enough for each function of the descent: five units per
    token that is left, plus the rank of the function in the call chain. *)
Definition fueled (n : nat) : Prop :=
  (∀ cur, 5 * (length tokens - cur) < n → parsePrimary tokens n cur ≠ OutOfFuel)
  ∧ (∀ cur args,
       5 * (length tokens - cur) + 3 < n → parseArgs tokens n cur args ≠ OutOfFuel)
  ∧ (∀ cur body,
       5 * (length tokens - cur) + 4 < n → parseBlock tokens n cur body ≠ OutOfFuel)
  ∧ (∀ cur, 5 * (length tokens - cur) + 3 < n → parseExpression tokens n cur ≠ OutOfFuel)
  ∧ (∀ cur, 5 * (length tokens - cur) + 2 < n → parseComparison tokens n cur ≠ OutOfFuel)
  ∧ (∀ cur, 5 * (length tokens - cur) + 1 < n → parseAddition tokens n cur ≠ OutOfFuel).

End ParserSpec.

Definition subtraction_program : string :=
  "fn sub(a: u32, b: u32) -> u32 { return a - b; }".

(** ** Code generator *)

Section CodegenSpec.

Import Codegen.

(** The width the specification gives a literal. *)
Definition narrowed_width (v : Z) : nat :=
  if ((-128 <=? v) && (v <=? 255))%Z then 8
  else if ((-32768 <=? v) && (v <=? 65535))%Z then 16
  else if ((- 2 ^ 31 <=? v) && (v <=? 2 ^ 32 - 1))%Z then 32
  else 64.

(** The values of [int64_t]. *)
Definition int64 (v : Z) : Prop := (- 2 ^ 63 ≤ v < 2 ^ 63)%Z.

(** The predicate each ordering operator is lowered with. *)
Definition ordering_predicates : list (string * Predicate) :=
  [("<", ICMP_ULT); ("<=", ICMP_ULE); (">", ICMP_UGT); (">=", ICMP_UGE)].

(** The state after the builder has numbered and inserted one instruction. *)
Definition emitted (i : nat → Instruction) (st : State) : State :=
  ((id ← fresh; insert (i id)) st).2.

(** A builder positioned in an empty entry block. *)
Definition in_entry : State :=
  mkState [] [mkBasicBlock "entry" None []] (Some 0) 0 ∅ None None.

Definition block_extends (b b' : BasicBlock) : Prop :=
  bb_name b' = bb_name b ∧ bb_parent b' = bb_parent b
  ∧ bb_insts b `prefix_of` bb_insts b'.

(** [st'] comes after [st]: the module and every block have only been
    appended to. *)
Definition extends (st st' : State) : Prop :=
  TheModule st `prefix_of` TheModule st'
  ∧ (∀ i b, blocks st !! i = Some b →
       ∃ b', blocks st' !! i = Some b' ∧ block_extends b b')
  ∧ next_id st ≤ next_id st'.

Definition same_loop (st st' : State) : Prop := loop_context st' = loop_context st.

(** Every run of [m] relates the state it starts from to the state it leaves,
    whether it returns or throws. *)
Definition steps (R : State → State → Prop) {A} (m : CG A) : Prop :=
  ∀ st r st', m st = (r, st') → R st st'.

(** What a relation between states has to allow for the builder operations
    to respect it: every update of the builder, the module and the symbol
    table. *)
Class BuilderRel (R : State → State → Prop) : Prop := {
  builder_preorder :: PreOrder R;
  R_next : ∀ st n, next_id st ≤ n → R st (set_next_id n st);
  R_insert : ∀ st i b,
    InsertBlock st = Some b → R st (set_blocks (alter (append_inst i) b (blocks st)) st);
  R_block : ∀ st bb, R st (set_blocks (blocks st ++ [bb]) st);
  R_point : ∀ st b, R st (set_InsertBlock b st);
  R_global : ∀ st g, R st (set_TheModule (TheModule st ++ [g]) st);
  R_names : ∀ st nv, R st (set_NamedValues nv st)
}.


End CodegenSpec.

(** [fn main() -> u32 { return 0; }] *)
Definition main_function : FunctionAST :=
  mkFunctionAST "main" [] "u32" [ReturnExprAST (NumberExprAST 0)] false false.

(** [fn f() -> u32 { }]: a function whose entry block has no terminator. *)
Definition unterminated_function : FunctionAST :=
  mkFunctionAST "f" [] "u32" [] false false.

(** [while (true) { while (true) { break; } break; }] *)
Definition nested_loops : ExprAST :=
  WhileExprAST (BooleanExprAST true)
    [WhileExprAST (BooleanExprAST true) [BreakExprAST]; BreakExprAST].


(** ** Scanner: runs of bytes, and the shape of a token *)

Section LexerShapes.

Import Lexer.

(** The number a run of decimal digits denotes. *)
Definition decimal (l : list ascii) : Z :=
  fold_left (λ acc c, 10 * acc + Z.of_nat (nat_of_ascii c - 48))%Z l 0%Z.

(** The run of bytes that satisfy [p] ends where [rest] starts. *)
Definition ends_run (p : ascii → bool) (rest : list ascii) : Prop :=
  ∀ d, head rest = Some d → p d = false.

(** What [skipWhitespace] steps over: blanks, newlines and [//] comments. *)
Definition blank (c : ascii) : Prop := c ∈ [" "; CR; TAB; NL]%char.

(** The bytes of the source in [p, q). *)
Definition slice (source : list ascii) (p q : nat) : list ascii :=
  take (q - p) (drop p source).

(** What [skipWhitespace] leaves behind it, started in [s]. *)
Definition skipped (source : list ascii) (s s' : State) : Prop :=
  tokens s' = tokens s ∧ cerr s' = cerr s
  ∧ current s ≤ current s'
  ∧ line s' = line s + count_nl (slice source (current s) (current s'))
  ∧ ¬ blank (peek source s')
  ∧ ¬ (peek source s' = "/"%char ∧ peekNext source s' = "/"%char).

(** The tokens that are written in one way only, and how. *)
Definition spelling (ty : TokenType) : option string :=
  match ty with
  | TOK_OPEN_PAREN => Some "(" | TOK_CLOSE_PAREN => Some ")"
  | TOK_OPEN_BRACE => Some "{" | TOK_CLOSE_BRACE => Some "}"
  | TOK_OPEN_BRACKET => Some "[" | TOK_CLOSE_BRACKET => Some "]"
  | TOK_COMMA => Some "," | TOK_SEMI => Some ";" | TOK_COLON => Some ":"
  | TOK_PLUS => Some "+" | TOK_MINUS => Some "-" | TOK_ARROW => Some "->"
  | TOK_EQUAL => Some "=" | TOK_EQUAL_EQUAL => Some "=="
  | TOK_NOT_EQUAL => Some "!="
  | TOK_LESS => Some "<" | TOK_LESS_EQUAL => Some "<="
  | TOK_GREATER => Some ">" | TOK_GREATER_EQUAL => Some ">="
  | _ => None
  end.

(** A letter or underscore, then letters, digits and underscores. *)
Definition word (lx : string) : Prop :=
  ∃ c l, lx = string_of_list_ascii (c :: l)
    ∧ isAlpha c = true ∧ Forall (λ d, isAlphaNumeric d = true) l.

(** Digits, at least one, after an optional minus sign. *)
Definition numeral (lx : string) : Prop :=
  ∃ c l, Forall (λ d, isDigit d = true) (c :: l)
    ∧ (lx = string_of_list_ascii (c :: l)
       ∨ lx = string_of_list_ascii ("-"%char :: c :: l)).

(** The lexeme of a token fits its type. *)
Definition well_formed (t : Token) : Prop :=
  match type t with
  | TOK_EOF => lexeme t = EmptyString
  | TOK_STRING_LITERAL => QUOTE ∉ list_ascii_of_string (lexeme t)
  | TOK_NUMBER => numeral (lexeme t)
  | ty =>
      match spelling ty with
      | Some sp => lexeme t = sp
      | None => word (lexeme t) ∧ keyword (lexeme t) = ty
      end
  end.

End LexerShapes.

(** ** Scanner: the input as it reads, without the scanner *)

Section LexerWalk.

Import Lexer.

(** Where a byte of the input stands: in code, in a [//] comment, or inside a
    string literal. *)
Inductive Mode : Set := Code | Comment | Text.

(** Where the next byte stands, from where [c] stands and the byte [next]
    that follows it: a quote opens and closes a string literal, two slashes
    open a comment, and the end of the line closes it. *)
Definition next_mode (m : Mode) (c : ascii) (next : option ascii) : Mode :=
  match m with
  | Code =>
      if Ascii.eqb c QUOTE then Text
      else if Ascii.eqb c "/" && bool_decide (next = Some "/"%char) then Comment
      else Code
  | Comment => if Ascii.eqb c NL then Code else Comment
  | Text => if Ascii.eqb c QUOTE then Code else Text
  end.

(** The input holds an unterminated string literal: it ends inside one. *)
Fixpoint open_string (m : Mode) (l : list ascii) : bool :=
  match l with
  | [] => match m with Text => true | _ => false end
  | c :: l' => open_string (next_mode m c (head l')) l'
  end.

#[global] Instance stray_dec c : Decision (stray c).
Proof. unfold stray. apply _. Defined.

#[global] Instance blank_dec c : Decision (blank c).
Proof. unfold blank. apply _. Defined.

(** An unexpected character: a byte in code that starts no token and is not
    skipped as white space, or a [!] that no [=] follows. *)
Definition noise (c : ascii) (next : option ascii) : bool :=
  if Ascii.eqb c "!" then negb (bool_decide (next = Some "="%char))
  else bool_decide (stray c ∧ ¬ blank c).

(** The diagnostics an input calls for, in order: one for each unexpected
    character in code, with the line it stands on. *)
Fixpoint diagnostics (m : Mode) (ln : nat) (l : list ascii) : list string :=
  match l with
  | [] => []
  | c :: l' =>
      (match m, next_mode m c (head l') with
       | Code, Code => if noise c (head l') then [unexpected ln c] else []
       | _, _ => []
       end)
      ++ diagnostics (next_mode m c (head l')) (if Ascii.eqb c NL then S ln else ln) l'
  end.

(** A minus sign that is an operator: neither [>] nor a digit follows it. *)
Definition minus_site (c : ascii) (next : option ascii) : bool :=
  Ascii.eqb c "-"
  && negb (match next with Some d => Ascii.eqb d ">" || isDigit d | None => false end).

(** The number of minus operators an input holds in code. *)
Fixpoint minus_sites (m : Mode) (l : list ascii) : nat :=
  match l with
  | [] => 0
  | c :: l' =>
      (match m with Code => if minus_site c (head l') then 1 else 0 | _ => 0 end)
      + minus_sites (next_mode m c (head l')) l'
  end.

(** The number of MINUS tokens in a token vector. *)
Definition minus_tokens (toks : list Token) : nat :=
  length (filter (λ t, type t = TOK_MINUS) toks).

(** A byte of code that is neither unexpected nor a minus operator, and
    leaves the next byte in code. *)
Definition quiet (c : ascii) : Prop :=
  ∀ next, next_mode Code c next = Code ∧ noise c next = false
          ∧ minus_site c next = false.

(** The whole input, seen from byte [cur] in mode [m] on line [ln], with the
    diagnostics [err] and [k] minus operators behind: whether it ends inside a
    string literal, all its diagnostics, the line of its end, and the number
    of its minus operators. *)
Definition walk_at (source : list ascii) (m : Mode) (cur ln : nat) (err : list string)
    (k : nat) : bool * list string * nat * nat :=
  (open_string m (drop cur source),
   err ++ diagnostics m ln (drop cur source),
   ln + count_nl (drop cur source),
   k + minus_sites m (drop cur source)).

(** The same, seen from a state of the scanner. *)
Definition walk (source : list ascii) (m : Mode) (s : State)
    : bool * list string * nat * nat :=
  walk_at source m (current s) (line s) (cerr s) (minus_tokens (tokens s)).

End LexerWalk.

(** An input with unexpected characters in code, in a comment and in a
    string literal, on two lines. *)
Definition noisy_input : list ascii :=
  bytes "a @ b // # c" ++ [Lexer.NL] ++ bytes "! = d / e "
  ++ [Lexer.QUOTE] ++ bytes "// $" ++ [Lexer.QUOTE] ++ bytes " != f".

(** ** Parser: subtraction as the specification reads *)

(** An operand as it is written: a word of letters, digits and underscores. *)
Definition operand_word (w : string) : Prop :=
  w ≠ EmptyString ∧ Forall (λ c, Lexer.isAlphaNumeric c = true) (bytes w).

(** Where byte [n] of an input stands. *)
Fixpoint mode_at (m : Mode) (l : list ascii) (n : nat) : Mode :=
  match n, l with
  | S n', c :: l' => mode_at (next_mode m c (head l')) l' n'
  | _, _ => m
  end.

(** What the specification claims: a source in which a minus sign stands in
    code between two operands is rejected. *)
Definition subtraction_always_rejected : Prop :=
  ∀ pre lhs rhs post : string,
    operand_word lhs → operand_word rhs →
    mode_at Code (bytes (pre +:+ lhs +:+ "-" +:+ rhs +:+ post))
      (String.length (pre +:+ lhs)) = Code →
    ∃ msg, front_end (pre +:+ lhs +:+ "-" +:+ rhs +:+ post) = Throw msg.

(** A function whose body subtracts a literal, written without blanks. *)
Definition negative_literal_program : string := "fn f(a: u8) { a-1 }".

(** ** Parser: type names and sums *)

Section ParserShapes.

Import Parser.

(** The type name [parseType] builds from [k] pairs of brackets and the name
    [base]. *)
Definition slice_name (k : nat) (base : string) : string :=
  Nat.iter k (String.append "[]") base.

(** A type name as the scanner and the parser write it: a type keyword of the
    scanner under [k] pairs of brackets. *)
Definition written_type (name : string) : Prop :=
  ∃ k base, name = slice_name k base ∧ Lexer.keyword base = TOK_TYPE.

(** The types of the signature of [f] are written types. *)
Definition written_signature (f : FunctionAST) : Prop :=
  Forall (λ a, written_type a.2) (Args f)
  ∧ (ReturnType f = EmptyString ∨ written_type (ReturnType f)).

(** The tokens of a source, for the examples. *)
Definition scanned (source : string) : list Token :=
  match Lexer.scanTokens (bytes source) with
  | Ok s => Lexer.tokens s
  | _ => []
  end.

End ParserShapes.

(** The operators [BinaryExprAST::codegen] lowers. *)
Definition binary_operators : list string := ["+"; "=="; "!="; "<"; "<="; ">"; ">="].

(** The operators of the binary nodes of an expression. *)
Fixpoint operators (e : ExprAST) : list string :=
  let all := fix all (l : list ExprAST) : list string :=
    match l with
    | [] => []
    | x :: l' => operators x ++ all l'
    end in
  match e with
  | BinaryExprAST Op LHS RHS => Op :: operators LHS ++ operators RHS
  | CallExprAST _ Args => all Args
  | ReturnExprAST RetVal => operators RetVal
  | VarDeclAST _ _ _ (Some Init) => operators Init
  | IfExprAST Condition ThenBody ElseBody => operators Condition ++ all ThenBody ++ all ElseBody
  | WhileExprAST Condition Body => operators Condition ++ all Body
  | ForExprAST _ Start End_ Body => operators Start ++ operators End_ ++ all Body
  | _ => []
  end.

(** Every binary node of [e] has an operator the code generator lowers. *)
Definition operators_known (e : ExprAST) : Prop :=
  Forall (λ op, op ∈ binary_operators) (operators e).

Section KnownSpec.

Import Parser.

Variable tokens : list Token.

(** What a successful descent returns, as far as operators go. *)
Definition known (n : nat) : Prop :=
  (∀ cur e cur', parsePrimary tokens n cur = Ok (e, cur') → operators_known e)
  ∧ (∀ cur args r cur', parseArgs tokens n cur args = Ok (r, cur') →
       Forall operators_known args → Forall operators_known r)
  ∧ (∀ cur body r cur', parseBlock tokens n cur body = Ok (r, cur') →
       Forall operators_known body → Forall operators_known r)
  ∧ (∀ cur e cur', parseExpression tokens n cur = Ok (e, cur') → operators_known e)
  ∧ (∀ cur e cur', parseComparison tokens n cur = Ok (e, cur') → operators_known e)
  ∧ (∀ cur e cur', parseAddition tokens n cur = Ok (e, cur') → operators_known e).

End KnownSpec.

Section ChainSpec.

Import Parser.

Variable tokens : list Token.

(** A token that is an operand by itself. *)
Definition operand (i : nat) : Prop :=
  type (at_ tokens i) ∈ [TOK_NUMBER; TOK_TRUE; TOK_FALSE; TOK_STRING_LITERAL; TOK_IDENTIFIER].

(** [+ operand +] at the positions [i], [i + 1] and [i + 2]: the middle of a
    sum of three. *)
Definition chain (i : nat) : Prop :=
  type (at_ tokens i) = TOK_PLUS ∧ operand (S i) ∧ type (at_ tokens (S (S i))) = TOK_PLUS.

(** The tokens in [cur, cur') hold no such chain, and neither start nor end
    with a plus sign. *)
Definition clean (cur cur' : nat) : Prop :=
  cur ≤ cur'
  ∧ (∀ i, cur ≤ i → S (S i) < cur' → ¬ chain i)
  ∧ (cur < cur' → type (at_ tokens cur) ≠ TOK_PLUS ∧ type (at_ tokens (cur' - 1)) ≠ TOK_PLUS).

(** What a successful descent has stepped over, as far as sums go. *)
Definition sums (n : nat) : Prop :=
  (∀ cur e cur', parsePrimary tokens n cur = Ok (e, cur') →
     clean cur cur' ∧ cur < cur'
     ∧ (operand (cur' - 1) → cur' = S cur)
     ∧ (operand cur → cur' = S cur ∨ type (at_ tokens (S cur)) = TOK_OPEN_PAREN))
  ∧ (∀ cur args r cur', parseArgs tokens n cur args = Ok (r, cur') → clean cur cur')
  ∧ (∀ cur body r cur', parseBlock tokens n cur body = Ok (r, cur') → clean cur cur')
  ∧ (∀ cur e cur', parseExpression tokens n cur = Ok (e, cur') → clean cur cur')
  ∧ (∀ cur e cur', parseComparison tokens n cur = Ok (e, cur') → clean cur cur')
  ∧ (∀ cur e cur', parseAddition tokens n cur = Ok (e, cur') → clean cur cur').

End ChainSpec.

(** ** Code generator: types, results and the range of a for loop *)

Section CodegenShapes.

Import Codegen.

(** The names of the primitive types, and what each is lowered to. *)
Definition primitive_types : list (string * LType) :=
  [("u8", Int8Ty); ("i8", Int8Ty); ("u16", Int16Ty); ("i16", Int16Ty);
   ("u32", Int32Ty); ("i32", Int32Ty); ("bool", Int1Ty); ("str", slice_type)].

(** The callees that [CallExprAST::codegen] hands to [generatePrintCall]. *)
Definition print_builtins : list string := ["print"; "println"; "printf"].

(** Whenever [m] returns, what it returns satisfies [Q]. *)
Definition yields {A} (Q : A → Prop) (m : CG A) : Prop :=
  ∀ st a st', m st = (Returned a, st') → Q a.

(** A value, as opposed to the null pointer. *)
Definition non_null {A} (v : option A) : Prop := v ≠ None.

(** The bound the condition of a [for] loop compares the variable with: the
    end of the range, converted to the type of the start when the two types
    differ. *)
Definition for_bound (StartVal EndVal : Value) (st : State) : Value :=
  if bool_decide (getType EndVal ≠ getType StartVal)
  then InstValue (next_id st) (getType StartVal)
  else EndVal.

(** The number of the stack slot a [for] loop allocates for its variable:
    the next free number behind the ends of the range, or the one after it
    when the end of the range is converted first. *)
Definition for_slot (StartVal EndVal : Value) (st : State) : nat :=
  if bool_decide (getType EndVal ≠ getType StartVal) then S (next_id st) else next_id st.

(** The conversion of the end of the range, when there is one. *)
Definition for_cast (StartVal EndVal : Value) (st : State) : list Instruction :=
  if bool_decide (getType EndVal ≠ getType StartVal)
  then [IntCast (next_id st) EndVal (getType StartVal) true "endcast"]
  else [].

(** What [NamedValues] holds for the variable of a [for] loop behind the
    loop, when it held [old] before: a binding to a value is put back, and
    there is no binding otherwise. *)
Definition restored (old : option (option Value)) : option (option Value) :=
  match old with
  | Some (Some V) => Some (Some V)
  | _ => None
  end.

(** Whenever [m] throws, the message satisfies [Q]. *)
Definition throws (Q : string → Prop) {A} (m : CG A) : Prop :=
  ∀ st msg st', m st = (Thrown msg, st') → Q msg.

(** A message other than the one for an operator that is not known. *)
Definition operator_known_message (msg : string) : Prop :=
  ∀ op, msg ≠ "Invalid binary operator: " +:+ op.

(** A stack slot: the result of an [alloca]. *)
Definition is_slot (V : Value) : Prop := ∃ id T, V = AllocaInst id T.

(** A stack slot or the null pointer. *)
Definition slot_or_null (v : option Value) : Prop := ∀ V, v = Some V → is_slot V.

(** Every value [NamedValues] holds is a stack slot. *)
Definition slots_only (st : State) : Prop :=
  ∀ Name V, NamedValues st !! Name = Some (Some V) → is_slot V.

(** The message of a failed [llvm::cast<llvm::AllocaInst>]. *)
Definition cast_failure : string := "cast<AllocaInst>() argument of incompatible type".

(** Started where [NamedValues] holds stack slots only, [m] ends in such a
    state, returns a result that satisfies [V], and does not fail in a
    cast. *)
Definition safe {A} (V : A → Prop) (m : CG A) : Prop :=
  ∀ st r st', slots_only st → m st = (r, st') →
    slots_only st'
    ∧ match r with
      | Returned a => V a
      | Thrown msg => msg ≠ cast_failure
      end.

(** No condition on the result. *)
Definition any {A} (a : A) : Prop := True.

End CodegenShapes.

(** [fn f() -> u8 { return 1 + 2; }] *)
Definition sum_function : FunctionAST :=
  mkFunctionAST "f" [] "u8"
    [ReturnExprAST (BinaryExprAST "+" (NumberExprAST 1) (NumberExprAST 2))] false false.

(** [extern fn puts(s: str) -> u32;] *)
Definition extern_puts : FunctionAST :=
  mkFunctionAST "puts" [("s", "str")] "u32" [] true false.

(** ** Command line and targets *)

(** The two options of the command line. *)
Definition is_flag (arg : string) : Prop := arg = "--run" ∨ arg = "--target-info".

(** Targets that differ at most in an ABI that is none or unknown. *)
Definition same_but_unnamed_abi (t1 t2 : Target.Target) : Prop :=
  Target.arch t1 = Target.arch t2 ∧ Target.os t1 = Target.os t2
  ∧ (Target.abi t1 = Target.abi t2
     ∨ (Target.abi t1 ∈ [Target.ABINone; Target.ABIUnknown]
        ∧ Target.abi t2 ∈ [Target.ABINone; Target.ABIUnknown])).

(** Targets that differ at most in an ABI that is written the same way in a
    triple: none and unknown, GNU and MinGW. *)
Definition same_but_triple_abi (t1 t2 : Target.Target) : Prop :=
  Target.arch t1 = Target.arch t2 ∧ Target.os t1 = Target.os t2
  ∧ (Target.abi t1 = Target.abi t2
     ∨ (Target.abi t1 ∈ [Target.ABINone; Target.ABIUnknown]
        ∧ Target.abi t2 ∈ [Target.ABINone; Target.ABIUnknown])
     ∨ (Target.abi t1 ∈ [Target.GNU; Target.MinGW]
        ∧ Target.abi t2 ∈ [Target.GNU; Target.MinGW])).

(** Every target: each architecture with each system and each ABI. *)
Definition all_targets : list Target.Target :=
  a ← [Target.X86_64; Target.AArch64; Target.ARM; Target.RISCV64; Target.ArchUnknown];
  o ← [Target.Linux; Target.MacOS; Target.Windows; Target.FreeBSD; Target.OSUnknown];
  b ← [Target.ABINone; Target.GNU; Target.MSVC; Target.MinGW; Target.Musl; Target.ABIUnknown];
  [Target.mkTarget a o b].

#[global] Instance same_but_unnamed_abi_dec t1 t2 : Decision (same_but_unnamed_abi t1 t2).
Proof. unfold same_but_unnamed_abi. apply _. Defined.

#[global] Instance same_but_triple_abi_dec t1 t2 : Decision (same_but_triple_abi t1 t2).
Proof. unfold same_but_triple_abi. apply _. Defined.


(** * Proofs *)

(** ** Scanner *)

Section LexerProofs.

Import Lexer.

Section LexerFacts.
Variable source : list ascii.

Lemma count_nl_app l k : count_nl (l ++ k) = count_nl l + count_nl k.
Proof. induction l as [|c l IH]; simpl; [done|]. rewrite IH. lia. Qed.

Lemma at_lookup i : i < length source → source !! i = Some (at_ source i).
Proof.
  intros H. unfold at_. destruct (lookup_lt_is_Some_2 source i H) as [c ->]. done.
Qed.

Lemma take_S_at i : i < length source → take (S i) source = take i source ++ [at_ source i].
Proof. intros H. apply take_S_r, at_lookup, H. Qed.

Lemma count_nl_take_S i :
  i < length source →
  count_nl (take (S i) source) =
  count_nl (take i source) + (if Ascii.eqb (at_ source i) NL then 1 else 0).
Proof. intros H. rewrite take_S_at, count_nl_app by done. simpl. lia. Qed.

Lemma isAtEnd_false s : isAtEnd source s = false ↔ current s < length source.
Proof. unfold isAtEnd. rewrite Nat.leb_gt. done. Qed.

Lemma isAtEnd_true s : isAtEnd source s = true ↔ length source ≤ current s.
Proof. unfold isAtEnd. rewrite Nat.leb_le. done. Qed.

Lemma peek_in s : current s < length source → peek source s = at_ source (current s).
Proof. intros H. unfold peek. apply isAtEnd_false in H. by rewrite H. Qed.

Lemma peek_end s : length source ≤ current s → peek source s = NUL.
Proof. intros H. unfold peek. apply isAtEnd_true in H. by rewrite H. Qed.

(** A Hoare rule for the fuel loops: a loop whose guard implies that input is
    left and whose body consumes exactly one byte ends within the fuel. *)
Lemma while_rule (P : State → Prop) cond body :
  (∀ s, P s → cond s = true →
        current s < length source ∧ current (body s) = S (current s) ∧ P (body s)) →
  ∀ n s, P s → length source - current s < n →
  ∃ s', while n cond body s = Ok s' ∧ P s' ∧ cond s' = false.
Proof.
  intros Hstep n. induction n as [|n IH]; intros s HP Hn; [lia|].
  simpl. destruct (cond s) eqn:Hc; [|eauto].
  destruct (Hstep s HP Hc) as (Hlt & Hcur & HP').
  apply IH; [done|]. rewrite Hcur. lia.
Qed.

End LexerFacts.

Section LexerInv.
Variable source : list ascii.

Local Abbreviation at_ := (at_ source).
Local Abbreviation substr := (substr source).
Local Abbreviation occupies := (occupies source).
Local Abbreviation line_tracked := (line_tracked source).
Local Abbreviation tracked := (tracked source).
Local Abbreviation inv := (inv source).
Local Abbreviation entered := (entered source).
Local Abbreviation progress := (progress source).

Lemma substr_1 p c : source !! p = Some c → substr p 1 = String c EmptyString.
Proof. intros H. unfold Lexer.substr. by rewrite (drop_S _ _ _ H). Qed.

Lemma substr_2 p c d :
  source !! p = Some c → source !! (S p) = Some d →
  substr p 2 = String c (String d EmptyString).
Proof.
  intros H1 H2. unfold Lexer.substr.
  by rewrite (drop_S _ _ _ H1), (drop_S _ _ _ H2).
Qed.

Lemma tracked_plain ty lx ln p q :
  ty ≠ TOK_EOF → ty ≠ TOK_STRING_LITERAL →
  p < q → q ≤ length source → lx = substr p (q - p) →
  ln = 1 + count_nl (take q source) →
  count_nl (take q source) = count_nl (take p source) →
  tracked (mkToken ty lx ln).
Proof.
  intros H1 H2 Hpq Hq Hlx Hln Hnl. split; [done|]. exists p, q. simpl.
  split; [|split; [done | intros _; lia]].
  split; [done|]. simpl. destruct ty; done.
Qed.

Lemma inv_addToken ty lx s p :
  inv s → ty ≠ TOK_EOF → ty ≠ TOK_STRING_LITERAL →
  p < current s → lx = substr p (current s - p) →
  count_nl (take (current s) source) = count_nl (take p source) →
  inv (addToken ty lx s).
Proof.
  intros (Hc & Hl & Ht) H1 H2 Hp Hlx Hnl. split; [done|]. split; [done|].
  simpl. apply Forall_app; split; [done|]. apply Forall_singleton.
  by apply (tracked_plain _ _ _ p (current s)).
Qed.

Lemma inv_emit_cerr m s : inv s → inv (emit_cerr m s).
Proof. done. Qed.

(** Consuming one byte that is not a newline keeps the line right. *)
Lemma inv_advance s :
  inv s → current s < length source → at_ (current s) ≠ NL →
  inv (advance_ source s)
  ∧ count_nl (take (S (current s)) source) = count_nl (take (current s) source).
Proof.
  intros (Hc & Hl & Ht) Hlt Hnl.
  assert (count_nl (take (S (current s)) source) = count_nl (take (current s) source)) as E.
  { rewrite count_nl_take_S by done. destruct (Ascii.eqb_spec (at_ (current s)) NL); [done|lia]. }
  split; [|done]. split; [simpl; lia|]. split; [simpl; lia | done].
Qed.

Lemma inv_advance_nl s :
  inv s → current s < length source → at_ (current s) = NL →
  inv (advance_ source (incr_line s)).
Proof.
  intros (Hc & Hl & Ht) Hlt Hnl. split; [simpl; lia|]. split; [|done].
  simpl. rewrite count_nl_take_S, Hnl by done. simpl. lia.
Qed.

(** Loops of the form [while (p(peek())) advance();] where [p] rejects the
    newline and the NUL that [peek] returns at the end. *)
Lemma while_advance (p : ascii → bool) s :
  p NUL = false → p NL = false →
  current s ≤ length source →
  ∃ s', while (fuel source) (λ s, p (peek source s)) (advance_ source) s = Ok s'
    ∧ current s ≤ current s' ∧ current s' ≤ length source
    ∧ line s' = line s ∧ tokens s' = tokens s ∧ cerr s' = cerr s
    ∧ count_nl (take (current s') source) = count_nl (take (current s) source)
    ∧ p (peek source s') = false.
Proof.
  intros Hnul Hnl Hc.
  destruct (while_rule source
    (λ s', current s ≤ current s' ∧ current s' ≤ length source
       ∧ line s' = line s ∧ tokens s' = tokens s ∧ cerr s' = cerr s
       ∧ count_nl (take (current s') source) = count_nl (take (current s) source))
    (λ s, p (peek source s)) (advance_ source)) with (n := fuel source) (s := s)
    as (s' & Hw & HP & Hex).
  - intros s1 (H1 & H2 & H3 & H4 & H5 & H6) Hp.
    assert (current s1 < length source) as Hlt.
    { destruct (decide (current s1 < length source)); [done|].
      rewrite peek_end in Hp by lia. congruence. }
    split; [done|]. split; [done|]. simpl.
    repeat split; try done; try lia.
    rewrite count_nl_take_S by done. rewrite peek_in in Hp by done.
    destruct (Ascii.eqb_spec (at_ (current s1)) NL) as [E|]; [|lia].
    rewrite E in Hp. congruence.
  - repeat split; done.
  - unfold fuel. lia.
  - exists s'. tauto.
Qed.

Lemma isDigit_NUL : isDigit NUL = false. Proof. done. Qed.
Lemma isDigit_NL : isDigit NL = false. Proof. done. Qed.
Lemma isAlphaNumeric_NUL : isAlphaNumeric NUL = false. Proof. done. Qed.
Lemma isAlphaNumeric_NL : isAlphaNumeric NL = false. Proof. done. Qed.

Lemma keyword_not_eof text : keyword text ≠ TOK_EOF.
Proof. unfold keyword. repeat case_match; done. Qed.

Lemma keyword_not_string text : keyword text ≠ TOK_STRING_LITERAL.
Proof. unfold keyword. repeat case_match; done. Qed.

Lemma word_spec (p : ascii → bool) (ty : string → TokenType) c s :
  p NUL = false → p NL = false →
  (∀ text, ty text ≠ TOK_EOF) → (∀ text, ty text ≠ TOK_STRING_LITERAL) →
  entered c s →
  ∃ s',
    res_bind (while (fuel source) (λ s, p (peek source s)) (advance_ source) s)
      (λ s', let text := substr (current s - 1) (current s' - (current s - 1)) in
             Ok (addToken (ty text) text s')) = Ok s'
    ∧ progress s s'.
Proof.
  intros Hnul Hnl Hty1 Hty2 ((Hc & Hl & Ht) & Hpos & Hat & Hcnt).
  destruct (while_advance p s Hnul Hnl Hc)
    as (s1 & -> & H1 & H2 & H3 & H4 & H5 & H6 & H7).
  simpl. eexists; split; [done|]. split; [|done].
  apply (inv_addToken _ _ _ (current s - 1)); try done; try lia.
  split; [done|]. split; [lia|]. by rewrite H4.
Qed.

Lemma identifier_spec c s :
  entered c s → ∃ s', identifier source s = Ok s' ∧ progress s s'.
Proof.
  intros H. apply (word_spec isAlphaNumeric keyword c); try done.
  - apply keyword_not_eof.
  - apply keyword_not_string.
Qed.

Lemma number_spec c s :
  entered c s → ∃ s', number source s = Ok s' ∧ progress s s'.
Proof. intros H. by apply (word_spec isDigit (λ _, TOK_NUMBER) c). Qed.

Lemma negativeNumber_spec c s :
  entered c s → ∃ s', negativeNumber source s = Ok s' ∧ progress s s'.
Proof. intros H. by apply (word_spec isDigit (λ _, TOK_NUMBER) c). Qed.

End LexerInv.

Section LexerScan.
Variable source : list ascii.

Local Abbreviation at_ := (at_ source).
Local Abbreviation substr := (substr source).
Local Abbreviation inv := (inv source).
Local Abbreviation entered := (entered source).
Local Abbreviation progress := (progress source).

Lemma peek_not_nul s :
  peek source s ≠ NUL → current s < length source ∧ source !! current s = Some (peek source s).
Proof.
  intros H. destruct (decide (current s < length source)) as [Hlt|Hge].
  - split; [done|]. rewrite peek_in by done. by apply at_lookup.
  - rewrite peek_end in H by lia. done.
Qed.

Lemma match_spec expected s b s' :
  match_ source expected s = (b, s') →
  (b = false ∧ s' = s)
  ∨ (b = true ∧ s' = set_current (S (current s)) s
     ∧ source !! current s = Some expected).
Proof.
  unfold match_. destruct (isAtEnd source s) eqn:He; simpl.
  - intros [= <- <-]. by left.
  - destruct (Ascii.eqb_spec (at_ (current s)) expected) as [E|E]; simpl.
    + intros [= <- <-]. right. split; [done|]. split; [done|].
      rewrite <- E. apply at_lookup. by apply isAtEnd_false.
    + intros [= <- <-]. by left.
Qed.

Lemma entered_single ty lit c s :
  entered c s → ty ≠ TOK_EOF → ty ≠ TOK_STRING_LITERAL →
  lit = String c EmptyString →
  progress s (addToken ty lit s).
Proof.
  intros (Hi & Hpos & Hat & Hcnt) H1 H2 ->. split; [|done].
  apply (inv_addToken _ _ _ _ (current s - 1)); try done; try lia.
  replace (current s - (current s - 1)) with 1 by lia.
  symmetry. by apply substr_1.
Qed.

Lemma entered_double ty lit c d s :
  entered c s → source !! current s = Some d → d ≠ NL →
  ty ≠ TOK_EOF → ty ≠ TOK_STRING_LITERAL →
  lit = String c (String d EmptyString) →
  progress s (addToken ty lit (set_current (S (current s)) s)).
Proof.
  intros (Hi & Hpos & Hat & Hcnt) Hd Hnl H1 H2 ->.
  assert (current s < length source) as Hlt by (apply lookup_lt_is_Some; eauto).
  assert (at_ (current s) = d) as Hatd by (unfold Lexer.at_; by rewrite Hd).
  destruct (inv_advance source s Hi Hlt) as [Hi' Hcnt']; [congruence|].
  split; [|simpl; lia].
  apply (inv_addToken _ _ _ _ (current s - 1)); try done; simpl; try lia.
  replace (S (current s) - (current s - 1)) with 2 by lia.
  symmetry. apply substr_2; [done|]. by replace (S (current s - 1)) with (current s) by lia.
Qed.

Lemma stringLiteral_spec s :
  entered QUOTE s →
  (∃ ln, stringLiteral source s = Throw (unterminated ln))
  ∨ (∃ s', stringLiteral source s = Ok s' ∧ progress s s').
Proof.
  intros ((Hc & Hl & Ht) & Hpos & Hat & Hcnt). unfold stringLiteral.
  destruct (while_rule source
    (λ s', current s ≤ current s' ∧ current s' ≤ length source
       ∧ line s' = 1 + count_nl (take (current s') source)
       ∧ tokens s' = tokens s)
    (λ s, negb (Ascii.eqb (peek source s) QUOTE) && negb (isAtEnd source s))
    (λ s, advance_ source (if Ascii.eqb (peek source s) NL then incr_line s else s)))
    with (n := fuel source) (s := s) as (s1 & -> & (H1 & H2 & H3 & H4) & Hex).
  - intros s1 (H1 & H2 & H3 & H4) Hcond.
    apply andb_true_iff in Hcond as [_ He]. apply negb_true_iff, isAtEnd_false in He.
    split; [done|]. rewrite peek_in by done.
    destruct (Ascii.eqb_spec (at_ (current s1)) NL) as [E|E]; simpl.
    + split; [done|]. repeat split; try done; try lia.
      rewrite count_nl_take_S, E by done. simpl. lia.
    + split; [done|]. repeat split; try done; try lia.
      rewrite count_nl_take_S by done.
      destruct (Ascii.eqb_spec (at_ (current s1)) NL); [done|lia].
  - done.
  - unfold fuel. lia.
  - simpl. destruct (isAtEnd source s1) eqn:He; [left; eauto|].
    right. eexists; split; [done|].
    apply isAtEnd_false in He. rewrite andb_false_iff in Hex.
    destruct Hex as [Hq|Hq]; [|done].
    apply negb_false_iff in Hq. rewrite peek_in in Hq by done.
    apply Ascii.eqb_eq in Hq.
    assert (count_nl (take (S (current s1)) source) = count_nl (take (current s1) source)) as E.
    { rewrite count_nl_take_S, Hq by done. simpl. lia. }
    split; [|simpl; lia]. split; [simpl; lia|]. split; [simpl; lia|].
    simpl. rewrite H4. apply Forall_app; split; [done|]. apply Forall_singleton.
    split; [done|]. exists (current s - 1), (S (current s1)). simpl.
    split; [|split; [lia|done]]. split; [lia|]. simpl.
    split; [lia|]. split; [done|]. split.
    + rewrite Nat.sub_0_r, <- Hq. by apply at_lookup.
    + f_equal; lia.
Qed.

(** A token of one byte, and a token of two bytes when [match] succeeds. *)
Ltac single He := right; eexists; split; [done|]; by eapply entered_single.

Ltac double He s c2 :=
  let b := fresh "b" in let s2 := fresh "s" in let Hm := fresh "Hm" in
  destruct (match_ source c2 s) as [b s2] eqn:Hm;
  apply match_spec in Hm as [[-> ->]|(-> & -> & Hm)];
  [ | right; eexists; split; [done|]; by eapply entered_double ].

Lemma scanToken_spec c s :
  entered c s →
  (∃ ln, scanToken source c s = Throw (unterminated ln))
  ∨ (∃ s', scanToken source c s = Ok s' ∧ progress s s').
Proof.
  intros He. unfold scanToken.
  destruct (Ascii.eqb_spec c "(") as [->|_]; [single He|].
  destruct (Ascii.eqb_spec c ")") as [->|_]; [single He|].
  destruct (Ascii.eqb_spec c "{") as [->|_]; [single He|].
  destruct (Ascii.eqb_spec c "}") as [->|_]; [single He|].
  destruct (Ascii.eqb_spec c "[") as [->|_]; [single He|].
  destruct (Ascii.eqb_spec c "]") as [->|_]; [single He|].
  destruct (Ascii.eqb_spec c ",") as [->|_]; [single He|].
  destruct (Ascii.eqb_spec c ";") as [->|_]; [single He|].
  destruct (Ascii.eqb_spec c ":") as [->|_]; [single He|].
  destruct (Ascii.eqb_spec c "+") as [->|_]; [single He|].
  destruct (Ascii.eqb_spec c QUOTE) as [->|_]; [by apply stringLiteral_spec|].
  destruct (Ascii.eqb_spec c "=") as [->|_]; [double He s "="%char; single He|].
  destruct (Ascii.eqb_spec c "!") as [->|_].
  { double He s "="%char. right. eexists; split; [done|]. split; [|done].
    apply inv_emit_cerr, He. }
  destruct (Ascii.eqb_spec c "<") as [->|_]; [double He s "="%char; single He|].
  destruct (Ascii.eqb_spec c ">") as [->|_]; [double He s "="%char; single He|].
  destruct (Ascii.eqb_spec c "-") as [->|_].
  { double He s ">"%char. destruct (isDigit (peek source s)); [|single He].
    right. by eapply negativeNumber_spec. }
  destruct (isDigit c); [right; by eapply number_spec|].
  destruct (isAlpha c); [right; by eapply identifier_spec|].
  right. eexists; split; [done|]. split; [|done]. apply inv_emit_cerr, He.
Qed.

Lemma skipComment_spec s :
  inv s → peek source s = "/"%char →
  ∃ s', skipComment source s = Ok s' ∧ progress s s' ∧ current s < current s'.
Proof.
  intros Hi Hp. destruct (peek_not_nul s) as [Hlt Hat]; [by rewrite Hp|].
  rewrite Hp in Hat.
  assert (at_ (current s) = "/"%char) as Hat' by (unfold Lexer.at_; by rewrite Hat).
  unfold skipComment, fuel. simpl. rewrite Hp. simpl.
  apply isAtEnd_false in Hlt as He. rewrite He. simpl.
  apply isAtEnd_false in He.
  destruct (inv_advance source s Hi Hlt) as [Hi' _]; [by rewrite Hat'|].
  destruct (while_rule source
    (λ s', inv s' ∧ S (current s) ≤ current s')
    (λ s, negb (Ascii.eqb (peek source s) NL) && negb (isAtEnd source s))
    (advance_ source))
    with (n := length source) (s := advance_ source s) as (s1 & -> & (H1 & H2) & _).
  - intros s1 (H1 & H2) Hcond.
    apply andb_true_iff in Hcond as [Hn He1].
    apply negb_true_iff, isAtEnd_false in He1.
    apply negb_true_iff in Hn. rewrite peek_in in Hn by done.
    apply Ascii.eqb_neq in Hn.
    split; [done|]. split; [done|].
    destruct (inv_advance source s1 H1 He1 Hn) as [? _]. split; [done|simpl; lia].
  - split; [done|simpl; lia].
  - simpl. lia.
  - exists s1. split; [done|]. split; [split; [done|lia]|lia].
Qed.

Lemma skipWhitespace_loop_spec n s :
  inv s → length source - current s < n →
  ∃ s', skipWhitespace_loop source n s = Ok s' ∧ progress s s'
        ∧ peek source s' ≠ NL.
Proof.
  revert s. induction n as [|n IH]; intros s Hi Hn; [lia|]. simpl.
  assert (∀ s1, inv s1 → current s < current s1 →
          ∃ s', skipWhitespace_loop source n s1 = Ok s' ∧ progress s s'
                ∧ peek source s' ≠ NL) as Hrec.
  { intros s1 Hi1 Hlt. pose proof Hi1 as (Hc1 & _).
    destruct (IH s1 Hi1) as (s' & Hs' & (Hi' & Hle) & Hnl); [lia|].
    exists s'. split; [done|]. split; [|done]. split; [done|lia]. }
  assert (∀ c, peek source s = c → c ≠ NUL → c ≠ NL →
          ∃ s', skipWhitespace_loop source n (advance_ source s) = Ok s' ∧ progress s s'
                ∧ peek source s' ≠ NL) as Hws.
  { intros c Hc Hnul Hnl. destruct (peek_not_nul s) as [Hlt Hat]; [congruence|].
    destruct (inv_advance source s Hi Hlt) as [Hi' _].
    { unfold Lexer.at_. rewrite Hat. simpl. congruence. }
    apply Hrec; [done|simpl; lia]. }
  destruct (Ascii.eqb_spec (peek source s) " ") as [E|_]; [by eapply Hws|].
  destruct (Ascii.eqb_spec (peek source s) CR) as [E|_]; [by eapply Hws|].
  destruct (Ascii.eqb_spec (peek source s) TAB) as [E|_]; [by eapply Hws|].
  simpl.
  destruct (Ascii.eqb_spec (peek source s) NL) as [E|Hnl].
  { destruct (peek_not_nul s) as [Hlt Hat]; [by rewrite E|].
    apply Hrec; [|simpl; lia]. apply inv_advance_nl; [done..|].
    unfold Lexer.at_. by rewrite Hat. }
  assert (progress s s) as Hself by (split; [done|lia]).
  destruct (Ascii.eqb_spec (peek source s) "/") as [E|_]; [|by exists s].
  destruct (Ascii.eqb (peekNext source s) "/"); [|by exists s].
  destruct (skipComment_spec s Hi E) as (s1 & -> & [Hi1 _] & Hlt). simpl.
  by apply Hrec.
Qed.

Lemma scan_loop_spec n s :
  inv s → length source - current s < n →
  (∃ ln, scan_loop source n s = Throw (unterminated ln))
  ∨ (∃ s', scan_loop source n s = Ok s' ∧ inv s' ∧ current s' = length source).
Proof.
  revert s. induction n as [|n IH]; intros s Hi Hn; [lia|]. simpl.
  destruct (isAtEnd source s) eqn:He.
  { right. exists s. apply isAtEnd_true in He. destruct Hi as (? & ? & ?).
    repeat split; try done. lia. }
  apply isAtEnd_false in He.
  destruct (skipWhitespace_loop_spec (fuel source) s Hi) as (s1 & Hs1 & (Hi1 & Hle) & Hnl).
  { unfold fuel. lia. }
  unfold skipWhitespace. rewrite Hs1. simpl.
  destruct (isAtEnd source s1) eqn:He1.
  { right. exists s1. apply isAtEnd_true in He1. destruct Hi1 as (? & ? & ?).
    repeat split; try done. lia. }
  apply isAtEnd_false in He1. unfold advance.
  rewrite peek_in in Hnl by done.
  destruct (inv_advance source s1 Hi1 He1 Hnl) as [Hi2 Hcnt].
  destruct (scanToken_spec (at_ (current s1)) (set_current (S (current s1)) s1))
    as [[ln ->]|(s2 & -> & Hi3 & Hle3)].
  { split; [done|]. simpl. split; [lia|]. rewrite Nat.sub_0_r.
    split; [by apply at_lookup|done]. }
  { left. by exists ln. }
  simpl in *. apply IH; [done|lia].
Qed.

(** [scanTokens] either stops on an unterminated string or returns tokens
    that are all tracked, followed by one end-of-input token that carries the
    line of the end of the source. *)
Lemma scanTokens_spec :
  (∃ ln, scanTokens source = Throw (unterminated ln))
  ∨ (∃ s toks, scanTokens source = Ok s
       ∧ tokens s = toks ++ [mkToken TOK_EOF EmptyString (1 + count_nl source)]
       ∧ Forall (tracked source) toks).
Proof.
  unfold scanTokens.
  destruct (scan_loop_spec (fuel source) init) as [[ln ->]|(s & -> & (Hc & Hl & Ht) & Hend)].
  - split; [simpl; lia|]. split; [done|]. simpl. constructor.
  - unfold fuel. simpl. lia.
  - left. by exists ln.
  - right. simpl. eexists _, (tokens s). split; [done|]. simpl. split; [|done].
    rewrite Hl, Hend, firstn_all. done.
Qed.

End LexerScan.

Section LexerString.
Variable source : list ascii.

Lemma drop_cons_inv (l : list ascii) n c k :
  drop n l = c :: k → l !! n = Some c ∧ drop (S n) l = k.
Proof.
  intros H. split.
  - replace n with (n + 0) by lia. rewrite <- lookup_drop, H. done.
  - replace (S n) with (n + 1) by lia. rewrite <- drop_drop, H. done.
Qed.

Lemma string_loop body : ∀ s rest n,
  drop (current s) source = body ++ rest →
  QUOTE ∉ body → (rest = [] ∨ ∃ r, rest = QUOTE :: r) →
  length body < n →
  while n (λ s, negb (Ascii.eqb (peek source s) QUOTE) && negb (isAtEnd source s))
    (λ s, advance_ source (if Ascii.eqb (peek source s) NL then incr_line s else s)) s
  = Ok (mkState (current s + length body) (line s + count_nl body) (tokens s) (cerr s)).
Proof.
  induction body as [|c body IH]; intros s rest n Hd Hq Hrest Hn.
  - destruct n as [|n]; [simpl in Hn; lia|]. simpl in *.
    assert (negb (Ascii.eqb (peek source s) QUOTE) && negb (isAtEnd source s) = false) as ->.
    { destruct Hrest as [->|[r ->]].
      - assert (length source ≤ current s) as Hge.
        { pose proof (length_drop source (current s)) as HL. rewrite Hd in HL. simpl in HL. lia. }
        apply isAtEnd_true in Hge. rewrite Hge. by rewrite andb_false_r.
      - apply drop_cons_inv in Hd as [Hat _].
        assert (current s < length source) as Hlt by (apply lookup_lt_is_Some; eauto).
        rewrite peek_in by done. unfold at_. rewrite Hat. done. }
    destruct s. simpl. by rewrite !Nat.add_0_r.
  - destruct n as [|n]; [simpl in Hn; lia|]. simpl in Hd, Hn.
    apply drop_cons_inv in Hd as [Hat Hd].
    assert (current s < length source) as Hlt by (apply lookup_lt_is_Some; eauto).
    apply not_elem_of_cons in Hq as [Hc Hq].
    simpl. rewrite peek_in by done. unfold at_ at 1. rewrite Hat. simpl.
    destruct (Ascii.eqb_spec c QUOTE) as [E|_]; [congruence|]. simpl.
    apply isAtEnd_false in Hlt as ->. simpl.
    unfold at_. rewrite Hat. simpl.
    destruct (Ascii.eqb c NL).
    + rewrite (IH _ rest); [|done..|lia]. simpl. f_equal. f_equal; lia.
    + rewrite (IH _ rest); [|done..|lia]. simpl. f_equal. f_equal; lia.
Qed.

Lemma stringLiteral_closed s body rest :
  drop (current s) source = body ++ QUOTE :: rest → QUOTE ∉ body →
  stringLiteral source s
  = Ok (mkState (current s + length body + 1) (line s + count_nl body)
          (tokens s ++ [mkToken TOK_STRING_LITERAL (string_of_list_ascii body)
                          (line s + count_nl body)])
          (cerr s)).
Proof.
  intros Hd Hq. unfold stringLiteral.
  assert (length body < length source - current s) as Hlen.
  { rewrite <- length_drop, Hd, length_app. simpl. lia. }
  rewrite (string_loop body s (QUOTE :: rest)); [|done|done|eauto|unfold fuel; lia].
  simpl. unfold isAtEnd. simpl.
  destruct (Nat.leb_spec (length source) (current s + length body)) as [?|_]; [lia|].
  unfold addToken, advance_. simpl. f_equal. f_equal; [lia|].
  f_equal. f_equal. f_equal. unfold substr.
  replace (S (current s + length body) - current s - 1) with (length body) by lia.
  rewrite Hd. by rewrite take_app_length.
Qed.

Lemma stringLiteral_open s :
  QUOTE ∉ drop (current s) source →
  stringLiteral source s
  = Throw (unterminated (line s + count_nl (drop (current s) source))).
Proof.
  intros Hq. unfold stringLiteral.
  rewrite (string_loop (drop (current s) source) s []);
    [|by rewrite app_nil_r|done|by left|rewrite length_drop; unfold fuel; lia].
  simpl. unfold isAtEnd. simpl. rewrite length_drop.
  destruct (Nat.leb_spec (length source) (current s + (length source - current s))) as [_|?];
    [done|lia].
Qed.

(** Split a list at its first quote. *)
Lemma first_quote (l : list ascii) :
  QUOTE ∈ l → ∃ body rest, l = body ++ QUOTE :: rest ∧ QUOTE ∉ body.
Proof.
  induction l as [|c l IH]; intros H; [by apply elem_of_nil in H|].
  destruct (decide (c = QUOTE)) as [->|Hc].
  - exists [], l. split; [done|]. apply not_elem_of_nil.
  - apply elem_of_cons in H as [H|H]; [congruence|].
    destruct (IH H) as (body & rest & -> & Hb).
    exists (c :: body), rest. split; [done|].
    apply not_elem_of_cons. split; [congruence|done].
Qed.

Lemma scanToken_stray c s :
  stray c → scanToken source c s = Ok (emit_cerr (unexpected (line s) c) s).
Proof.
  intros (Hp & Hd & Ha). unfold scanToken.
  repeat match goal with
  | |- context [Ascii.eqb c ?x] =>
      destruct (Ascii.eqb_spec c x) as [->|_];
      [ exfalso; apply Hp; repeat first [apply list_elem_of_here | apply list_elem_of_further] |]
  end.
  by rewrite Hd, Ha.
Qed.

Lemma scanToken_bang s :
  peek source s ≠ "="%char →
  scanToken source "!" s = Ok (emit_cerr (unexpected (line s) "!") s).
Proof.
  intros Hp. unfold scanToken. simpl. unfold match_.
  destruct (isAtEnd source s) eqn:He; [done|]. simpl.
  apply isAtEnd_false in He. rewrite peek_in in Hp by done.
  destruct (Ascii.eqb_spec (at_ source (current s)) "=") as [E|_]; [congruence|done].
Qed.
End LexerString.

(** C6 as stated fails: a string literal that spans lines carries the line of
    its closing quote.  In [two_line_string] the literal starts at byte 0, on
    line 1, and its token carries line 2. *)
Lemma line_tracking_counterexample : ¬ line_of_first_byte two_line_string.
Proof.
  intros H.
  destruct (H _ eq_refl (mkToken TOK_STRING_LITERAL (String "a" (String NL (String "b" EmptyString))) 2))
    as (p & q & (Hq & Hocc) & Hline).
  { apply list_elem_of_here. }
  simpl in Hocc, Hline, Hq. destruct Hocc as (Hpq & Hp & _).
  do 5 (destruct p as [|p]; [simpl in *; first [discriminate | lia]|]).
  lia.
Qed.

(** C6 (line tracking, amended).  For any input the scanner accepts, every
    token it emits is a slice of the source and carries the line
    [1 + (newlines before the end of the slice)]; for every token that is not
    a string literal this is also [1 + (newlines before its first byte)]. *)
Theorem line_tracking (source : list ascii) (s : State) :
  scanTokens source = Ok s →
  ∀ t, t ∈ tokens s → line_tracked source t.
Proof.
  intros Hs t Ht.
  destruct (scanTokens_spec source) as [[ln E]|(s' & toks & E & Htoks & Hall)]; [congruence|].
  rewrite Hs in E. injection E as <-. rewrite Htoks in Ht.
  apply elem_of_app in Ht as [Ht|Ht].
  - rewrite Forall_forall in Hall. by apply Hall.
  - apply list_elem_of_singleton in Ht as ->.
    exists (length source), (length source). simpl. rewrite firstn_all.
    split; [|done]. split; [done|]. done.
Qed.

Lemma line_tracking_witness :
  line_tracked two_line_string
    (mkToken TOK_STRING_LITERAL (String "a" (String NL (String "b" EmptyString))) 2).
Proof.
  apply (line_tracking two_line_string
           (mkState 5 2 [mkToken TOK_STRING_LITERAL (String "a" (String NL (String "b" EmptyString))) 2;
                         mkToken TOK_EOF EmptyString 2] [])).
  - reflexivity.
  - apply list_elem_of_here.
Defined.

(** Only a string literal makes the scanner throw: no loop does, and no
    other case of the switch. *)
Section LexerThrow.
Variable source : list ascii.

Lemma while_no_throw n cond body s msg : while n cond body s ≠ Throw msg.
Proof.
  revert s. induction n as [|n IH]; intros s; simpl; [done|].
  destruct (cond s); [apply IH|done].
Qed.

Lemma bind_Throw_inv {A B} (m : Res A) (k : A → Res B) msg :
  res_bind m k = Throw msg → m = Throw msg ∨ ∃ a, m = Ok a ∧ k a = Throw msg.
Proof. destruct m; simpl; [eauto|intros [= ->]; eauto|done]. Qed.

Lemma skipWhitespace_loop_no_throw n s msg : skipWhitespace_loop source n s ≠ Throw msg.
Proof.
  revert s. induction n as [|n IH]; intros s; simpl; [done|].
  repeat match goal with |- context [if ?b then _ else _] => destruct b end;
    try apply IH; try done.
  intros [H|(s1 & _ & H)]%bind_Throw_inv; [by apply while_no_throw in H|by apply IH in H].
Qed.

Lemma word_no_throw cond (k : State → State) s msg :
  res_bind (while (fuel source) cond (advance_ source) s) (λ s, Ok (k s)) ≠ Throw msg.
Proof.
  intros [H|(s1 & _ & H)]%bind_Throw_inv; [by apply while_no_throw in H|done].
Qed.

Lemma scanToken_throw c s msg : scanToken source c s = Throw msg → c = QUOTE.
Proof.
  unfold scanToken, number, negativeNumber, identifier.
  repeat match goal with
  | |- context [Ascii.eqb c ?x] => destruct (Ascii.eqb_spec c x) as [->|?]
  | |- context [match_ source ?x ?s] => destruct (match_ source x s) as [[] ?]
  | |- context [if ?b then _ else _] => destruct b
  end; try done; intros H; by apply word_no_throw in H.
Qed.

Lemma scan_loop_throw n s msg : scan_loop source n s = Throw msg → QUOTE ∈ source.
Proof.
  revert s. induction n as [|n IH]; intros s; simpl; [done|].
  destruct (isAtEnd source s); [done|].
  intros [H|(s1 & _ & H)]%bind_Throw_inv; [by apply skipWhitespace_loop_no_throw in H|].
  destruct (isAtEnd source s1) eqn:He; [done|]. simpl in H.
  apply bind_Throw_inv in H as [H|(s2 & _ & H)]; [|by apply IH in H].
  apply scanToken_throw in H. unfold isAtEnd in He. apply Nat.leb_gt in He.
  destruct (lookup_lt_is_Some_2 source (current s1) He) as [c Hc].
  unfold at_ in H. rewrite Hc in H. simpl in H. subst c.
  by apply list_elem_of_lookup_2 in Hc.
Qed.

(** A source that throws holds a quote: one without any scans to the end. *)
Lemma scanTokens_throw msg : scanTokens source = Throw msg → QUOTE ∈ source.
Proof.
  unfold scanTokens. intros [H|(s & _ & H)]%bind_Throw_inv; [by apply scan_loop_throw in H|done].
Qed.

End LexerThrow.



Section LexerWords.
Variable source : list ascii.

(** [while (p(peek())) advance();] steps over a run of bytes that satisfy [p]
    and stops at the first byte that does not, or at the end of the input. *)
Lemma run_loop (p : ascii → bool) word : ∀ s rest n,
  p NUL = false →
  drop (current s) source = word ++ rest →
  Forall (λ d, p d = true) word → ends_run p rest →
  length word < n →
  while n (λ s, p (peek source s)) (advance_ source) s
  = Ok (set_current (current s + length word) s).
Proof.
  induction word as [|c word IH]; intros s rest n Hnul Hd Hw Hrest Hn.
  - destruct n as [|n]; [simpl in Hn; lia|]. simpl in *.
    assert (p (peek source s) = false) as ->.
    { destruct rest as [|d r].
      - rewrite peek_end; [done|].
        pose proof (length_drop source (current s)) as HL. rewrite Hd in HL. simpl in HL. lia.
      - apply drop_cons_inv in Hd as [Hat _].
        assert (current s < length source) as Hlt by (apply lookup_lt_is_Some; eauto).
        rewrite peek_in by done. unfold at_. rewrite Hat. simpl. by apply Hrest. }
    destruct s. unfold set_current. simpl. by rewrite Nat.add_0_r.
  - destruct n as [|n]; [simpl in Hn; lia|]. simpl in Hd, Hn.
    apply drop_cons_inv in Hd as [Hat Hd]. apply Forall_cons in Hw as [Hc Hw].
    assert (current s < length source) as Hlt by (apply lookup_lt_is_Some; eauto).
    simpl. rewrite peek_in by done. unfold at_ at 1. rewrite Hat. simpl. rewrite Hc.
    rewrite (IH _ rest); [|done..|lia]. unfold set_current. simpl. do 2 f_equal. lia.
Qed.

(** The text of a word that starts one byte before [current]. *)
Lemma substr_word s c word rest :
  0 < current s →
  drop (current s - 1) source = c :: word ++ rest →
  substr source (current s - 1) (current s + length word - (current s - 1))
  = string_of_list_ascii (c :: word).
Proof.
  intros Hpos Hd. unfold substr. rewrite Hd. f_equal.
  replace (current s + length word - (current s - 1)) with (S (length word)) by lia.
  simpl. f_equal. by rewrite take_app_length.
Qed.

Lemma drop_word s c word rest :
  0 < current s →
  drop (current s - 1) source = c :: word ++ rest →
  drop (current s) source = word ++ rest.
Proof.
  intros Hpos Hd. apply drop_cons_inv in Hd as [_ Hd].
  by replace (S (current s - 1)) with (current s) in Hd by lia.
Qed.

End LexerWords.

(** Digits and letters are none of the bytes the switch of the scanner names. *)
Lemma alnum_switch c :
  isAlphaNumeric c = true →
  c ∉ [ "("; ")"; "{"; "}"; "["; "]"; ","; ";"; ":"; "+"; QUOTE;
        "="; "!"; "<"; ">"; "-" ]%char.
Proof.
  intros H Hin.
  repeat (apply elem_of_cons in Hin as [->|Hin]; [discriminate H|]).
  by apply elem_of_nil in Hin.
Qed.

Lemma isAlpha_not_digit c : isAlpha c = true → isDigit c = false.
Proof. destruct c as [[] [] [] [] [] [] [] []]; vm_compute; congruence. Qed.

Ltac switch_default c Hno :=
  repeat match goal with
  | |- context [Ascii.eqb c ?x] =>
      destruct (Ascii.eqb_spec c x) as [->|_];
      [ exfalso; apply Hno; repeat first [apply list_elem_of_here | apply list_elem_of_further] |]
  end.

Section LexerTokens.
Variable source : list ascii.

Lemma scanToken_identifier_run (s : State) (c : ascii) (word rest : list ascii) :
  isAlpha c = true →
  0 < current s →
  drop (current s - 1) source = c :: word ++ rest →
  Forall (λ d, isAlphaNumeric d = true) word →
  ends_run isAlphaNumeric rest →
  let text := string_of_list_ascii (c :: word) in
  scanToken source c s
  = Ok (addToken (keyword text) text (set_current (current s + length word) s)).
Proof.
  intros Ha Hpos Hd Hw Hrest text.
  assert (isAlphaNumeric c = true) as Han by (unfold isAlphaNumeric; by rewrite Ha).
  pose proof (alnum_switch c Han) as Hno.
  unfold scanToken. switch_default c Hno.
  rewrite (isAlpha_not_digit c Ha), Ha. unfold identifier.
  rewrite (run_loop source isAlphaNumeric word s rest);
    [|done|by eapply drop_word|done|done|].
  - simpl. by rewrite (substr_word source s c word rest).
  - unfold fuel. pose proof (length_drop source (current s - 1)) as HL.
    rewrite Hd in HL. simpl in HL. rewrite length_app in HL. lia.
Qed.

(** X1 (identifiers and keywords).  Called on a letter or an underscore [c]
    that the scanner has just stepped over, [scanToken] takes the longest
    run of letters, digits and underscores that follows it (the run ends at
    the first other byte or at the end of the input), stops behind that run
    and appends one token whose lexeme is [c] and the run, and whose type is
    what [keyword] says of that lexeme. *)
Theorem identifier_longest_word (s : State) (c : ascii) (word rest : list ascii) :
  isAlpha c = true →
  0 < current s →
  drop (current s - 1) source = c :: word ++ rest →
  Forall (λ d, isAlphaNumeric d = true) word →
  ends_run isAlphaNumeric rest →
  let text := string_of_list_ascii (c :: word) in
  scanToken source c s
  = Ok (addToken (keyword text) text (set_current (current s + length word) s)).
Proof. exact (scanToken_identifier_run s c word rest). Qed.

End LexerTokens.

Lemma identifier_longest_word_witness :
  scanToken (bytes "fn main") "f" (mkState 1 1 [] [])
  = Ok (mkState 2 1 [mkToken TOK_FN "fn" 1] []).
Proof.
  apply (identifier_longest_word (bytes "fn main") (mkState 1 1 [] []) "f"
           ["n"]%char (bytes " main")).
  - reflexivity.
  - simpl. lia.
  - reflexivity.
  - repeat constructor.
  - intros d [= <-]. reflexivity.
Defined.

Lemma isDigit_alnum c : isDigit c = true → isAlphaNumeric c = true.
Proof. intros H. unfold isAlphaNumeric. rewrite H. apply orb_true_r. Qed.

Lemma isDigit_not_alpha c : isDigit c = true → isAlpha c = false.
Proof. destruct c as [[] [] [] [] [] [] [] []]; vm_compute; congruence. Qed.

Lemma isDigit_not_space c : isDigit c = true → Stoll.isspace c = false.
Proof. destruct c as [[] [] [] [] [] [] [] []]; vm_compute; congruence. Qed.

Lemma digits_decimal l : ∀ acc seen,
  Forall (λ d, isDigit d = true) l →
  Stoll.digits acc seen l
  = (fold_left (λ acc c, 10 * acc + Z.of_nat (nat_of_ascii c - 48))%Z l acc,
     seen || negb (bool_decide (l = []))).
Proof.
  induction l as [|c l IH]; intros acc seen Hl; simpl.
  - by rewrite orb_false_r.
  - apply Forall_cons in Hl as [Hc Hl]. rewrite Hc, IH by done. simpl.
    by rewrite orb_true_r.
Qed.

Lemma fold_decimal_nonneg l : ∀ acc,
  (0 ≤ acc)%Z →
  (0 ≤ fold_left (λ acc c, 10 * acc + Z.of_nat (nat_of_ascii c - 48)) l acc)%Z.
Proof. induction l as [|c l IH]; intros acc H; simpl; [done|]. apply IH. lia. Qed.

Lemma decimal_nonneg l : (0 ≤ decimal l)%Z.
Proof. by apply fold_decimal_nonneg. Qed.

(** [std::stoll] on a run of digits, and on a minus sign and a run of
    digits. *)
Lemma stoll_digits c word :
  Forall (λ d, isDigit d = true) (c :: word) →
  Stoll.stoll (string_of_list_ascii (c :: word))
  = if (decimal (c :: word) <? 2 ^ 63)%Z then Ok (decimal (c :: word))
    else Throw "stoll: out of range".
Proof.
  intros Hl. pose proof Hl as [Hc _]%Forall_cons.
  unfold Stoll.stoll. rewrite list_ascii_of_string_of_list_ascii.
  simpl Stoll.skip_space. rewrite (isDigit_not_space c Hc).
  destruct (Ascii.eqb_spec c "-") as [->|_]; [discriminate Hc|].
  destruct (Ascii.eqb_spec c "+") as [->|_]; [discriminate Hc|].
  rewrite digits_decimal by done. fold (decimal (c :: word)).
  pose proof (decimal_nonneg (c :: word)) as Hnn. simpl negb.
  assert ((- 2 ^ 63 <=? decimal (c :: word))%Z = true) as -> by (apply Z.leb_le; lia).
  done.
Qed.

Lemma stoll_minus_digits d word :
  Forall (λ d, isDigit d = true) (d :: word) →
  Stoll.stoll (string_of_list_ascii ("-"%char :: d :: word))
  = if (decimal (d :: word) <=? 2 ^ 63)%Z then Ok (- decimal (d :: word))%Z
    else Throw "stoll: out of range".
Proof.
  intros Hl. unfold Stoll.stoll. rewrite list_ascii_of_string_of_list_ascii.
  change (Stoll.skip_space ("-"%char :: d :: word)) with ("-"%char :: d :: word).
  cbn [Ascii.eqb Bool.eqb]. 
  rewrite digits_decimal by done. fold (decimal (d :: word)).
  pose proof (decimal_nonneg (d :: word)) as Hnn. simpl negb.
  destruct (Z.leb_spec (decimal (d :: word)) (2 ^ 63)) as [Hle|Hgt].
  - assert ((- 2 ^ 63 <=? - decimal (d :: word))%Z = true) as -> by (apply Z.leb_le; lia).
    assert ((- decimal (d :: word) <? 2 ^ 63)%Z = true) as -> by (apply Z.ltb_lt; lia).
    done.
  - assert ((- 2 ^ 63 <=? - decimal (d :: word))%Z = false) as -> by (apply Z.leb_gt; lia).
    done.
Qed.

Section LexerNumbers.
Variable source : list ascii.

Lemma scanToken_number_run (s : State) (c : ascii) (word rest : list ascii) :
  isDigit c = true →
  0 < current s →
  drop (current s - 1) source = c :: word ++ rest →
  Forall (λ d, isDigit d = true) word →
  ends_run isDigit rest →
  scanToken source c s
  = Ok (addToken TOK_NUMBER (string_of_list_ascii (c :: word))
          (set_current (current s + length word) s)).
Proof.
  intros Hc Hpos Hd Hw Hrest.
  pose proof (alnum_switch c (isDigit_alnum c Hc)) as Hno.
  unfold scanToken. switch_default c Hno. rewrite Hc. unfold number.
  rewrite (run_loop source isDigit word s rest);
    [|done|by eapply drop_word|done|done|].
  - simpl. by rewrite (substr_word source s c word rest).
  - unfold fuel. pose proof (length_drop source (current s - 1)) as HL.
    rewrite Hd in HL. simpl in HL. rewrite length_app in HL. lia.
Qed.

(** X2 (number tokens).  Called on a digit [c] that the scanner has just
    stepped over, [scanToken] takes the longest run of digits that follows,
    stops behind it and appends one NUMBER token whose lexeme is [c] and the
    run.  [std::stoll] reads that lexeme as its decimal value when the value
    is below 2^63, and throws its range error otherwise: the scanner itself
    puts no bound on the length of a number. *)
Theorem number_token (s : State) (c : ascii) (word rest : list ascii) :
  isDigit c = true →
  0 < current s →
  drop (current s - 1) source = c :: word ++ rest →
  Forall (λ d, isDigit d = true) word →
  ends_run isDigit rest →
  let text := string_of_list_ascii (c :: word) in
  scanToken source c s
    = Ok (addToken TOK_NUMBER text (set_current (current s + length word) s))
  ∧ Stoll.stoll text
    = if (decimal (c :: word) <? 2 ^ 63)%Z then Ok (decimal (c :: word))
      else Throw "stoll: out of range".
Proof.
  intros Hc Hpos Hd Hw Hrest text. split; [|by apply stoll_digits, Forall_cons].
  by apply (scanToken_number_run s c word rest).
Qed.

Lemma scanToken_negative_run (s : State) (d : ascii) (word rest : list ascii) :
  isDigit d = true →
  0 < current s →
  drop (current s - 1) source = "-"%char :: d :: word ++ rest →
  Forall (λ d, isDigit d = true) word →
  ends_run isDigit rest →
  scanToken source "-" s
  = Ok (addToken TOK_NUMBER (string_of_list_ascii ("-"%char :: d :: word))
          (set_current (current s + S (length word)) s)).
Proof.
  intros Hc Hpos Hd Hw Hrest.
  pose proof (drop_word source s "-" (d :: word) rest Hpos Hd) as Hd'.
  pose proof Hd' as [Hat _]%drop_cons_inv.
  assert (current s < length source) as Hlt by (apply lookup_lt_is_Some; eauto).
  assert (peek source s = d) as Hpeek.
  { rewrite peek_in by done. unfold at_. by rewrite Hat. }
  unfold scanToken. simpl. unfold match_.
  apply isAtEnd_false in Hlt as Hend. rewrite Hend. simpl.
  unfold at_ at 1. rewrite Hat. simpl.
  destruct (Ascii.eqb_spec d ">") as [->|_]; [discriminate Hc|]. simpl.
  rewrite Hpeek, Hc. unfold negativeNumber.
  rewrite (run_loop source isDigit (d :: word) s rest);
    [|done|done|by apply Forall_cons|done|].
  - pose proof (substr_word source s "-" (d :: word) rest Hpos Hd) as E.
    simpl in E |- *. by rewrite E.
  - unfold fuel. pose proof (length_drop source (current s - 1)) as HL.
    rewrite Hd in HL. simpl in HL. rewrite length_app in HL. simpl. lia.
Qed.

(** X3 (negative number tokens).  Called on a minus sign that the scanner has
    just stepped over and that a digit follows, [scanToken] takes the longest
    run of digits behind the sign and appends one NUMBER token whose lexeme
    is the sign and the digits.  [std::stoll] reads that lexeme as the
    negated decimal value when the value is at most 2^63, and throws its
    range error otherwise. *)
Theorem negative_number_token (s : State) (d : ascii) (word rest : list ascii) :
  isDigit d = true →
  0 < current s →
  drop (current s - 1) source = "-"%char :: d :: word ++ rest →
  Forall (λ d, isDigit d = true) word →
  ends_run isDigit rest →
  let text := string_of_list_ascii ("-"%char :: d :: word) in
  scanToken source "-" s
    = Ok (addToken TOK_NUMBER text (set_current (current s + S (length word)) s))
  ∧ Stoll.stoll text
    = if (decimal (d :: word) <=? 2 ^ 63)%Z then Ok (- decimal (d :: word))%Z
      else Throw "stoll: out of range".
Proof.
  intros Hc Hpos Hd Hw Hrest text. split; [|by apply stoll_minus_digits, Forall_cons].
  by apply (scanToken_negative_run s d word rest).
Qed.

End LexerNumbers.

Lemma negative_number_token_witness :
  scanToken (bytes "-7)") "-" (mkState 1 1 [] [])
    = Ok (mkState 2 1 [mkToken TOK_NUMBER "-7" 1] [])
  ∧ Stoll.stoll "-7" = Ok (-7)%Z.
Proof.
  apply (negative_number_token (bytes "-7)") (mkState 1 1 [] []) "7" [] (bytes ")")).
  - reflexivity.
  - simpl. lia.
  - reflexivity.
  - constructor.
  - intros d [= <-]. reflexivity.
Defined.

Lemma number_token_witness :
  scanToken (bytes "42;") "4" (mkState 1 1 [] [])
    = Ok (mkState 2 1 [mkToken TOK_NUMBER "42" 1] [])
  ∧ Stoll.stoll "42" = Ok 42%Z.
Proof.
  apply (number_token (bytes "42;") (mkState 1 1 [] []) "4" ["2"]%char (bytes ";")).
  - reflexivity.
  - simpl. lia.
  - reflexivity.
  - repeat constructor.
  - intros d [= <-]. reflexivity.
Defined.

Section LexerBlank.
Variable source : list ascii.

Lemma count_nl_slice p q :
  p ≤ q →
  count_nl (take q source) = count_nl (take p source) + count_nl (slice source p q).
Proof.
  intros H. unfold slice. rewrite <- count_nl_app, take_take_drop.
  by replace (p + (q - p)) with q by lia.
Qed.

(** The comment loop stops at the newline that ends the comment, or at the
    end of the input, and steps over no newline. *)
Lemma skipComment_run s :
  current s ≤ length source →
  ∃ s', skipComment source s = Ok s'
    ∧ tokens s' = tokens s ∧ cerr s' = cerr s ∧ line s' = line s
    ∧ current s ≤ current s' ∧ current s' ≤ length source
    ∧ count_nl (take (current s') source) = count_nl (take (current s) source)
    ∧ (peek source s' = NL ∨ length source ≤ current s').
Proof.
  intros Hc. unfold skipComment.
  destruct (while_rule source
    (λ s', tokens s' = tokens s ∧ cerr s' = cerr s ∧ line s' = line s
       ∧ current s ≤ current s' ∧ current s' ≤ length source
       ∧ count_nl (take (current s') source) = count_nl (take (current s) source))
    (λ s, negb (Ascii.eqb (peek source s) NL) && negb (isAtEnd source s))
    (advance_ source))
    with (n := fuel source) (s := s) as (s1 & -> & HP & Hex).
  - intros s1 (H1 & H2 & H3 & H4 & H5 & H6) Hcond.
    apply andb_true_iff in Hcond as [Hnl He].
    apply negb_true_iff, isAtEnd_false in He. split; [done|]. split; [done|].
    rewrite peek_in in Hnl by done. simpl.
    rewrite count_nl_take_S by done. apply negb_true_iff in Hnl. rewrite Hnl.
    repeat split; try done; lia.
  - repeat split; done.
  - unfold fuel. lia.
  - exists s1. split; [done|]. destruct HP as (H1 & H2 & H3 & H4 & H5 & H6).
    repeat (split; [done|]).
    apply andb_false_iff in Hex as [H|H].
    + left. apply negb_false_iff in H. by apply Ascii.eqb_eq in H.
    + right. apply negb_false_iff in H. by apply isAtEnd_true in H.
Qed.

Lemma skipWhitespace_loop_run n : ∀ s,
  current s ≤ length source → length source - current s < n →
  ∃ s', skipWhitespace_loop source n s = Ok s'
    ∧ tokens s' = tokens s ∧ cerr s' = cerr s
    ∧ current s ≤ current s' ∧ current s' ≤ length source
    ∧ line s' + count_nl (take (current s) source)
      = line s + count_nl (take (current s') source)
    ∧ ¬ blank (peek source s')
    ∧ ¬ (peek source s' = "/"%char ∧ peekNext source s' = "/"%char).
Proof.
  induction n as [|n IH]; intros s Hc Hn; [lia|]. simpl.
  assert (∀ s1, tokens s1 = tokens s → cerr s1 = cerr s →
            current s < current s1 → current s1 ≤ length source →
            line s1 + count_nl (take (current s) source)
            = line s + count_nl (take (current s1) source) →
          ∃ s', skipWhitespace_loop source n s1 = Ok s'
            ∧ tokens s' = tokens s ∧ cerr s' = cerr s
            ∧ current s ≤ current s' ∧ current s' ≤ length source
            ∧ line s' + count_nl (take (current s) source)
              = line s + count_nl (take (current s') source)
            ∧ ¬ blank (peek source s')
            ∧ ¬ (peek source s' = "/"%char ∧ peekNext source s' = "/"%char)) as Hrec.
  { intros s1 Ht Hce Hlt Hle Hl.
    destruct (IH s1) as (s' & Hs' & Ht' & Hce' & Hlt' & Hle' & Hl' & Hb & Hcm); [done|lia|].
    exists s'. repeat split; try done; try congruence; lia. }
  assert (peek source s ≠ NUL → current s < length source
          ∧ at_ source (current s) = peek source s) as Hin.
  { intros H. apply peek_not_nul in H as [Hlt Hat]. split; [done|].
    unfold at_. by rewrite Hat. }
  destruct (Ascii.eqb (peek source s) " " || Ascii.eqb (peek source s) CR
            || Ascii.eqb (peek source s) TAB) eqn:Hws.
  { assert (peek source s ≠ NUL ∧ peek source s ≠ NL) as [Hnul Hnl].
    { apply orb_true_iff in Hws as [Hws|Hws]; [apply orb_true_iff in Hws as [Hws|Hws]|];
        apply Ascii.eqb_eq in Hws; rewrite Hws; done. }
    destruct (Hin Hnul) as [Hlt Hat]. apply Hrec; simpl; try done; try lia.
    rewrite count_nl_take_S by done. rewrite Hat.
    destruct (Ascii.eqb_spec (peek source s) NL); [done|lia]. }
  destruct (Ascii.eqb_spec (peek source s) NL) as [Hnl|Hnl].
  { destruct Hin as [Hlt Hat]; [by rewrite Hnl|].
    apply Hrec; simpl; try done; try lia.
    rewrite count_nl_take_S by done. rewrite Hat, Hnl. simpl. lia. }
  assert (¬ blank (peek source s)) as Hnb.
  { intros Hb. unfold blank in Hb.
    apply orb_false_iff in Hws as [Hws H3]. apply orb_false_iff in Hws as [H1 H2].
    repeat (apply elem_of_cons in Hb as [Hb|Hb];
            [rewrite Hb in *; first [discriminate | done]|]).
    by apply elem_of_nil in Hb. }
  assert ((∃ s', Ok s = Ok s' ∧ tokens s' = tokens s ∧ cerr s' = cerr s
            ∧ current s ≤ current s' ∧ current s' ≤ length source
            ∧ line s' + count_nl (take (current s) source)
              = line s + count_nl (take (current s') source)
            ∧ ¬ blank (peek source s')
            ∧ ¬ (peek source s' = "/"%char ∧ peekNext source s' = "/"%char))
          ∨ (peek source s = "/"%char ∧ peekNext source s = "/"%char)) as Hstop.
  { destruct (decide (peek source s = "/"%char ∧ peekNext source s = "/"%char)) as [H|H];
      [by right|left]. exists s. repeat split; try done. }
  destruct (Ascii.eqb_spec (peek source s) "/") as [Hsl|Hsl].
  2:{ destruct Hstop as [H|[H _]]; done. }
  destruct (Ascii.eqb_spec (peekNext source s) "/") as [Hsl2|Hsl2].
  2:{ destruct Hstop as [H|[_ H]]; done. }
  destruct (skipComment_run s Hc) as (s1 & -> & Ht & Hce & Hl & Hle & Hle' & Hcnt & Hend).
  simpl.
  destruct (decide (current s < current s1)) as [Hlt|Hge].
  { apply Hrec; try done. lia. }
  (* the comment loop has not moved: it cannot be at its end *)
  exfalso. assert (current s1 = current s) as Hcur by lia.
  assert (peek source s1 = peek source s) as Hp.
  { unfold peek, isAtEnd. by rewrite Hcur. }
  destruct Hend as [H|H].
  - rewrite Hp, Hsl in H. discriminate H.
  - rewrite Hcur in H. rewrite peek_end in Hsl by done. discriminate Hsl.
Qed.

Lemma skipWhitespace_run s :
  ∃ s', skipWhitespace source s = Ok s' ∧ skipped source s s'.
Proof.
  destruct (decide (current s ≤ length source)) as [Hc|Hc].
  - destruct (skipWhitespace_loop_run (fuel source) s Hc)
      as (s' & Hs' & Ht & Hce & Hle & Hle' & Hl & Hb & Hcm); [unfold fuel; lia|].
    exists s'. split; [done|].
    repeat split; try done.
    rewrite (count_nl_slice (current s) (current s')) in Hl by done. lia.
  - assert (peek source s = NUL) as Hp by (apply peek_end; lia).
    assert (¬ blank NUL) as Hnb.
    { intros Hb. unfold blank in Hb.
      repeat (apply elem_of_cons in Hb as [Hb|Hb]; [discriminate Hb|]).
      by apply elem_of_nil in Hb. }
    exists s. unfold skipWhitespace, fuel. simpl. rewrite Hp. simpl.
    split; [done|].
    repeat split; try done.
    + unfold slice. rewrite Nat.sub_diag. simpl. lia.
    + by rewrite Hp.
    + rewrite Hp. by intros [? _].
Qed.

(** X4 (blanks and comments).  [skipWhitespace] always returns.  It adds no
    token and no diagnostic, moves forward only, adds to the line number the
    number of newlines among the bytes it has stepped over, and stops at a
    byte that is neither a blank, tab, carriage return or newline nor the
    start of a [//] comment (or at the end of the input).  Started at such a
    byte it changes nothing. *)
Theorem skipWhitespace_skipped (s : State) :
  ∃ s', skipWhitespace source s = Ok s' ∧ skipped source s s'
    ∧ (¬ blank (peek source s) →
       ¬ (peek source s = "/"%char ∧ peekNext source s = "/"%char) → s' = s).
Proof.
  destruct (skipWhitespace_run s) as (s' & Hs' & Hsk).
  exists s'. split; [done|]. split; [done|].
  intros Hnb Hnc. unfold skipWhitespace, fuel in Hs'. simpl in Hs'.
  destruct (Ascii.eqb_spec (peek source s) " ") as [E|_].
  { exfalso. apply Hnb. rewrite E. apply list_elem_of_here. }
  destruct (Ascii.eqb_spec (peek source s) CR) as [E|_].
  { exfalso. apply Hnb. rewrite E. apply list_elem_of_further, list_elem_of_here. }
  destruct (Ascii.eqb_spec (peek source s) TAB) as [E|_].
  { exfalso. apply Hnb. rewrite E. do 2 apply list_elem_of_further. apply list_elem_of_here. }
  destruct (Ascii.eqb_spec (peek source s) NL) as [E|_].
  { exfalso. apply Hnb. rewrite E. do 3 apply list_elem_of_further. apply list_elem_of_here. }
  simpl in Hs'.
  destruct (Ascii.eqb_spec (peek source s) "/") as [E|_]; [|congruence].
  destruct (Ascii.eqb_spec (peekNext source s) "/") as [E2|_]; [|congruence].
  by destruct Hnc.
Qed.

End LexerBlank.

Lemma run_split (p : ascii → bool) (l : list ascii) :
  ∃ word rest, l = word ++ rest ∧ Forall (λ d, p d = true) word ∧ ends_run p rest.
Proof.
  induction l as [|c l (w & r & -> & Hw & Hr)].
  - exists [], []. split; [done|]. split; [constructor|]. by intros d.
  - destruct (p c) eqn:Hc.
    + exists (c :: w), r. split; [done|]. split; [by constructor|done].
    + exists [], (c :: w ++ r). split; [done|]. split; [constructor|].
      intros d [= <-]. done.
Qed.

Lemma well_formed_word text ln :
  word text → well_formed (mkToken (keyword text) text ln).
Proof.
  intros Hw. unfold well_formed. simpl.
  destruct (keyword text) eqn:E; simpl; try done;
    exfalso; unfold keyword in E; repeat case_match; discriminate.
Qed.

Section LexerShape.
Variable source : list ascii.

(** The scanner adds at most one token for a byte, and a well-formed one. *)
Lemma scanToken_well_formed c s s' :
  0 < current s → source !! (current s - 1) = Some c →
  scanToken source c s = Ok s' →
  tokens s' = tokens s ∨ ∃ t, tokens s' = tokens s ++ [t] ∧ well_formed t.
Proof.
  intros Hpos Hat.
  assert (drop (current s - 1) source = c :: drop (current s) source) as Hd.
  { rewrite (drop_S _ _ _ Hat). by replace (S (current s - 1)) with (current s) by lia. }
  assert (∀ ty lx, spelling ty = Some lx → ty ≠ TOK_EOF → ty ≠ TOK_NUMBER →
          ty ≠ TOK_STRING_LITERAL → ∀ s0, tokens s0 = tokens s →
          tokens (addToken ty lx s0) = tokens s
          ∨ ∃ t, tokens (addToken ty lx s0) = tokens s ++ [t] ∧ well_formed t) as Hsp.
  { intros ty lx Hsp H1 H2 H3 s0 Hs0. right. eexists. simpl. rewrite Hs0.
    split; [done|]. unfold well_formed. simpl. destruct ty; try done; simpl in Hsp;
      by injection Hsp as <-. }
  unfold scanToken.
  repeat match goal with
  | |- context [Ascii.eqb c ?x] => destruct (Ascii.eqb_spec c x) as [->|?]
  | |- context [match_ source ?x s] =>
      let b := fresh "b" in let s1 := fresh "s" in let Hm := fresh "Hm" in
      destruct (match_ source x s) as [b s1] eqn:Hm;
      apply match_spec in Hm as [[-> ->]|(-> & -> & Hm)]
  | |- Ok (addToken ?ty ?lx ?s0) = Ok s' → _ =>
      intros [= <-]; by apply Hsp
  | |- Ok (emit_cerr _ _) = Ok s' → _ => intros [= <-]; by left
  end.
  - (* string literal *)
    intros Hs. right.
    destruct (decide (QUOTE ∈ drop (current s) source)) as [Hq|Hq].
    + apply first_quote in Hq as (body & rest & Hb & Hnq).
      rewrite (stringLiteral_closed source s body rest Hb Hnq) in Hs.
      injection Hs as <-. eexists. split; [done|]. unfold well_formed. simpl.
      by rewrite list_ascii_of_string_of_list_ascii.
    + by rewrite (stringLiteral_open source s Hq) in Hs.
  - (* minus *)
    destruct (isDigit (peek source s)) eqn:Hdig.
    + intros Hs. right.
      assert (peek source s ≠ NUL) as Hnn by (intros E; by rewrite E in Hdig).
      apply peek_not_nul in Hnn as [Hlt Hpk].
      destruct (run_split isDigit (drop (S (current s)) source)) as (w & r & Hwr & Hw & Hr).
      assert (drop (current s - 1) source
              = "-"%char :: peek source s :: w ++ r) as Hd'.
      { rewrite Hd. f_equal. rewrite (drop_S _ _ _ Hpk). by rewrite Hwr. }
      pose proof (scanToken_negative_run source s (peek source s) w r Hdig Hpos Hd' Hw Hr)
        as E.
      unfold scanToken in E. simpl in E. unfold match_ in E.
      apply isAtEnd_false in Hlt as He. rewrite He in E. simpl in E.
      unfold at_ in E at 1. rewrite Hpk in E. simpl in E.
      destruct (Ascii.eqb_spec (peek source s) ">") as [E'|_];
        [rewrite E' in Hdig; discriminate Hdig|].
      simpl in E. rewrite Hdig in E. rewrite E in Hs. injection Hs as <-.
      eexists. split; [done|]. unfold well_formed. simpl.
      exists (peek source s), w. split; [by constructor|by right].
    + intros [= <-]. by apply Hsp.
  - (* digits *)
    destruct (isDigit c) eqn:Hdig.
    + intros Hs. right.
      destruct (run_split isDigit (drop (current s) source)) as (w & r & Hwr & Hw & Hr).
      rewrite Hwr in Hd.
      pose proof (scanToken_number_run source s c w r Hdig Hpos Hd Hw Hr) as E.
      unfold scanToken in E.
      repeat match type of E with
      | context [Ascii.eqb c ?x] =>
          destruct (Ascii.eqb_spec c x) as [?|_] in E; [congruence|]
      end.
      rewrite Hdig in E. rewrite E in Hs. injection Hs as <-.
      eexists. split; [done|]. unfold well_formed. simpl.
      exists c, w. split; [by constructor|by left].
    + destruct (isAlpha c) eqn:Halpha; [|intros [= <-]; by left].
      intros Hs. right.
      destruct (run_split isAlphaNumeric (drop (current s) source))
        as (w & r & Hwr & Hw & Hr).
      rewrite Hwr in Hd.
      pose proof (scanToken_identifier_run source s c w r Halpha Hpos Hd Hw Hr) as E.
      simpl in E. unfold scanToken in E.
      repeat match type of E with
      | context [Ascii.eqb c ?x] =>
          destruct (Ascii.eqb_spec c x) as [?|_] in E; [congruence|]
      end.
      rewrite Hdig, Halpha in E. rewrite E in Hs. injection Hs as <-.
      eexists. split; [done|]. apply well_formed_word. by exists c, w.
Qed.

End LexerShape.

Section LexerShape2.
Variable source : list ascii.

Lemma scan_loop_well_formed n : ∀ s s',
  scan_loop source n s = Ok s' →
  Forall well_formed (tokens s) → Forall well_formed (tokens s').
Proof.
  induction n as [|n IH]; intros s s'; simpl; [done|].
  destruct (isAtEnd source s); [by intros [= <-]|].
  destruct (skipWhitespace_run source s) as (s1 & -> & Ht & _). simpl.
  destruct (isAtEnd source s1) eqn:He; [intros [= <-]; by rewrite Ht|].
  simpl. intros H Hwf.
  destruct (scanToken source (at_ source (current s1)) (set_current (S (current s1)) s1))
    as [s2| |] eqn:Hs2; [simpl in H|done..].
  apply isAtEnd_false in He.
  apply scanToken_well_formed in Hs2 as [E|(t & E & Hwt)]; simpl; [| |lia|].
  - apply (IH _ _ H). simpl in E. by rewrite E, Ht.
  - apply (IH _ _ H). simpl in E. rewrite E, Ht. apply Forall_app. by split; [|constructor].
  - rewrite Nat.sub_0_r. by apply at_lookup.
Qed.

Lemma scanTokens_well_formed s :
  scanTokens source = Ok s → Forall well_formed (tokens s).
Proof.
  unfold scanTokens. intros H.
  destruct (scan_loop source (fuel source) init) as [s1| |] eqn:Hs1; [|done..].
  injection H as <-. simpl.
  apply Forall_app. split; [|by constructor].
  apply (scan_loop_well_formed _ _ _ Hs1). constructor.
Qed.

End LexerShape2.

(** X5 (lexemes fit their types).  In every token vector the scanner returns,
    the lexeme of a token fits its type: a punctuation token is spelled the
    one way its type is spelled, a NUMBER is a run of digits after an
    optional minus sign, a STRING_LITERAL holds no quote, the end-of-input
    token is empty, and every other token is a word (a letter or underscore,
    then letters, digits and underscores) that [keyword] maps to the type of
    the token. *)
Theorem tokens_well_formed (source : list ascii) (s : State) :
  scanTokens source = Ok s → Forall well_formed (tokens s).
Proof. apply scanTokens_well_formed. Qed.

Lemma tokens_well_formed_witness :
  Forall well_formed
    [mkToken TOK_IDENTIFIER "x" 1; mkToken TOK_LESS_EQUAL "<=" 1;
     mkToken TOK_NUMBER "-1" 1; mkToken TOK_EOF EmptyString 1].
Proof.
  apply (tokens_well_formed (bytes "x <= -1")
           (mkState 7 1 [mkToken TOK_IDENTIFIER "x" 1; mkToken TOK_LESS_EQUAL "<=" 1;
                         mkToken TOK_NUMBER "-1" 1; mkToken TOK_EOF EmptyString 1] [])).
  reflexivity.
Defined.

(** X6 (the only error of the scanner).  [scanTokens] throws only the
    unterminated-string error, and only on a source that holds a quote; on a
    source without a quote it returns a token vector. *)
Theorem scanner_aborts_on_string_only (source : list ascii) :
  (∀ msg, scanTokens source = Throw msg →
     QUOTE ∈ source ∧ ∃ ln, msg = unterminated ln)
  ∧ (QUOTE ∉ source → ∃ s, scanTokens source = Ok s).
Proof.
  split.
  - intros msg H. split; [by apply scanTokens_throw in H|].
    destruct (scanTokens_spec source) as [[ln E]|(s & toks & E & _)]; [|congruence].
    exists ln. congruence.
  - intros Hq.
    destruct (scanTokens_spec source) as [[ln E]|(s & toks & E & _)]; [|by exists s].
    by apply scanTokens_throw in E.
Qed.

Section LexerWalkFacts.
Variable source : list ascii.

Lemma head_drop_lookup (i : nat) : head (drop i source) = source !! i.
Proof. rewrite head_lookup, lookup_drop. f_equal. lia. Qed.

(** One byte of the input read. *)
Lemma walk_step m cur ln err k c :
  source !! cur = Some c →
  walk_at source m cur ln err k
  = walk_at source (next_mode m c (source !! S cur)) (S cur)
      (if Ascii.eqb c NL then S ln else ln)
      (err ++ match m, next_mode m c (source !! S cur) with
              | Code, Code => if noise c (source !! S cur) then [unexpected ln c] else []
              | _, _ => []
              end)
      (k + match m with
           | Code => if minus_site c (source !! S cur) then 1 else 0
           | _ => 0
           end).
Proof.
  intros H. unfold walk_at. rewrite (drop_S _ _ _ H). simpl.
  rewrite head_drop_lookup, <- app_assoc. f_equal; [f_equal|lia].
  destruct (Ascii.eqb c NL); lia.
Qed.

Lemma walk_at_nil m cur ln err k :
  walk_at source m cur ln (err ++ []) (k + 0) = walk_at source m cur ln err k.
Proof. by rewrite app_nil_r, Nat.add_0_r. Qed.

Lemma walk_end m cur ln err k :
  length source ≤ cur →
  walk_at source m cur ln err k
  = (match m with Text => true | _ => false end, err, ln, k).
Proof.
  intros H. unfold walk_at. rewrite drop_ge by done. simpl.
  by rewrite app_nil_r, !Nat.add_0_r.
Qed.

Lemma walk_quiet cur ln err k c :
  source !! cur = Some c → quiet c → c ≠ NL →
  walk_at source Code cur ln err k = walk_at source Code (S cur) ln err k.
Proof.
  intros H Hq Hn. rewrite (walk_step _ _ _ _ _ c H).
  destruct (Hq (source !! S cur)) as (-> & -> & ->).
  destruct (Ascii.eqb_spec c NL) as [?|_]; [done|]. by rewrite walk_at_nil.
Qed.

Lemma quiet_alnum c : isAlphaNumeric c = true → quiet c ∧ c ≠ NL.
Proof.
  intros H. split; [|by intros ->].
  intros next. unfold next_mode, noise.
  destruct (Ascii.eqb_spec c QUOTE) as [->|_]; [done|].
  destruct (Ascii.eqb_spec c "/") as [->|_]; [done|].
  destruct (Ascii.eqb_spec c "!") as [->|_]; [done|].
  split; [done|]. split.
  - apply bool_decide_eq_false_2. intros [(_ & Hd & Ha) _].
    unfold isAlphaNumeric in H. by rewrite Hd, Ha in H.
  - unfold minus_site. by destruct (Ascii.eqb_spec c "-") as [->|_].
Qed.

Lemma quiet_blank c : blank c → quiet c.
Proof.
  unfold blank. intros H next.
  repeat (apply elem_of_cons in H as [->|H]; [by vm_compute|]).
  by apply elem_of_nil in H.
Qed.

Lemma quiet_punct c :
  c ∈ [ "("; ")"; "{"; "}"; "["; "]"; ","; ";"; ":"; "+"; "="; "<"; ">" ]%char →
  quiet c ∧ c ≠ NL.
Proof.
  intros H.
  repeat (apply elem_of_cons in H as [->|H]; [split; [intros next; by vm_compute|done]|]).
  by apply elem_of_nil in H.
Qed.

Lemma match_lookup expected s :
  match_ source expected s
  = if bool_decide (source !! current s = Some expected)
    then (true, set_current (S (current s)) s) else (false, s).
Proof.
  unfold match_. destruct (isAtEnd source s) eqn:He; simpl.
  - apply isAtEnd_true in He. rewrite lookup_ge_None_2 by done.
    by rewrite bool_decide_eq_false_2.
  - apply isAtEnd_false in He. rewrite (at_lookup source _ He).
    destruct (Ascii.eqb_spec (at_ source (current s)) expected) as [->|E]; simpl.
    + by rewrite bool_decide_eq_true_2.
    + rewrite bool_decide_eq_false_2; [done|congruence].
Qed.

Lemma peekNext_lookup s c :
  peekNext source s = c → c ≠ NUL → source !! S (current s) = Some c.
Proof.
  unfold peekNext. destruct (length source <=? current s + 1) eqn:E; [congruence|].
  apply Nat.leb_gt in E. intros <- _. replace (current s + 1) with (S (current s)) by lia.
  apply at_lookup. lia.
Qed.

Lemma lookup_peekNext s c :
  source !! S (current s) = Some c → peekNext source s = c.
Proof.
  intros H. unfold peekNext. apply lookup_lt_Some in H as Hlt.
  destruct (Nat.leb_spec (length source) (current s + 1)) as [?|_]; [lia|].
  replace (current s + 1) with (S (current s)) by lia. unfold at_. by rewrite H.
Qed.

Lemma peek_lookup s c : source !! current s = Some c → peek source s = c.
Proof.
  intros H. apply lookup_lt_Some in H as Hlt. rewrite peek_in by done.
  unfold at_. by rewrite H.
Qed.

(** [skipWhitespace] reads blanks, newlines and comments only, and stops in
    front of a byte that is none of them. *)
Lemma skipWhitespace_walk n : ∀ s,
  length source - current s < n →
  ∃ s', skipWhitespace_loop source n s = Ok s'
    ∧ walk source Code s' = walk source Code s ∧ current s ≤ current s'
    ∧ ¬ blank (peek source s')
    ∧ ¬ (peek source s' = "/"%char ∧ peekNext source s' = "/"%char).
Proof.
  induction n as [|n IH]; intros s Hn; [lia|]. simpl.
  destruct (decide (current s < length source)) as [Hlt|Hge]; cycle 1.
  { rewrite peek_end by lia. simpl. exists s. rewrite peek_end by lia.
    repeat split; [lia| |by intros [? _]].
    unfold blank. intros H. repeat (apply elem_of_cons in H as [?|H]; [done|]).
    by apply elem_of_nil in H. }
  pose proof (at_lookup source _ Hlt) as Hc. rewrite (peek_lookup s _ Hc).
  set (c := at_ source (current s)) in *.
  assert (∀ s1, current s1 = S (current s) →
            walk source Code s1 = walk source Code s →
            ∃ s', skipWhitespace_loop source n s1 = Ok s'
              ∧ walk source Code s' = walk source Code s ∧ current s ≤ current s'
              ∧ ¬ blank (peek source s')
              ∧ ¬ (peek source s' = "/"%char ∧ peekNext source s' = "/"%char)) as Hnext.
  { intros s1 Hcur Hw. destruct (IH s1) as (s' & E & Hw' & Hle & Hrest); [lia|].
    exists s'. split; [done|]. split; [congruence|]. split; [lia|done]. }
  assert (blank c → c ≠ NL →
          walk source Code (advance_ source s) = walk source Code s) as Hblank.
  { intros Hb Hnl. unfold walk. simpl. symmetry.
    apply (walk_quiet _ _ _ _ c); [done|by apply quiet_blank|done]. }
  destruct (Ascii.eqb_spec c " ") as [E|N1]; simpl.
  { apply Hnext; [done|]. apply Hblank; [|by rewrite E]. rewrite E.
    unfold blank. repeat first [apply list_elem_of_here | apply list_elem_of_further]. }
  destruct (Ascii.eqb_spec c CR) as [E|N2]; simpl.
  { apply Hnext; [done|]. apply Hblank; [|by rewrite E]. rewrite E.
    unfold blank. repeat first [apply list_elem_of_here | apply list_elem_of_further]. }
  destruct (Ascii.eqb_spec c TAB) as [E|N3]; simpl.
  { apply Hnext; [done|]. apply Hblank; [|by rewrite E]. rewrite E.
    unfold blank. repeat first [apply list_elem_of_here | apply list_elem_of_further]. }
  destruct (Ascii.eqb_spec c NL) as [E|N4]; simpl.
  { apply Hnext; [done|]. unfold walk. simpl. rewrite (walk_step _ _ _ _ _ c Hc).
    rewrite E. simpl. by rewrite walk_at_nil. }
  assert (¬ blank c) as Hnb.
  { unfold blank. intros H. repeat (apply elem_of_cons in H as [?|H]; [done|]).
    by apply elem_of_nil in H. }
  destruct (Ascii.eqb_spec c "/") as [E|N5]; cycle 1.
  { exists s. rewrite (peek_lookup s _ Hc). do 2 (split; [done|]). split; [lia|]. split; [done|]. by intros [? _]. }
  destruct (Ascii.eqb_spec (peekNext source s) "/") as [E2|N6]; cycle 1.
  { exists s. rewrite (peek_lookup s _ Hc). do 2 (split; [done|]). split; [lia|]. split; [done|]. by intros [_ ?]. }
  apply peekNext_lookup in E2; [|done].
  unfold skipComment, fuel. simpl.
  rewrite (peek_lookup s _ Hc), E. simpl.
  apply isAtEnd_false in Hlt as He. rewrite He. simpl.
  destruct (while_rule source
              (λ s', walk source Comment s' = walk source Code s ∧ current s < current s')
              (λ s, negb (Ascii.eqb (peek source s) NL) && negb (isAtEnd source s))
              (advance_ source)) with (n := length source) (s := advance_ source s)
    as (s1 & -> & [Hw1 Hlt1] & Hc1).
  - intros s' [Hw Hl] Hcond. apply andb_true_iff in Hcond as [Hp Hnend].
    apply negb_true_iff in Hnend. apply isAtEnd_false in Hnend.
    split; [done|]. split; [done|]. split; [|simpl; lia].
    rewrite <- Hw. unfold walk. simpl. symmetry.
    pose proof (at_lookup source _ Hnend) as Hc'.
    rewrite (walk_step _ _ _ _ _ _ Hc'). rewrite (peek_lookup s' _ Hc') in Hp.
    apply negb_true_iff in Hp. simpl. rewrite Hp. by rewrite walk_at_nil.
  - split; [|simpl; lia]. unfold walk. simpl. symmetry.
    rewrite (walk_step _ _ _ _ _ c Hc), E2, E. simpl. by rewrite walk_at_nil.
  - simpl. lia.
  - simpl.
    assert (walk source Code s1 = walk source Code s) as Hw.
    { rewrite <- Hw1. unfold walk.
      destruct (isAtEnd source s1) eqn:He1.
      - apply isAtEnd_true in He1. by rewrite !walk_end.
      - rewrite andb_true_r in Hc1. apply negb_false_iff in Hc1.
        apply isAtEnd_false in He1. pose proof (at_lookup source _ He1) as Hc'.
        rewrite (peek_lookup s1 _ Hc') in Hc1. apply Ascii.eqb_eq in Hc1.
        rewrite Hc1 in Hc'.
        rewrite (walk_step Code _ _ _ _ _ Hc'), (walk_step Comment _ _ _ _ _ Hc'). done. }
    destruct (IH s1) as (s' & E' & Hw' & Hle & Hrest); [lia|].
    exists s'. split; [done|]. split; [congruence|]. split; [lia|done].
Qed.

(** A run of letters and digits is read without a diagnostic. *)
Lemma word_walk (p : ascii → bool) s :
  (∀ c, p c = true → quiet c ∧ c ≠ NL) → p NUL = false →
  ∃ s', while (fuel source) (λ s, p (peek source s)) (advance_ source) s = Ok s'
    ∧ walk source Code s' = walk source Code s ∧ current s ≤ current s'.
Proof.
  intros Hp Hnul.
  destruct (while_rule source
              (λ s', walk source Code s' = walk source Code s ∧ current s ≤ current s')
              (λ s, p (peek source s)) (advance_ source)) with (n := fuel source) (s := s)
    as (s1 & E & [Hw Hle] & _).
  - intros s' [Hw Hle] Hc.
    destruct (decide (current s' < length source)) as [Hlt|Hge];
      [|rewrite peek_end in Hc by lia; congruence].
    pose proof (at_lookup source _ Hlt) as Hc'. rewrite (peek_lookup s' _ Hc') in Hc.
    destruct (Hp _ Hc) as [Hq Hnl].
    split; [done|]. split; [done|]. split; [|simpl; lia].
    rewrite <- Hw. unfold walk. simpl. symmetry. by apply (walk_quiet _ _ _ _ _ Hc').
  - done.
  - unfold fuel. lia.
  - by exists s1.
Qed.

Lemma minus_tokens_app toks toks' :
  minus_tokens (toks ++ toks') = minus_tokens toks + minus_tokens toks'.
Proof. unfold minus_tokens. by rewrite filter_app, length_app. Qed.

(** A token that is no MINUS leaves the count as it is. *)
Lemma walk_token ty lx m s' w :
  ty ≠ TOK_MINUS →
  walk source m s' = w → walk source m (addToken ty lx s') = w.
Proof.
  intros Hty <-. unfold walk. simpl. rewrite minus_tokens_app.
  unfold minus_tokens at 2. rewrite filter_cons, filter_nil. simpl.
  case_decide; [done|]. simpl. by rewrite Nat.add_0_r.
Qed.

Lemma keyword_no_minus text : keyword text ≠ TOK_MINUS.
Proof.
  unfold keyword.
  repeat match goal with |- context [if ?b then _ else _] => destruct b end; done.
Qed.

(** A string literal is read to its closing quote, or to the end of the
    input when it has none. *)
Lemma stringLiteral_walk s :
  match stringLiteral source s with
  | Ok s' => walk source Code s' = walk source Text s ∧ current s < current s'
  | Throw msg => ∃ errs ln k, walk source Text s = (true, errs, ln, k) ∧ msg = unterminated ln
  | OutOfFuel => False
  end.
Proof.
  unfold stringLiteral.
  destruct (while_rule source
              (λ s', walk source Text s' = walk source Text s ∧ current s ≤ current s')
              (λ s, negb (Ascii.eqb (peek source s) QUOTE) && negb (isAtEnd source s))
              (λ s, advance_ source (if Ascii.eqb (peek source s) NL then incr_line s else s)))
    with (n := fuel source) (s := s) as (s1 & -> & [Hw Hle] & Hc).
  - intros s' [Hw Hl] Hcond. apply andb_true_iff in Hcond as [Hp Hnend].
    apply negb_true_iff in Hnend. apply isAtEnd_false in Hnend.
    pose proof (at_lookup source _ Hnend) as Hc'. rewrite (peek_lookup s' _ Hc') in *.
    apply negb_true_iff in Hp.
    split; [done|]. split; [by destruct (Ascii.eqb _ NL)|].
    split; [|destruct (Ascii.eqb _ NL); simpl; lia].
    rewrite <- Hw. unfold walk. rewrite (walk_step Text _ _ _ _ _ Hc'). simpl. rewrite Hp.
    rewrite walk_at_nil. by destruct (Ascii.eqb _ NL).
  - done.
  - unfold fuel. lia.
  - simpl. destruct (isAtEnd source s1) eqn:He.
    + exists (cerr s1), (line s1), (minus_tokens (tokens s1)). split; [|done]. rewrite <- Hw.
      apply isAtEnd_true in He. unfold walk. by rewrite walk_end.
    + rewrite andb_true_r in Hc. apply negb_false_iff, Ascii.eqb_eq in Hc.
      apply isAtEnd_false in He. pose proof (at_lookup source _ He) as Hc'.
      rewrite (peek_lookup s1 _ Hc') in Hc. rewrite Hc in Hc'.
      split; [|simpl; lia]. rewrite <- Hw. apply walk_token; [done|].
      unfold walk. simpl.
      rewrite (walk_step Text _ _ _ _ _ Hc'). simpl. by rewrite walk_at_nil.
Qed.


Lemma walk_one s c :
  source !! current s = Some c → quiet c ∧ c ≠ NL →
  walk source Code (set_current (S (current s)) s) = walk source Code s.
Proof.
  intros Hc [Hq Hn]. unfold walk. simpl. symmetry. by apply (walk_quiet _ _ _ _ c).
Qed.

Lemma walk_two s c d :
  source !! current s = Some c → quiet c ∧ c ≠ NL →
  source !! S (current s) = Some d → quiet d ∧ d ≠ NL →
  walk source Code (set_current (S (S (current s))) s) = walk source Code s.
Proof.
  intros Hc [Hq Hn] Hd [Hq' Hn']. unfold walk. simpl. symmetry.
  rewrite (walk_quiet _ _ _ _ c) by done. by apply (walk_quiet _ _ _ _ d).
Qed.

Ltac in_list := repeat first [apply list_elem_of_here | apply list_elem_of_further].

Ltac punct_one Hone :=
  split; [apply walk_token; [done|apply (Hone _ eq_refl); in_list]|simpl; lia].

Ltac punct_two Hone Htwo :=
  let Hm := fresh "Hm" in
  rewrite match_lookup; case_bool_decide as Hm;
  [ split; [apply walk_token; [done|apply (Htwo _ _ eq_refl Hm); in_list]|simpl; lia]
  | punct_one Hone ].

(** One case of the switch: the token (or the diagnostic) read, or the
    string literal found open. *)
Lemma scanToken_walk s c :
  source !! current s = Some c → ¬ blank c →
  ¬ (c = "/"%char ∧ source !! S (current s) = Some "/"%char) →
  match scanToken source c (set_current (S (current s)) s) with
  | Ok s' => walk source Code s' = walk source Code s ∧ current s < current s'
  | Throw msg => ∃ errs ln k, walk source Code s = (true, errs, ln, k) ∧ msg = unterminated ln
  | OutOfFuel => False
  end.
Proof.
  intros Hc Hb Hslash. set (s2 := set_current (S (current s)) s).
  assert (∀ x, c = x →
    x ∈ [ "("; ")"; "{"; "}"; "["; "]"; ","; ";"; ":"; "+"; "="; "<"; ">" ]%char →
    walk source Code s2 = walk source Code s) as Hone.
  { intros x <- Hx. apply (walk_one s c Hc). by apply quiet_punct. }
  assert (∀ x d, c = x → source !! current s2 = Some d →
    x ∈ [ "("; ")"; "{"; "}"; "["; "]"; ","; ";"; ":"; "+"; "="; "<"; ">" ]%char →
    d ∈ [ "("; ")"; "{"; "}"; "["; "]"; ","; ";"; ":"; "+"; "="; "<"; ">" ]%char →
    walk source Code (set_current (S (current s2)) s2) = walk source Code s) as Htwo.
  { intros x d <- Hs2 Hx Hd. apply (walk_two s c d Hc); [by apply quiet_punct|done|].
    by apply quiet_punct. }
  assert (∀ (p : ascii → bool) (ty : State → TokenType) (lx : State → string),
    (∀ s, ty s ≠ TOK_MINUS) →
    (∀ c, p c = true → isAlphaNumeric c = true) →
    walk source Code s2 = walk source Code s →
    match res_bind (while (fuel source) (λ s, p (peek source s)) (advance_ source) s2)
            (λ s, Ok (addToken (ty s) (lx s) s)) with
    | Ok s' => walk source Code s' = walk source Code s ∧ current s < current s'
    | Throw msg => ∃ errs ln k, walk source Code s = (true, errs, ln, k) ∧ msg = unterminated ln
    | OutOfFuel => False
    end) as Hword.
  { intros p ty lx Hty Hp Hw.
    destruct (word_walk p s2) as (s3 & -> & Hw3 & Hle).
    - intros d Hd. apply quiet_alnum. by apply Hp.
    - destruct (p NUL) eqn:E; [|done]. by apply Hp in E.
    - simpl. split; [apply walk_token; [done|congruence]|]. simpl in Hle. lia. }
  unfold scanToken.
  destruct (Ascii.eqb_spec c "(") as [->|N1]; [punct_one Hone|].
  destruct (Ascii.eqb_spec c ")") as [->|N2]; [punct_one Hone|].
  destruct (Ascii.eqb_spec c "{") as [->|N3]; [punct_one Hone|].
  destruct (Ascii.eqb_spec c "}") as [->|N4]; [punct_one Hone|].
  destruct (Ascii.eqb_spec c "[") as [->|N5]; [punct_one Hone|].
  destruct (Ascii.eqb_spec c "]") as [->|N6]; [punct_one Hone|].
  destruct (Ascii.eqb_spec c ",") as [->|N7]; [punct_one Hone|].
  destruct (Ascii.eqb_spec c ";") as [->|N8]; [punct_one Hone|].
  destruct (Ascii.eqb_spec c ":") as [->|N9]; [punct_one Hone|].
  destruct (Ascii.eqb_spec c "+") as [->|N10]; [punct_one Hone|].
  destruct (Ascii.eqb_spec c QUOTE) as [->|N11].
  { pose proof (stringLiteral_walk s2) as H.
    assert (walk source Text s2 = walk source Code s) as Hw.
    { unfold walk. simpl. rewrite (walk_step Code _ _ _ _ _ Hc). simpl.
      by rewrite walk_at_nil. }
    rewrite Hw in H. destruct (stringLiteral source s2); [|done..].
    destruct H as [? H]. split; [done|]. simpl in H. lia. }
  destruct (Ascii.eqb_spec c "=") as [->|N12]; [punct_two Hone Htwo|].
  destruct (Ascii.eqb_spec c "!") as [->|N13].
  { rewrite match_lookup. case_bool_decide as Hm; simpl in Hm.
    - split; [|simpl; lia]. apply walk_token; [done|]. unfold walk. simpl. symmetry.
      rewrite (walk_step Code _ _ _ _ _ Hc), Hm. simpl. rewrite walk_at_nil.
      apply (walk_quiet _ _ _ _ "="%char); [done| |done].
      apply quiet_punct. in_list.
    - split; [|simpl; lia]. unfold walk. simpl. symmetry.
      rewrite (walk_step Code _ _ _ _ _ Hc). simpl. unfold noise. simpl.
      by rewrite bool_decide_eq_false_2, Nat.add_0_r. }
  destruct (Ascii.eqb_spec c "<") as [->|N14]; [punct_two Hone Htwo|].
  destruct (Ascii.eqb_spec c ">") as [->|N15]; [punct_two Hone Htwo|].
  destruct (Ascii.eqb_spec c "-") as [->|N16].
  { assert (walk source Code s2
            = walk_at source Code (S (current s)) (line s) (cerr s)
                (minus_tokens (tokens s))) as Hs2 by done.
    assert (walk source Code s
            = walk_at source Code (S (current s)) (line s) (cerr s)
                (minus_tokens (tokens s)
                 + if minus_site "-" (source !! S (current s)) then 1 else 0)) as Hs.
    { unfold walk. rewrite (walk_step Code _ _ _ _ _ Hc). simpl.
      by rewrite app_nil_r. }
    rewrite match_lookup. case_bool_decide as Hm; simpl in Hm.
    - split; [|simpl; lia]. apply walk_token; [done|]. rewrite Hs, Hm. simpl.
      rewrite Nat.add_0_r. unfold walk. simpl. symmetry.
      apply (walk_quiet _ _ _ _ ">"%char); [done| |done].
      apply quiet_punct. in_list.
    - destruct (isDigit (peek source s2)) eqn:Hd.
      + assert (∃ d, source !! S (current s) = Some d ∧ isDigit d = true) as (d & Hd1 & Hd2).
        { destruct (decide (current s2 < length source)) as [Hlt|Hge].
          - exists (at_ source (current s2)). split; [by apply at_lookup|].
            by rewrite peek_in in Hd.
          - rewrite peek_end in Hd by lia. done. }
        apply (Hword isDigit (λ _, TOK_NUMBER)); [done| |].
        * intros x Hx. unfold isAlphaNumeric. rewrite Hx. apply orb_true_r.
        * rewrite Hs2, Hs, Hd1. unfold minus_site. rewrite Hd2. simpl.
          rewrite orb_true_r. simpl. by rewrite Nat.add_0_r.
      + split; [|simpl; lia]. rewrite Hs. unfold walk. simpl.
        rewrite minus_tokens_app. f_equal.
        assert (minus_site "-" (source !! S (current s)) = true) as ->; [|done].
        unfold minus_site. simpl. destruct (source !! S (current s)) as [d|] eqn:Ed; [|done].
        rewrite (peek_lookup s2 d Ed) in Hd. rewrite Hd, orb_false_r.
        destruct (Ascii.eqb_spec d ">") as [->|_]; [done|done]. }
  destruct (isDigit c) eqn:Hd.
  { apply (Hword isDigit (λ _, TOK_NUMBER)); [done|..].
    - intros d Hd'. unfold isAlphaNumeric. rewrite Hd'. apply orb_true_r.
    - apply (walk_one s c Hc), quiet_alnum. unfold isAlphaNumeric. rewrite Hd.
      apply orb_true_r. }
  destruct (isAlpha c) eqn:Ha.
  { apply (Hword isAlphaNumeric); [intros ?; apply keyword_no_minus|done|].
    apply (walk_one s c Hc), quiet_alnum. unfold isAlphaNumeric. by rewrite Ha. }
  assert (stray c) as Hstray.
  { split; [|done]. intros H.
    repeat (apply elem_of_cons in H as [?|H]; [done|]). by apply elem_of_nil in H. }
  split; [|simpl; lia]. unfold walk. simpl. symmetry.
  rewrite (walk_step Code _ _ _ _ _ Hc).
  assert (next_mode Code c (source !! S (current s)) = Code) as ->.
  { unfold next_mode. destruct (Ascii.eqb_spec c QUOTE) as [?|_]; [done|].
    destruct (Ascii.eqb_spec c "/") as [E|_]; [|done]. simpl.
    rewrite bool_decide_eq_false_2; [done|]. intros E'. by apply Hslash. }
  assert (noise c (source !! S (current s)) = true) as ->.
  { unfold noise. destruct (Ascii.eqb_spec c "!") as [?|_]; [done|].
    by apply bool_decide_eq_true_2. }
  assert (minus_site c (source !! S (current s)) = false) as ->.
  { unfold minus_site. by destruct (Ascii.eqb_spec c "-"). }
  destruct (Ascii.eqb_spec c NL) as [E|_]; [|by rewrite Nat.add_0_r].
  exfalso. apply Hb. rewrite E. unfold blank. in_list.
Qed.

(** The scan loop reads the input to its end, or to the string literal that
    is left open. *)
Lemma scan_loop_walk n : ∀ s,
  length source - current s < n →
  match scan_loop source n s with
  | Ok s' => walk source Code s = (false, cerr s', line s', minus_tokens (tokens s'))
  | Throw msg => ∃ errs ln k, walk source Code s = (true, errs, ln, k) ∧ msg = unterminated ln
  | OutOfFuel => False
  end.
Proof.
  induction n as [|n IH]; intros s Hn; [lia|]. simpl.
  destruct (isAtEnd source s) eqn:He.
  { apply isAtEnd_true in He. unfold walk. by rewrite walk_end. }
  destruct (skipWhitespace_walk (fuel source) s) as (s1 & E & Hw1 & Hle & Hnb & Hns).
  { unfold fuel. lia. }
  unfold skipWhitespace. rewrite E. simpl. rewrite <- Hw1.
  destruct (isAtEnd source s1) eqn:He1.
  { apply isAtEnd_true in He1. unfold walk. by rewrite walk_end. }
  apply isAtEnd_false in He1. pose proof (at_lookup source _ He1) as Hc.
  rewrite (peek_lookup s1 _ Hc) in Hnb, Hns. unfold advance.
  pose proof (scanToken_walk s1 _ Hc Hnb) as H.
  destruct (scanToken source (at_ source (current s1)) (set_current (S (current s1)) s1))
    as [s2|msg|]; simpl.
  - destruct H as [Hw2 Hlt].
    { intros [E1 E2]. apply Hns. split; [done|]. by apply lookup_peekNext. }
    rewrite <- Hw2. apply IH. lia.
  - apply H. intros [E1 E2]. apply Hns. split; [done|]. by apply lookup_peekNext.
  - apply H. intros [E1 E2]. apply Hns. split; [done|]. by apply lookup_peekNext.
Qed.

(** [scanTokens] emits one MINUS token for each minus operator of the
    input. *)
Lemma scanTokens_minus s :
  scanTokens source = Ok s → minus_tokens (tokens s) = minus_sites Code source.
Proof.
  unfold scanTokens. pose proof (scan_loop_walk (fuel source) init) as H.
  destruct (scan_loop source (fuel source) init) as [s'|msg|]; simpl; [|done..].
  intros [= <-]. simpl. specialize (H ltac:(unfold fuel; simpl; lia)).
  injection H as _ _ _ Hk. rewrite minus_tokens_app. unfold minus_tokens at 2.
  rewrite filter_cons, filter_nil. simpl in *. rewrite drop_0 in Hk. lia.
Qed.

End LexerWalkFacts.

(** C7 (scanner totality).  Whether an input holds an unterminated string
    literal is read off the input: a quote in code opens a literal, the next
    quote closes it, and two slashes in code open a comment that the end of
    the line closes ([open_string]).  For every input without one, of ASCII
    bytes or not, [scanTokens] returns: every loop ends within its fuel and
    nothing throws.  The token vector ends with the end-of-input token, on
    the line of the end of the input, and holds no other one.  The
    diagnostic stream holds, in order, exactly one message for each
    unexpected character of the input, with its line ([diagnostics]): for each
    byte in code that starts no token and is not white space, and for each
    [!] that no [=] follows; the scan goes on behind each of them.  An input
    that does hold an unterminated string literal makes [scanTokens] throw
    the error that carries the line of the end of the input. *)
Theorem scanner_total (source : list ascii) :
  (open_string Code source = false →
   ∃ s toks,
     scanTokens source = Ok s
     ∧ tokens s = toks ++ [mkToken TOK_EOF EmptyString (1 + count_nl source)]
     ∧ Forall (λ t, type t ≠ TOK_EOF) toks
     ∧ cerr s = diagnostics Code 1 source)
  ∧ (open_string Code source = true →
     scanTokens source = Throw (unterminated (1 + count_nl source))).
Proof.
  pose proof (scan_loop_walk source (fuel source) init) as H.
  assert (walk source Code init
          = (open_string Code source, diagnostics Code 1 source, 1 + count_nl source,
             minus_sites Code source)) as Hw
    by done.
  rewrite Hw in H. clear Hw.
  pose proof (scanTokens_spec source) as Hspec. unfold scanTokens in *.
  destruct (scan_loop source (fuel source) init) as [s|msg|]; simpl in *.
  - specialize (H ltac:(unfold fuel; lia)). injection H as Ho Hd Hl _.
    split; [|congruence]. intros _.
    destruct Hspec as [[ln ?]|(s' & toks & [= <-] & Htoks & Hall)]; [done|].
    eexists _, toks. split; [done|]. split; [done|]. split; [|done].
    eapply Forall_impl; [exact Hall|]. by intros t [? _].
  - destruct H as (errs & ln & k & [= Ho Hd Hl _] & ->); [unfold fuel; lia|].
    split; [congruence|]. intros _. by rewrite Hl.
  - exfalso. apply H. unfold fuel. lia.
Qed.

Lemma scanner_total_witness :
  (∃ s toks,
     scanTokens stray_input = Ok s
     ∧ tokens s = toks ++ [mkToken TOK_EOF EmptyString 1]
     ∧ Forall (λ t, type t ≠ TOK_EOF) toks
     ∧ cerr s = ["Unexpected character at line 1: @"%string])
  ∧ (∃ s toks,
     scanTokens noisy_input = Ok s
     ∧ tokens s = toks ++ [mkToken TOK_EOF EmptyString 2]
     ∧ Forall (λ t, type t ≠ TOK_EOF) toks
     ∧ cerr s = ["Unexpected character at line 1: @"%string;
                 "Unexpected character at line 2: !"%string;
                 "Unexpected character at line 2: /"%string]).
Proof.
  split.
  - apply (proj1 (scanner_total stray_input)). vm_compute. reflexivity.
  - apply (proj1 (scanner_total noisy_input)). vm_compute. reflexivity.
Defined.

End LexerProofs.


(** ** Parser *)

Section ParserProofs.

Import Parser.

Lemma bind_Ok_inv {A B} (r : Res A) (k : A → Res B) (b : B) :
  res_bind r k = Ok b → ∃ a, r = Ok a ∧ k a = Ok b.
Proof. destruct r; simpl; [eauto|done|done]. Qed.

Lemma bind_fuel {A B} (r : Res A) (k : A → Res B) :
  r ≠ OutOfFuel → (∀ a, r = Ok a → k a ≠ OutOfFuel) → res_bind r k ≠ OutOfFuel.
Proof. destruct r; simpl; [eauto|done|done]. Qed.

Section ParserFacts.
Variable tokens : list Token.

Local Abbreviation at_ := (at_ tokens).
Local Abbreviation passed := (passed tokens).

Lemma passed_refl cur : passed cur cur.
Proof. split; [done|]. split; [lia|]. intros; lia. Qed.

Lemma passed_trans a b c : passed a b → passed b c → passed a c.
Proof.
  intros (H1 & H1' & H2) (H3 & H3' & H4). split; [lia|]. split; [lia|].
  intros i Hi Hi'. destruct (decide (i < b)); [apply H2|apply H4]; lia.
Qed.

Lemma not_eof_in_range i : type (at_ i) ≠ TOK_EOF → i < length tokens.
Proof.
  unfold Parser.at_. intros H. destruct (tokens !! i) eqn:E.
  - apply lookup_lt_is_Some; eauto.
  - done.
Qed.

Lemma check_true ty cur :
  check tokens ty cur = true →
  type (at_ cur) = ty ∧ ty ≠ TOK_EOF ∧ advance tokens cur = S cur ∧ cur < length tokens.
Proof.
  unfold check, advance, isAtEnd, peek.
  case_bool_decide as He; [done|]. intros H. apply bool_decide_eq_true in H.
  split; [done|]. split. { intros E. apply He. congruence. }
  split; [done|]. by apply not_eof_in_range.
Qed.

Lemma passed_check ty cur :
  check tokens ty cur = true → ty ≠ TOK_MINUS →
  passed cur (advance tokens cur) ∧ cur < advance tokens cur.
Proof.
  intros H Hty. apply check_true in H as (Ht & He & -> & Hlt).
  split; [|lia]. split; [lia|]. split; [lia|].
  intros i Hi Hi'. assert (i = cur) as -> by lia. rewrite Ht. done.
Qed.

Lemma match_inv ty cur m cur' :
  match_ tokens ty cur = (m, cur') → ty ≠ TOK_MINUS →
  if m then passed cur cur' ∧ cur < cur' else cur' = cur.
Proof.
  unfold match_. destruct (check tokens ty cur) eqn:Hc.
  - intros [= <- <-] Hty. by apply (passed_check ty).
  - by intros [= <- <-].
Qed.

Lemma consume_inv ty msg cur cur' :
  consume tokens ty msg cur = Ok cur' → ty ≠ TOK_MINUS →
  passed cur cur' ∧ cur < cur'.
Proof.
  unfold consume. destruct (check tokens ty cur) eqn:Hc; [|done].
  intros [= <-] Hty. by apply (passed_check ty).
Qed.

Lemma consume_fuel ty msg cur : consume tokens ty msg cur ≠ OutOfFuel.
Proof. unfold consume. by destruct (check tokens ty cur). Qed.

End ParserFacts.

#[local] Opaque match_ consume check advance.

(** Take the next step of a parser run recorded in [H]. *)
Ltac parser_step H :=
  lazymatch type of H with
  | (let '(_, _) := match_ ?tokens ?ty ?c in _) = _ =>
      let m := fresh "m" in let c' := fresh "c" in let Hm := fresh "Hm" in
      destruct (match_ tokens ty c) as [m c'] eqn:Hm;
      apply match_inv in Hm; [|discriminate];
      destruct m; [destruct Hm as [Hm ?]|subst c']
  | (let '(_, _) := (let '(_, _) := match_ ?tokens ?ty ?c in _) in _) = _ =>
      let m := fresh "m" in let c' := fresh "c" in let Hm := fresh "Hm" in
      destruct (match_ tokens ty c) as [m c'] eqn:Hm;
      apply match_inv in Hm; [|discriminate];
      destruct m; [destruct Hm as [Hm ?]|subst c']
  | res_bind (consume ?tokens ?ty ?msg ?c) _ = Ok _ =>
      let c' := fresh "c" in let Hc := fresh "Hc" in
      apply bind_Ok_inv in H as (c' & Hc & H);
      apply consume_inv in Hc as [Hc ?]; [|discriminate]
  | mbind _ _ = Ok _ => unfold mbind, Res_bind in H
  | res_bind (if ?b then _ else _) _ = Ok _ => destruct b
  | res_bind _ _ = Ok _ =>
      let x := fresh "x" in let Hx := fresh "Hx" in
      apply bind_Ok_inv in H as (x & Hx & H)
  | (let '(_, _) := ?p in _) = _ => destruct p
  | (if ?b then _ else _) = _ => destruct b eqn:?
  | Ok _ = Ok _ => injection H as ? ?; subst
  | Throw _ = Ok _ => discriminate H
  | OutOfFuel = Ok _ => discriminate H
  end.

Ltac parser_run H := repeat (parser_step H; try cbn [res_bind] in H).

Ltac parser_all :=
  repeat match goal with
  | H : _ = Ok _ |- _ => progress (parser_run H)
  end.

Ltac passed_chain :=
  repeat (eapply passed_trans; [eassumption|]); apply passed_refl.

Ltac passed_lt := unfold passed in *; lia.

Section ParserDescent.
Variable tokens : list Token.
Local Abbreviation passed := (passed tokens).

Lemma parseType_rec_inv n : ∀ cur t cur',
  parseType_rec tokens n cur = Ok (t, cur') → passed cur cur' ∧ cur < cur'.
Proof.
  induction n as [|n IH]; intros cur t cur' H; [done|]. simpl in H.
  parser_run H.
  - apply IH in Hx as [? ?]. split; [passed_chain|passed_lt].
  - done.
Qed.

Lemma parseType_inv cur t cur' :
  parseType tokens cur = Ok (t, cur') → passed cur cur' ∧ cur < cur'.
Proof. apply parseType_rec_inv. Qed.

Lemma parseType_rec_fuel n : ∀ cur,
  length tokens - cur < n → parseType_rec tokens n cur ≠ OutOfFuel.
Proof.
  induction n as [|n IH]; intros cur Hn; [lia|]. simpl.
  destruct (match_ tokens TOK_OPEN_BRACKET cur) as [m c] eqn:Hm.
  apply match_inv in Hm; [|done]. destruct m.
  - destruct Hm as [Hm Hlt]. apply bind_fuel; [apply consume_fuel|].
    intros c' Hc. apply consume_inv in Hc as [Hc Hlt']; [|done].
    apply bind_fuel; [apply IH; passed_lt|]. by intros [? ?] _.
  - subst c. destruct (match_ tokens TOK_TYPE cur) as [m c] eqn:Hm'. by destruct m.
Qed.

Lemma parseType_fuel cur : parseType tokens cur ≠ OutOfFuel.
Proof. apply parseType_rec_fuel. lia. Qed.

End ParserDescent.

#[local] Opaque parseType.

Section ParserDescent2.
Variable tokens : list Token.
Local Abbreviation passed := (passed tokens).
Local Abbreviation descends := (descends tokens).

(** Use the induction hypotheses on the calls a run has recorded. *)
Ltac use_IH IHp IHa IHb IHe IHc IHd :=
  repeat match goal with
  | H : parsePrimary _ _ _ = Ok _ |- _ => apply IHp in H as [? ?]
  | H : parseArgs _ _ _ _ = Ok _ |- _ => apply IHa in H as [? ?]
  | H : parseBlock _ _ _ _ = Ok _ |- _ => apply IHb in H
  | H : parseExpression _ _ _ = Ok _ |- _ => apply IHe in H as [? ?]
  | H : parseComparison _ _ _ = Ok _ |- _ => apply IHc in H as [? ?]
  | H : parseAddition _ _ _ = Ok _ |- _ => apply IHd in H as [? ?]
  | H : parseType _ _ = Ok _ |- _ => apply parseType_inv in H as [? ?]
  end.

Lemma descent_passed n : descends n.
Proof.
  induction n as [|n (IHp & IHa & IHb & IHe & IHc & IHd)]; [by repeat split|].
  split; [|split; [|split; [|split; [|split]]]]; intros * H; simpl in H; parser_all;
    use_IH IHp IHa IHb IHe IHc IHd;
    first [done | split; [passed_chain | passed_lt] | passed_chain].
Qed.

End ParserDescent2.

Lemma stoll_fuel str : Stoll.stoll str ≠ OutOfFuel.
Proof. unfold Stoll.stoll. repeat case_match; done. Qed.

Ltac use_descent D :=
  repeat match goal with
  | H : parsePrimary _ _ _ = Ok _ |- _ => apply D in H as [? ?]
  | H : parseArgs _ _ _ _ = Ok _ |- _ => apply D in H as [? ?]
  | H : parseBlock _ _ _ _ = Ok _ |- _ => apply D in H
  | H : parseExpression _ _ _ = Ok _ |- _ => apply D in H as [? ?]
  | H : parseComparison _ _ _ = Ok _ |- _ => apply D in H as [? ?]
  | H : parseAddition _ _ _ = Ok _ |- _ => apply D in H as [? ?]
  | H : parseType _ _ = Ok _ |- _ => apply parseType_inv in H as [? ?]
  | H : consume _ _ _ _ = Ok _ |- _ => apply consume_inv in H as [? ?]; [|discriminate]
  end.

Ltac fuel_step D :=
  lazymatch goal with
  | |- (let '(_, _) := match_ ?tokens ?ty ?c in _) ≠ OutOfFuel =>
      let m := fresh "m" in let c' := fresh "c" in let Hm := fresh "Hm" in
      destruct (match_ tokens ty c) as [m c'] eqn:Hm;
      apply match_inv in Hm; [|discriminate];
      destruct m; [destruct Hm as [Hm ?]|subst c']
  | |- (let '(_, _) := (let '(_, _) := match_ ?tokens ?ty ?c in _) in _) ≠ OutOfFuel =>
      let m := fresh "m" in let c' := fresh "c" in let Hm := fresh "Hm" in
      destruct (match_ tokens ty c) as [m c'] eqn:Hm;
      apply match_inv in Hm; [|discriminate];
      destruct m; [destruct Hm as [Hm ?]|subst c']
  | |- mbind _ _ ≠ OutOfFuel => unfold mbind, Res_bind
  | |- res_bind (if ?b then _ else _) _ ≠ OutOfFuel => destruct b
  | |- res_bind _ _ ≠ OutOfFuel =>
      apply bind_fuel;
      [| let a := fresh "a" in let Hx := fresh "Hx" in
         intros a Hx;
         lazymatch type of a with (_ * _)%type => destruct a | _ => idtac end;
         parser_all; use_descent D ]
  | |- (if ?b then _ else _) ≠ OutOfFuel => destruct b
  | |- (let '(_, _) := ?p in _) ≠ OutOfFuel => destruct p
  | |- consume _ _ _ _ ≠ OutOfFuel => apply consume_fuel
  | |- parseType _ _ ≠ OutOfFuel => apply parseType_fuel
  | |- Stoll.stoll _ ≠ OutOfFuel => apply stoll_fuel
  | |- Ok _ ≠ OutOfFuel => discriminate
  | |- Throw _ ≠ OutOfFuel => discriminate
  end; try cbn [res_bind].

Section ParserFuel.
Variable tokens : list Token.
Local Abbreviation passed := (passed tokens).
Local Abbreviation fueled := (fueled tokens).

Lemma descent_fueled n : fueled n.
Proof.
  induction n as [|n (Fp & Fa & Fb & Fe & Fc & Fd)].
  { repeat split; intros; lia. }
  pose proof (descent_passed tokens n) as D.
  split; [|split; [|split; [|split; [|split]]]]; intros * Hn; simpl;
    repeat fuel_step D;
    first [apply Fp | apply Fa | apply Fb | apply Fe | apply Fc | apply Fd];
    passed_lt.
Qed.

End ParserFuel.

Section ParserTop.
Variable tokens : list Token.
Local Abbreviation passed := (passed tokens).

Lemma parseParams_inv n : ∀ cur args r cur',
  parseParams tokens n cur args = Ok (r, cur') → passed cur cur' ∧ cur < cur'.
Proof.
  induction n as [|n IH]; intros cur args r cur' H; [done|]. simpl in H.
  parser_all; use_descent (descent_passed tokens 0).
  - apply IH in H as [? ?]. split; [passed_chain|passed_lt].
  - split; [passed_chain|passed_lt].
Qed.

Lemma parseParams_fuel n : ∀ cur args,
  length tokens - cur < n → parseParams tokens n cur args ≠ OutOfFuel.
Proof.
  induction n as [|n IH]; intros cur args Hn; [lia|]. simpl.
  repeat fuel_step (descent_passed tokens 0). apply IH. passed_lt.
Qed.

Lemma parseFunction_inv cur f cur' :
  parseFunction tokens cur = Ok (f, cur') → passed cur cur' ∧ cur < cur'.
Proof.
  unfold parseFunction. intros H.
  destruct (match_ tokens TOK_EXTERN cur) as [m c] eqn:Hm.
  apply match_inv in Hm; [|done]. destruct m.
  - destruct Hm as [Hm ?]. parser_all.
    all: repeat match goal with
         | H : parseParams _ _ _ _ = Ok _ |- _ => apply parseParams_inv in H as [? ?]
         end; use_descent (descent_passed tokens (fuel tokens)).
    all: split; [passed_chain|passed_lt].
  - subst c. destruct (match_ tokens TOK_EXPORT cur) as [m c] eqn:Hm'.
    apply match_inv in Hm'; [|done]. destruct m; [destruct Hm' as [Hm' ?]|subst c].
    all: parser_all.
    all: repeat match goal with
         | H : parseParams _ _ _ _ = Ok _ |- _ => apply parseParams_inv in H as [? ?]
         end; use_descent (descent_passed tokens (fuel tokens)).
    all: split; [passed_chain|passed_lt].
Qed.

Lemma parseFunction_fuel cur : parseFunction tokens cur ≠ OutOfFuel.
Proof.
  unfold parseFunction.
  pose proof (descent_fueled tokens (fuel tokens)) as (_ & _ & Fb & _).
  destruct (match_ tokens TOK_EXTERN cur) as [m c] eqn:Hm.
  apply match_inv in Hm; [|done].
  destruct m; [destruct Hm as [Hm ?]|subst c;
    destruct (match_ tokens TOK_EXPORT cur) as [m c] eqn:Hm';
    apply match_inv in Hm'; [|done]; destruct m; [destruct Hm' as [Hm' ?]|subst c]].
  all: repeat (fuel_step (descent_passed tokens (fuel tokens));
         repeat match goal with
         | H : parseParams _ _ _ _ = Ok _ |- _ => apply parseParams_inv in H as [? ?]
         end).
  all: first [apply parseParams_fuel; lia | apply Fb; unfold fuel; passed_lt].
Qed.

Lemma parse_loop_inv n : ∀ cur fs r,
  parse_loop tokens n cur fs = Ok r →
  ∃ cur', passed cur cur' ∧ type (at_ tokens cur') = TOK_EOF.
Proof.
  induction n as [|n IH]; intros cur fs r H; [done|]. simpl in H.
  destruct (isAtEnd tokens cur) eqn:He; simpl in H.
  - exists cur. split; [apply passed_refl|]. unfold isAtEnd, peek in He.
    by apply bool_decide_eq_true in He.
  - parser_all. apply parseFunction_inv in Hx as [? ?].
    apply IH in H as (cur' & ? & ?). exists cur'. split; [passed_chain; done|done].
Qed.

Lemma parse_loop_fuel n : ∀ cur fs,
  length tokens - cur < n → parse_loop tokens n cur fs ≠ OutOfFuel.
Proof.
  induction n as [|n IH]; intros cur fs Hn; [lia|]. simpl.
  destruct (isAtEnd tokens cur); simpl; [done|].
  apply bind_fuel; [apply parseFunction_fuel|].
  intros [f c] Hf. apply parseFunction_inv in Hf as [? ?]. apply IH. passed_lt.
Qed.

(** A vector with a minus token before its first end-of-input token is
    rejected: [parse] throws. *)
Lemma parse_minus i t :
  tokens !! i = Some t → type t = TOK_MINUS →
  (∀ j, j < i → type (at_ tokens j) ≠ TOK_EOF) →
  ∃ msg, parse tokens = Throw msg.
Proof.
  intros Hi Ht Hbefore. unfold parse.
  destruct (parse_loop tokens (S (length tokens)) 0 []) as [r|msg|] eqn:E.
  - exfalso. apply parse_loop_inv in E as (cur' & (_ & _ & Hp) & He).
    assert (type (at_ tokens i) = TOK_MINUS) as Hti by (unfold at_; by rewrite Hi).
    destruct (decide (i < cur')) as [Hlt|Hge].
    + destruct (Hp i) as [? _]; [lia|done|done].
    + destruct (decide (cur' = i)) as [->|Hne]; [congruence|].
      apply (Hbefore cur'); [lia|done].
  - by exists msg.
  - exfalso. revert E. apply parse_loop_fuel. lia.
Qed.

End ParserTop.

Lemma scanToken_minus source s :
  Lexer.peek source s ≠ ">"%char → Lexer.isDigit (Lexer.peek source s) = false →
  Lexer.scanToken source "-" s = Ok (Lexer.addToken TOK_MINUS "-" s).
Proof.
  intros Hp Hd. unfold Lexer.scanToken. simpl. unfold Lexer.match_.
  destruct (Lexer.isAtEnd source s) eqn:He; simpl; [by rewrite Hd|].
  apply isAtEnd_false in He. rewrite peek_in in Hp by done.
  destruct (Ascii.eqb_spec (Lexer.at_ source (Lexer.current s)) ">") as [E|_]; [done|].
  simpl. by rewrite Hd.
Qed.

Lemma front_end_minus source s t :
  Lexer.scanTokens (bytes source) = Ok s → t ∈ Lexer.tokens s → type t = TOK_MINUS →
  ∃ msg, front_end source = Throw msg.
Proof.
  intros Hs Ht Hm. unfold front_end. rewrite Hs. simpl.
  destruct (scanTokens_spec (bytes source)) as [[ln E]|(s' & toks & E & Htoks & Hall)];
    [congruence|].
  rewrite Hs in E. injection E as <-. rewrite Htoks in Ht |- *.
  apply elem_of_app in Ht as [Ht|Ht]; [|apply list_elem_of_singleton in Ht; by subst t].
  apply list_elem_of_lookup in Ht as [i Hi].
  apply (parse_minus _ i t); [by apply lookup_app_l_Some|done|].
  intros j Hj. assert (j < length toks) as Hlt.
  { apply lookup_lt_Some in Hi. lia. }
  destruct (lookup_lt_is_Some_2 toks j Hlt) as [u Hu].
  unfold Parser.at_. rewrite (lookup_app_l_Some _ _ _ _ Hu). simpl.
  rewrite Forall_forall in Hall. apply (Hall u). apply list_elem_of_lookup. eauto.
Qed.

Lemma minus_tokens_pos toks :
  0 < minus_tokens toks → ∃ t, t ∈ toks ∧ type t = TOK_MINUS.
Proof.
  unfold minus_tokens. intros H.
  destruct (filter (λ t, type t = TOK_MINUS) toks) as [|t l] eqn:E; [simpl in H; lia|].
  assert (t ∈ filter (λ t, type t = TOK_MINUS) toks) as Hin
    by (rewrite E; apply list_elem_of_here).
  apply list_elem_of_filter in Hin as [? ?]. by exists t.
Qed.

Lemma front_end_minus_site source :
  0 < minus_sites Code (bytes source) →
  (∀ s, Lexer.scanTokens (bytes source) = Ok s →
        ∃ msg, Parser.parse (Lexer.tokens s) = Throw msg)
  ∧ ∃ msg, front_end source = Throw msg.
Proof.
  intros H.
  assert (∀ s, Lexer.scanTokens (bytes source) = Ok s →
               ∃ msg, front_end source = Throw msg) as Hok.
  { intros s Hs. rewrite <- (scanTokens_minus _ s Hs) in H.
    apply minus_tokens_pos in H as (t & Ht & Hty).
    by apply (front_end_minus source s t). }
  split.
  - intros s Hs. destruct (Hok s Hs) as [msg Hm]. exists msg.
    unfold front_end in Hm. by rewrite Hs in Hm.
  - destruct (Lexer.scanTokens (bytes source)) as [s|msg|] eqn:E.
    + by apply (Hok s).
    + exists msg. unfold front_end. by rewrite E.
    + destruct (scanTokens_spec (bytes source)) as [[ln H1]|(? & ? & H1 & _)];
        rewrite E in H1; discriminate H1.
Qed.

(** C9 as stated fails: a minus sign that a digit follows is the start of a
    number, not an operator.  [a-1] scans to the identifier [a] and the number
    [-1], and the function that holds it is accepted, with a body of two
    expressions. *)
Lemma subtraction_rejected_counterexample :
  front_end negative_literal_program
  = Ok [mkFunctionAST "f" [("a", "u8")] EmptyString
          [VariableExprAST "a"; NumberExprAST (-1)] false false]
  ∧ ¬ subtraction_always_rejected.
Proof.
  split; [vm_compute; reflexivity|]. intros H.
  destruct (H "fn f(a: u8) { " "a" "1" " }") as [msg Hm].
  - split; [done|]. by repeat constructor.
  - split; [done|]. by repeat constructor.
  - vm_compute. reflexivity.
  - vm_compute in Hm. discriminate Hm.
Qed.

(** C9 (subtraction, amended).  On a [-] that neither [>] nor a digit follows
    the scanner emits a MINUS token, and the token vector of an input holds
    one MINUS token for each such [-] that stands in code, outside comments
    and string literals ([minus_sites]).  The parser throws on every token
    vector that holds a MINUS token before its first end-of-input token.  So
    every source that holds such a [-] is rejected: what the scanner returns
    for it makes the parser throw.
    [fn sub(a: u32, b: u32) -> u32 { return a - b; }] is rejected with
    [Expected ';' after return statement], and the statement [a - b] with
    [Expected primary expression]. *)
Theorem subtraction_rejected :
  (∀ source s,
      Lexer.peek source s ≠ ">"%char → Lexer.isDigit (Lexer.peek source s) = false →
      Lexer.scanToken source "-" s = Ok (Lexer.addToken TOK_MINUS "-" s))
  ∧ (∀ source s,
      Lexer.scanTokens source = Ok s →
      minus_tokens (Lexer.tokens s) = minus_sites Code source)
  ∧ (∀ tokens i t,
      tokens !! i = Some t → type t = TOK_MINUS →
      (∀ j, j < i → type (Parser.at_ tokens j) ≠ TOK_EOF) →
      ∃ msg, Parser.parse tokens = Throw msg)
  ∧ (∀ source s t,
      Lexer.scanTokens (bytes source) = Ok s → t ∈ Lexer.tokens s → type t = TOK_MINUS →
      ∃ msg, front_end source = Throw msg)
  ∧ (∀ source,
      0 < minus_sites Code (bytes source) →
      (∀ s, Lexer.scanTokens (bytes source) = Ok s →
            ∃ msg, Parser.parse (Lexer.tokens s) = Throw msg)
      ∧ ∃ msg, front_end source = Throw msg)
  ∧ front_end subtraction_program = Throw "Expected ';' after return statement"
  ∧ front_end "fn f(a: u8, b: u8) { a - b }" = Throw "Expected primary expression".
Proof.
  split; [exact scanToken_minus|]. split; [exact scanTokens_minus|].
  split; [exact parse_minus|]. split; [exact front_end_minus|].
  split; [exact front_end_minus_site|]. split; vm_compute; reflexivity.
Qed.

Lemma subtraction_rejected_witness :
  minus_sites Code (bytes subtraction_program) = 1
  ∧ (∀ s, Lexer.scanTokens (bytes subtraction_program) = Ok s →
          ∃ msg, Parser.parse (Lexer.tokens s) = Throw msg)
  ∧ ∃ msg, front_end subtraction_program = Throw msg.
Proof.
  split; [vm_compute; reflexivity|].
  apply (proj1 (proj2 (proj2 (proj2 (proj2 subtraction_rejected)))) subtraction_program).
  vm_compute. lia.
Defined.

Section ParserExact.
Variable tokens : list Token.
Local Abbreviation at_ := (at_ tokens).

Lemma match_unfold ty cur :
  match_ tokens ty cur
  = if check tokens ty cur then (true, advance tokens cur) else (false, cur).
Proof. reflexivity. Qed.

Lemma consume_unfold ty msg cur :
  consume tokens ty msg cur
  = if check tokens ty cur then Ok (advance tokens cur) else Throw msg.
Proof. reflexivity. Qed.

Lemma check_unfold ty cur :
  check tokens ty cur
  = if isAtEnd tokens cur then false else bool_decide (type (at_ cur) = ty).
Proof. reflexivity. Qed.

Lemma check_false ty cur :
  check tokens ty cur = false → type (at_ cur) = ty → ty = TOK_EOF.
Proof.
  rewrite check_unfold. unfold isAtEnd, peek.
  case_bool_decide as He; [congruence|]. intros H Ht. by apply bool_decide_eq_false in H.
Qed.

(** What a successful [match] and [consume] have seen, and where they stop. *)
Lemma match_exact ty cur m cur' :
  match_ tokens ty cur = (m, cur') →
  if m then type (at_ cur) = ty ∧ ty ≠ TOK_EOF ∧ cur' = S cur ∧ cur < length tokens
  else cur' = cur ∧ (type (at_ cur) = ty → ty = TOK_EOF).
Proof.
  rewrite match_unfold. destruct (check tokens ty cur) eqn:Hc; intros [= <- <-].
  - apply check_true in Hc as (? & ? & -> & ?). done.
  - split; [done|]. by apply check_false.
Qed.

Lemma consume_exact ty msg cur cur' :
  consume tokens ty msg cur = Ok cur' →
  type (at_ cur) = ty ∧ ty ≠ TOK_EOF ∧ cur' = S cur ∧ cur < length tokens.
Proof.
  rewrite consume_unfold. destruct (check tokens ty cur) eqn:Hc; [|done]. intros [= <-].
  apply check_true in Hc as (? & ? & -> & ?). done.
Qed.

Lemma consume_throw ty msg cur m :
  consume tokens ty msg cur = Throw m → m = msg.
Proof. rewrite consume_unfold. destruct (check tokens ty cur); [done|]. by intros [= <-]. Qed.

End ParserExact.

(** Take the next step of a parser run recorded in [H], keeping the type of
    the token each step has seen. *)
Ltac exact_step H :=
  lazymatch type of H with
  | (let '(_, _) := match_ ?tokens ?ty ?c in _) = _ =>
      let m := fresh "m" in let c' := fresh "c" in let Hm := fresh "Hm" in
      destruct (match_ tokens ty c) as [m c'] eqn:Hm;
      apply match_exact in Hm;
      destruct m; [destruct Hm as (Hm & ? & -> & ?)|destruct Hm as [-> Hm]]
  | (let '(_, _) := (let '(_, _) := match_ ?tokens ?ty ?c in _) in _) = _ =>
      let m := fresh "m" in let c' := fresh "c" in let Hm := fresh "Hm" in
      destruct (match_ tokens ty c) as [m c'] eqn:Hm;
      apply match_exact in Hm;
      destruct m; [destruct Hm as (Hm & ? & -> & ?)|destruct Hm as [-> Hm]]
  | res_bind (consume ?tokens ?ty ?msg ?c) _ = Ok _ =>
      let c' := fresh "c" in let Hc := fresh "Hc" in
      apply bind_Ok_inv in H as (c' & Hc & H);
      apply consume_exact in Hc as (Hc & ? & -> & ?)
  | mbind _ _ = Ok _ => unfold mbind, Res_bind in H
  | res_bind (if ?b then _ else _) _ = Ok _ => destruct b eqn:?
  | res_bind _ _ = Ok _ =>
      let x := fresh "x" in let Hx := fresh "Hx" in
      apply bind_Ok_inv in H as (x & Hx & H)
  | (let '(_, _) := ?p in _) = _ => destruct p
  | (if ?b then _ else _) = _ => destruct b eqn:?
  | Ok _ = Ok _ => injection H as ? ?; subst
  | Throw _ = Ok _ => discriminate H
  | OutOfFuel = Ok _ => discriminate H
  end.

Ltac exact_run H := repeat (exact_step H; try cbn [res_bind] in H).

Section ParserShape.
Variable tokens : list Token.
Local Abbreviation at_ := (at_ tokens).

(** X7 (the head and the end of a function).  A function that
    [parseFunction] returns is extern exactly when the first token is
    [extern] and exported exactly when it is [export]; behind that token, if
    there is one, come [fn], an identifier, which is the name of the
    function, and an opening parenthesis.  An extern function has no body and
    its last token is a semicolon; the last token of any other function is a
    closing brace. *)
Theorem parseFunction_header (cur : nat) (f : FunctionAST) (cur' : nat) :
  parseFunction tokens cur = Ok (f, cur') →
  isExtern f = bool_decide (type (at_ cur) = TOK_EXTERN)
  ∧ isExport f = bool_decide (type (at_ cur) = TOK_EXPORT)
  ∧ (let k := if isExtern f || isExport f then S cur else cur in
     type (at_ k) = TOK_FN ∧ type (at_ (S k)) = TOK_IDENTIFIER
     ∧ Name f = lexeme (at_ (S k)) ∧ type (at_ (S (S k))) = TOK_OPEN_PAREN)
  ∧ (if isExtern f
     then Body f = [] ∧ type (at_ (cur' - 1)) = TOK_SEMI
     else type (at_ (cur' - 1)) = TOK_CLOSE_BRACE).
Proof.
  unfold parseFunction. intros H.
  exact_step H.
  - (* extern *)
    cbn [res_bind] in H. exact_run H; simpl; rewrite ?Nat.sub_0_r.
    all: rewrite Hm; rewrite bool_decide_eq_true_2 by done.
    all: rewrite bool_decide_eq_false_2 by congruence.
    all: repeat split; try done.
  - exact_step H.
    + cbn [res_bind] in H. exact_run H; simpl; rewrite ?Nat.sub_0_r.
      all: rewrite Hm0; rewrite (bool_decide_eq_true_2 (_ = TOK_EXPORT)) by done.
      all: rewrite bool_decide_eq_false_2 by congruence.
      all: repeat split; try done.
    + cbn [res_bind] in H. exact_run H; simpl; rewrite ?Nat.sub_0_r.
      all: rewrite !bool_decide_eq_false_2 by (intros E; by first [apply Hm in E|apply Hm0 in E]).
      all: repeat split; try done.
Qed.

End ParserShape.

Lemma parseFunction_header_witness :
  parseFunction (scanned "extern fn f();") 0
    = Ok (mkFunctionAST "f" [] EmptyString [] true false, 6)
  ∧ type (at_ (scanned "extern fn f();") 1) = TOK_FN
  ∧ type (at_ (scanned "extern fn f();") 5) = TOK_SEMI.
Proof.
  assert (parseFunction (scanned "extern fn f();") 0
          = Ok (mkFunctionAST "f" [] EmptyString [] true false, 6)) as H
    by (vm_compute; reflexivity).
  split; [exact H|].
  destruct (parseFunction_header _ _ _ _ H) as (_ & _ & (Hfn & _) & (_ & Hsemi)).
  split; [exact Hfn|exact Hsemi].
Defined.

Section ParserMore.
Variable tokens : list Token.
Local Abbreviation at_ := (at_ tokens).
Local Abbreviation passed := (passed tokens).

Lemma parseType_unfold cur : parseType tokens cur = parseType_rec tokens (S (length tokens)) cur.
Proof. reflexivity. Qed.

Lemma parseType_rec_shape n : ∀ cur ty cur',
  parseType_rec tokens n cur = Ok (ty, cur') →
  ∃ k, cur' = cur + 2 * k + 1
    ∧ type (at_ (cur + 2 * k)) = TOK_TYPE
    ∧ ty = slice_name k (lexeme (at_ (cur + 2 * k)))
    ∧ ∀ i, i < k → type (at_ (cur + 2 * i)) = TOK_OPEN_BRACKET
                   ∧ type (at_ (cur + 2 * i + 1)) = TOK_CLOSE_BRACKET.
Proof.
  induction n as [|n IH]; intros cur ty cur' H; [done|]. simpl in H.
  exact_run H.
  - apply IH in Hx as (k & -> & Hty & -> & Hbr).
    exists (S k). replace (cur + 2 * S k) with (S (S cur) + 2 * k) by lia.
    split; [lia|]. split; [done|]. split; [done|].
    intros [|i] Hi.
    + rewrite Nat.add_0_r. by replace (cur + 1) with (S cur) by lia.
    + replace (cur + 2 * S i) with (S (S cur) + 2 * i) by lia. apply Hbr. lia.
  - exists 0. rewrite Nat.add_0_r. unfold previous. simpl. rewrite Nat.sub_0_r.
    split; [lia|]. split; [done|]. split; [done|]. intros i Hi. lia.
Qed.

(** X8 (type syntax).  A type that [parseType] returns was written as [k]
    pairs of an opening and a closing bracket and then one TYPE token; its
    name is the lexeme of that token behind [k] copies of the two bytes
    [[]], and [parseType] stops right behind the TYPE token. *)
Theorem parseType_shape (cur : nat) (ty : string) (cur' : nat) :
  parseType tokens cur = Ok (ty, cur') →
  ∃ k, cur' = cur + 2 * k + 1
    ∧ type (at_ (cur + 2 * k)) = TOK_TYPE
    ∧ ty = slice_name k (lexeme (at_ (cur + 2 * k)))
    ∧ ∀ i, i < k → type (at_ (cur + 2 * i)) = TOK_OPEN_BRACKET
                   ∧ type (at_ (cur + 2 * i + 1)) = TOK_CLOSE_BRACKET.
Proof. rewrite parseType_unfold. apply parseType_rec_shape. Qed.



Lemma parser_terminates :
  parse tokens ≠ OutOfFuel.
Proof. unfold parse. apply parse_loop_fuel. lia. Qed.

End ParserMore.

Lemma parseType_shape_witness :
  ∃ k, 3 = 0 + 2 * k + 1
    ∧ type (at_ (scanned "[]u8") (0 + 2 * k)) = TOK_TYPE
    ∧ "[]u8" = slice_name k (lexeme (at_ (scanned "[]u8") (0 + 2 * k)))
    ∧ ∀ i, i < k → type (at_ (scanned "[]u8") (0 + 2 * i)) = TOK_OPEN_BRACKET
                   ∧ type (at_ (scanned "[]u8") (0 + 2 * i + 1)) = TOK_CLOSE_BRACKET.
Proof.
  apply (parseType_shape (scanned "[]u8") 0 "[]u8" 3). vm_compute. reflexivity.
Defined.


(** X10 (the front end ends).  On every source the scanner and the parser
    together come to an end: they return the functions of the source or
    throw an error, whatever the length of the source and the nesting of its
    blocks. *)
Theorem front_end_terminates (source : string) :
  (∃ fs, front_end source = Ok fs) ∨ (∃ msg, front_end source = Throw msg).
Proof.
  unfold front_end.
  destruct (scanTokens_spec (bytes source)) as [[ln ->]|(s & toks & -> & _)]; simpl.
  - right. by eexists.
  - destruct (parse (Lexer.tokens s)) as [fs|msg|] eqn:E; [left|right|]; [by eexists..|].
    by apply parser_terminates in E.
Qed.

Section ParserNumber.
Variable tokens : list Token.
Local Abbreviation at_ := (at_ tokens).

Lemma advance_unfold cur :
  advance tokens cur = if isAtEnd tokens cur then cur else S cur.
Proof. reflexivity. Qed.

Lemma match_hit ty cur :
  type (at_ cur) = ty → ty ≠ TOK_EOF → match_ tokens ty cur = (true, S cur).
Proof.
  intros Ht Hne. rewrite match_unfold, check_unfold, advance_unfold.
  unfold isAtEnd, peek. rewrite bool_decide_eq_false_2 by congruence.
  by rewrite bool_decide_eq_true_2.
Qed.

Lemma numeral_stoll lx :
  numeral lx →
  (∃ v, Stoll.stoll lx = Ok v ∧ int64 v) ∨ Stoll.stoll lx = Throw "stoll: out of range".
Proof.
  intros (c & l & Hd & [->| ->]).
  - rewrite stoll_digits by done. pose proof (decimal_nonneg (c :: l)).
    destruct (Z.ltb_spec (decimal (c :: l)) (2 ^ 63)); [left|by right].
    eexists. split; [done|]. unfold int64. lia.
  - rewrite stoll_minus_digits by done. pose proof (decimal_nonneg (c :: l)).
    destruct (Z.leb_spec (decimal (c :: l)) (2 ^ 63)); [left|by right].
    eexists. split; [done|]. unfold int64. lia.
Qed.

End ParserNumber.

(** X11 (number literals).  At a NUMBER token of a token vector the scanner
    has returned, [parsePrimary] returns a number node with the value
    [std::stoll] reads in the lexeme, a 64-bit signed integer, and stops
    behind the token; or it throws the range error of [std::stoll].  The
    lexeme is never one that [std::stoll] cannot read as a number. *)
Theorem number_literal_parses (source : list ascii) (s : Lexer.State)
    (n cur : nat) (t : Token) :
  Lexer.scanTokens source = Ok s →
  Lexer.tokens s !! cur = Some t → type t = TOK_NUMBER →
  (∃ v, Stoll.stoll (lexeme t) = Ok v ∧ int64 v
      ∧ parsePrimary (Lexer.tokens s) (S n) cur = Ok (NumberExprAST v, S cur))
  ∨ parsePrimary (Lexer.tokens s) (S n) cur = Throw "stoll: out of range".
Proof.
  intros Hs Ht Hty. apply scanTokens_well_formed in Hs.
  rewrite Forall_forall in Hs.
  assert (well_formed t) as Hw by (apply Hs; by eapply list_elem_of_lookup_2).
  unfold well_formed in Hw. rewrite Hty in Hw.
  assert (Parser.at_ (Lexer.tokens s) cur = t) as Hat by (unfold Parser.at_; by rewrite Ht).
  assert (type (Parser.at_ (Lexer.tokens s) cur) = TOK_NUMBER) as Htn by by rewrite Hat.
  simpl. rewrite (match_hit _ TOK_NUMBER cur Htn) by done.
  unfold previous. simpl. rewrite Nat.sub_0_r, Hat.
  destruct (numeral_stoll _ Hw) as [(v & Hv & Hi)| ->].
  - left. exists v. rewrite Hv. done.
  - by right.
Qed.

Lemma number_literal_parses_witness :
  (∃ v, Stoll.stoll "42" = Ok v ∧ int64 v
      ∧ parsePrimary (scanned "42") 1 0 = Ok (NumberExprAST v, 1))
  ∨ parsePrimary (scanned "42") 1 0 = Throw "stoll: out of range".
Proof.
  apply (number_literal_parses (bytes "42")
           (Lexer.mkState 2 1 (scanned "42") []) 0 0 (mkToken TOK_NUMBER "42" 1)).
  - vm_compute. reflexivity.
  - reflexivity.
  - reflexivity.
Defined.

Section ParserDecl.
Variable tokens : list Token.
Local Abbreviation at_ := (at_ tokens).

Lemma match_miss ty cur :
  type (at_ cur) ≠ ty → match_ tokens ty cur = (false, cur).
Proof.
  intros Hne. rewrite match_unfold, check_unfold.
  destruct (isAtEnd tokens cur); [done|]. by rewrite bool_decide_eq_false_2.
Qed.

(** X12 (declarations).  On a [var] or [const] token [parseExpression]
    returns a declaration of the identifier that follows, constant exactly
    when the token is [const].  Its type is what [parseType] returns behind a
    colon when a colon follows the identifier, and [u8] when none does; the
    last token of the declaration is a semicolon. *)
Theorem declaration_default_type (n cur : nat) (e : ExprAST) (cur' : nat) :
  parseExpression tokens (S n) cur = Ok (e, cur') →
  type (at_ cur) = TOK_VAR ∨ type (at_ cur) = TOK_CONST →
  ∃ ty Init,
    e = VarDeclAST (lexeme (at_ (S cur))) ty (bool_decide (type (at_ cur) = TOK_CONST)) Init
    ∧ type (at_ (S cur)) = TOK_IDENTIFIER
    ∧ (if bool_decide (type (at_ (S (S cur))) = TOK_COLON)
       then ∃ c, parseType tokens (S (S (S cur))) = Ok (ty, c)
       else ty = "u8")
    ∧ type (at_ (cur' - 1)) = TOK_SEMI.
Proof.
  intros H Hty. simpl in H.
  rewrite (match_miss TOK_RETURN cur) in H by (destruct Hty; congruence).
  assert ((let '(m, current) := match_ tokens TOK_CONST cur in
           if m then (true, current) else match_ tokens TOK_VAR current) = (true, S cur)) as E.
  { destruct Hty as [Hv|Hc].
    - rewrite (match_miss TOK_CONST cur) by congruence. by rewrite (match_hit _ TOK_VAR cur).
    - by rewrite (match_hit _ TOK_CONST cur). }
  rewrite E in H. clear E. unfold previous in H. simpl in H. rewrite Nat.sub_0_r in H.
  exact_run H; unfold previous; simpl; rewrite ?Nat.sub_0_r.
  all: eexists _, _; split; [reflexivity|]; split; [done|]; split; [|done].
  all: first [ rewrite bool_decide_eq_true_2 by done; by eexists
             | rewrite bool_decide_eq_false_2; [done|intros E; by apply Hm in E] ].
Qed.

End ParserDecl.

Lemma declaration_default_type_witness :
  ∃ ty Init,
    VarDeclAST "x" "u8" false (Some (NumberExprAST 1))
    = VarDeclAST (lexeme (at_ (scanned "var x = 1;") 1)) ty
        (bool_decide (type (at_ (scanned "var x = 1;") 0) = TOK_CONST)) Init
    ∧ type (at_ (scanned "var x = 1;") 1) = TOK_IDENTIFIER
    ∧ (if bool_decide (type (at_ (scanned "var x = 1;") 2) = TOK_COLON)
       then ∃ c, parseType (scanned "var x = 1;") 3 = Ok (ty, c)
       else ty = "u8")
    ∧ type (at_ (scanned "var x = 1;") (5 - 1)) = TOK_SEMI.
Proof.
  apply (declaration_default_type (scanned "var x = 1;") 8 0
           (VarDeclAST "x" "u8" false (Some (NumberExprAST 1))) 5).
  - vm_compute. reflexivity.
  - left. reflexivity.
Defined.

Section ParserChain.
Variable tokens : list Token.
Local Abbreviation at_ := (at_ tokens).
Local Abbreviation clean := (clean tokens).
Local Abbreviation chain := (chain tokens).
Local Abbreviation operand := (operand tokens).

Lemma clean_refl cur : clean cur cur.
Proof. split; [done|]. split; intros; lia. Qed.

Lemma clean_token cur : type (at_ cur) ≠ TOK_PLUS → clean cur (S cur).
Proof.
  intros H. split; [lia|]. split; [intros; lia|]. intros _. simpl.
  by rewrite Nat.sub_0_r.
Qed.

Lemma clean_trans a b c : clean a b → clean b c → clean a c.
Proof.
  intros (Hab & Hn1 & He1) (Hbc & Hn2 & He2). split; [lia|]. split.
  - intros i Hi Hi' Hch.
    destruct (decide (S (S i) < b)) as [?|?]; [by apply (Hn1 i)|].
    destruct (decide (b ≤ i)) as [?|?]; [by apply (Hn2 i)|].
    destruct Hch as (Hp1 & _ & Hp2).
    destruct (decide (b = S i)) as [->|?].
    + destruct He1 as [_ He1]; [lia|]. simpl in He1. by rewrite Nat.sub_0_r in He1.
    + assert (b = S (S i)) as -> by lia. destruct He2 as [He2 _]; [lia|]. done.
  - intros Hac. split.
    + destruct (decide (a < b)) as [?|?]; [by apply He1|].
      assert (a = b) as -> by lia. by apply He2.
    + destruct (decide (b < c)) as [?|?]; [by apply He2|].
      assert (b = c) as -> by lia. by apply He1.
Qed.

End ParserChain.

(** Put the spans of a run together: each is a token that is no plus sign or
    the span of a call. *)
Ltac clean_chain :=
  repeat first
    [ apply clean_refl
    | eassumption
    | eapply clean_trans;
      [ first [ eassumption
              | apply clean_token;
                match goal with
                | H : type (Parser.at_ _ ?c) = _ |- type (Parser.at_ _ ?c) ≠ _ =>
                    rewrite H; discriminate
                end ] | ] ].

Section ParserChain2.
Variable tokens : list Token.
Local Abbreviation at_ := (at_ tokens).
Local Abbreviation clean := (clean tokens).
Local Abbreviation chain := (chain tokens).
Local Abbreviation operand := (operand tokens).
Local Abbreviation sums := (sums tokens).

Lemma parseType_rec_clean n : ∀ cur ty cur',
  parseType_rec tokens n cur = Ok (ty, cur') → clean cur cur'.
Proof.
  induction n as [|n IH]; intros cur ty cur' H; [done|]. simpl in H.
  exact_run H.
  - apply IH in Hx. clean_chain.
  - clean_chain.
Qed.

Lemma parseType_clean cur ty cur' :
  parseType tokens cur = Ok (ty, cur') → clean cur cur'.
Proof. rewrite parseType_unfold. apply parseType_rec_clean. Qed.

Ltac exact_all :=
  repeat match goal with
  | H : _ = Ok _ |- _ => progress (exact_run H)
  end.

Ltac use_sums IHp IHa IHb IHe IHc IHd :=
  repeat match goal with
  | H : parsePrimary _ _ _ = Ok _ |- _ => apply IHp in H as (? & ? & ? & ?)
  | H : parseArgs _ _ _ _ = Ok _ |- _ => apply IHa in H
  | H : parseBlock _ _ _ _ = Ok _ |- _ => apply IHb in H
  | H : parseExpression _ _ _ = Ok _ |- _ => apply IHe in H
  | H : parseComparison _ _ _ = Ok _ |- _ => apply IHc in H
  | H : parseAddition _ _ _ = Ok _ |- _ => apply IHd in H
  | H : parseType _ _ = Ok _ |- _ => apply parseType_clean in H
  end.

Lemma operand_type i ty :
  operand i → type (at_ i) = ty →
  ty ∈ [TOK_NUMBER; TOK_TRUE; TOK_FALSE; TOK_STRING_LITERAL; TOK_IDENTIFIER].
Proof. intros H <-. exact H. Qed.

Lemma descent_sums n : sums n.
Proof.
  induction n as [|n (IHp & IHa & IHb & IHe & IHc & IHd)]; [by repeat split|].
  split; [|split; [|split; [|split; [|split]]]]; intros * H; simpl in H.
  - pose proof H as Hlt. apply (descent_passed tokens (S n)) in Hlt as [_ Hlt].
    exact_run H; use_sums IHp IHa IHb IHe IHc IHd.
    all: split; [clean_chain|]; split; [done|]; simpl; rewrite ?Nat.sub_0_r.
    all: split; intros Hop;
      first [ done | by left | by right
            | exfalso;
              match goal with
              | H : type (at_ ?c) = _ |- _ =>
                  apply (operand_type _ _ Hop) in H;
                  repeat (apply elem_of_cons in H as [H|H]; [discriminate H|]);
                  by apply elem_of_nil in H
              end ].
  - exact_all; use_sums IHp IHa IHb IHe IHc IHd; clean_chain.
  - exact_all; use_sums IHp IHa IHb IHe IHc IHd; clean_chain.
  - exact_all; use_sums IHp IHa IHb IHe IHc IHd; clean_chain.
  - exact_all; use_sums IHp IHa IHb IHe IHc IHd; clean_chain.
  - exact_all.
    + apply IHp in Hx as (Hc1 & Hlt1 & HC & _). apply IHp in Hx0 as (Hc2 & Hlt2 & _ & HC').
      destruct Hc1 as (Hle1 & Hn1 & He1), Hc2 as (Hle2 & Hn2 & He2).
      destruct (He1 Hlt1) as [Hfirst Hlast1]. destruct (He2 Hlt2) as [_ Hlast2].
      split; [lia|]. split; [|done].
      intros i Hi Hi' (Hp1 & Hop & Hp2).
      destruct (decide (S (S i) < n0)) as [?|?]; [by apply (Hn1 i)|].
      destruct (decide (S n0 ≤ i)) as [?|?]; [by apply (Hn2 i)|].
      destruct (decide (i = n0)) as [->|?].
      { destruct (HC' Hop) as [->|Hparen]; [lia|congruence]. }
      destruct (decide (S i = n0)) as [<-|?].
      { simpl in Hlast1. rewrite ?Nat.sub_0_r in Hlast1. done. }
      assert (n0 = S (S i)) as -> by lia.
      simpl in HC. rewrite ?Nat.sub_0_r in HC. specialize (HC Hop). lia.
    + by apply IHp in Hx as (? & _).
Qed.

Lemma parseParams_clean n : ∀ cur args r cur',
  parseParams tokens n cur args = Ok (r, cur') → clean cur cur'.
Proof.
  induction n as [|n IH]; intros cur args r cur' H; [done|]. simpl in H.
  exact_all;
    repeat match goal with
    | H : parseType _ _ = Ok _ |- _ => apply parseType_clean in H
    | H : parseParams _ _ _ _ = Ok _ |- _ => apply IH in H
    end; clean_chain.
Qed.

Lemma parseFunction_clean cur f cur' :
  parseFunction tokens cur = Ok (f, cur') → clean cur cur'.
Proof.
  unfold parseFunction. intros H.
  exact_all;
    repeat match goal with
    | H : parseType _ _ = Ok _ |- _ => apply parseType_clean in H
    | H : parseParams _ _ _ _ = Ok _ |- _ => apply parseParams_clean in H
    | H : parseBlock _ _ _ _ = Ok _ |- _ => apply (descent_sums (fuel tokens)) in H
    end; clean_chain.
Qed.

Lemma parse_loop_clean n : ∀ cur fs r,
  parse_loop tokens n cur fs = Ok r →
  ∃ cur', clean cur cur' ∧ type (at_ cur') = TOK_EOF.
Proof.
  induction n as [|n IH]; intros cur fs r H; [done|]. simpl in H.
  destruct (isAtEnd tokens cur) eqn:He; simpl in H.
  - exists cur. split; [apply clean_refl|]. unfold isAtEnd, peek in He.
    by apply bool_decide_eq_true in He.
  - exact_all. apply parseFunction_clean in Hx.
    apply IH in H as (cur' & ? & ?). exists cur'. split; [clean_chain|done].
Qed.

(** X13 (sums of three).  A sum has two operands and no more: on a token
    vector that holds, before its first end-of-input token, a plus sign, a
    number, boolean, string or identifier, and a plus sign again, [parse]
    throws.  ([parseAddition] reads one operand behind its plus sign and does
    not loop.) *)
Theorem chained_addition_rejected (i : nat) :
  chain i →
  (∀ j, j < i → type (at_ j) ≠ TOK_EOF) →
  ∃ msg, parse tokens = Throw msg.
Proof.
  intros Hch Hbefore. unfold parse.
  destruct (parse_loop tokens (S (length tokens)) 0 []) as [r|msg|] eqn:E.
  - exfalso. apply parse_loop_clean in E as (n & (_ & Hn & _) & He).
    apply (Hn i); [lia| |done].
    destruct Hch as (Hp1 & Hop & Hp2).
    destruct (decide (n < i)) as [?|?]; [by destruct (Hbefore n)|].
    destruct (decide (n = i)) as [->|?]; [congruence|].
    destruct (decide (n = S i)) as [->|?].
    { apply (operand_type _ _ Hop) in He.
      repeat (apply elem_of_cons in He as [He|He]; [discriminate He|]).
      by apply elem_of_nil in He. }
    destruct (decide (n = S (S i))) as [->|?]; [congruence|]. lia.
  - by exists msg.
  - exfalso. revert E. apply parse_loop_fuel. lia.
Qed.

End ParserChain2.

Lemma chained_addition_rejected_witness :
  ∃ msg, parse (scanned "fn f() { return 1 + 2 + 3; }") = Throw msg.
Proof.
  apply (chained_addition_rejected (scanned "fn f() { return 1 + 2 + 3; }") 7).
  - split; [reflexivity|]. split; [apply list_elem_of_here|reflexivity].
  - intros j Hj. do 7 (destruct j as [|j]; [vm_compute; discriminate|]). lia.
Defined.

(** The types of a parsed signature are written types. *)
Section ParserTypes.
Variable tokens : list Token.
Hypothesis tokens_wf : Forall well_formed tokens.

Lemma type_token_written i :
  type (at_ tokens i) = TOK_TYPE → Lexer.keyword (lexeme (at_ tokens i)) = TOK_TYPE.
Proof.
  unfold at_. destruct (tokens !! i) as [t|] eqn:Hi; [|done]. simpl. intros Ht.
  rewrite Forall_forall in tokens_wf.
  assert (well_formed t) as Hw by (apply tokens_wf; by eapply list_elem_of_lookup_2).
  unfold well_formed in Hw. rewrite Ht in Hw. simpl in Hw. by destruct Hw as [_ Hk].
Qed.

Lemma parseType_written cur ty cur' :
  parseType tokens cur = Ok (ty, cur') → written_type ty.
Proof.
  rewrite parseType_unfold. intros H.
  apply parseType_rec_shape in H as (k & _ & Hty & -> & _).
  exists k, (lexeme (at_ tokens (cur + 2 * k))). split; [done|].
  by apply type_token_written.
Qed.

Lemma parseParams_written n : ∀ cur args r cur',
  parseParams tokens n cur args = Ok (r, cur') →
  Forall (λ a, written_type a.2) args → Forall (λ a, written_type a.2) r.
Proof.
  induction n as [|n IH]; intros cur args r cur' H Hargs; [done|]. simpl in H.
  assert (∀ c ty c' name, parseType tokens c = Ok (ty, c') →
            Forall (λ a, written_type a.2) (args ++ [(name, ty)])) as Hext.
  { intros c ty c' name Hty. apply parseType_written in Hty.
    apply Forall_app. split; [done|]. by constructor. }
  parser_all.
  - eapply IH; [done|]. by eapply Hext.
  - by eapply Hext.
Qed.

Lemma parseFunction_written cur f cur' :
  parseFunction tokens cur = Ok (f, cur') → written_signature f.
Proof.
  unfold parseFunction. intros H.
  assert (Forall (λ a : string * string, written_type a.2) []) as Hnil by constructor.
  parser_all; split; simpl;
    repeat match goal with
    | H : parseParams _ _ _ _ = Ok _ |- _ =>
        let H' := fresh "Hl" in
        pose proof (parseParams_written _ _ _ _ _ H Hnil) as H'; clear H
    | H : parseType _ _ = Ok _ |- _ => apply parseType_written in H
    end; first [done | by left | by right].
Qed.

Lemma parse_loop_written n : ∀ cur fs r,
  parse_loop tokens n cur fs = Ok r →
  Forall written_signature fs → Forall written_signature r.
Proof.
  induction n as [|n IH]; intros cur fs r H Hfs; [done|]. simpl in H.
  destruct (isAtEnd tokens cur); simpl in H; [by injection H as <-|].
  parser_all. apply parseFunction_written in Hx. eapply IH; [done|].
  apply Forall_app. by split; [|constructor].
Qed.

End ParserTypes.

Lemma front_end_written source fs :
  front_end source = Ok fs → Forall written_signature fs.
Proof.
  unfold front_end. intros H.
  destruct (Lexer.scanTokens (bytes source)) as [s| |] eqn:Hs; [simpl in H|done..].
  apply scanTokens_well_formed in Hs. unfold parse in H.
  apply (parse_loop_written _ Hs) in H; [done|constructor].
Qed.

(** The operators of a parsed expression are operators the generator lowers. *)
Lemma operators_all l :
  (fix all (l : list ExprAST) : list string :=
     match l with
     | [] => []
     | x :: l' => operators x ++ all l'
     end) l = flat_map operators l.
Proof. induction l as [|x l IH]; simpl; [done|]. by rewrite IH. Qed.

Lemma known_all l :
  Forall operators_known l ↔ Forall (λ op, op ∈ binary_operators) (flat_map operators l).
Proof.
  induction l as [|x l IH]; simpl.
  - split; constructor.
  - rewrite Forall_cons, Forall_app, IH. done.
Qed.

Lemma known_binary Op LHS RHS :
  operators_known (BinaryExprAST Op LHS RHS)
  ↔ Op ∈ binary_operators ∧ operators_known LHS ∧ operators_known RHS.
Proof. unfold operators_known. simpl. by rewrite Forall_cons, Forall_app. Qed.

Lemma known_call Callee Args :
  operators_known (CallExprAST Callee Args) ↔ Forall operators_known Args.
Proof. unfold operators_known. simpl. by rewrite operators_all, known_all. Qed.

Lemma known_if Condition ThenBody ElseBody :
  operators_known (IfExprAST Condition ThenBody ElseBody)
  ↔ operators_known Condition ∧ Forall operators_known ThenBody
    ∧ Forall operators_known ElseBody.
Proof.
  unfold operators_known. simpl. by rewrite !operators_all, !Forall_app, !known_all.
Qed.

Lemma known_while Condition Body :
  operators_known (WhileExprAST Condition Body)
  ↔ operators_known Condition ∧ Forall operators_known Body.
Proof. unfold operators_known. simpl. by rewrite !operators_all, !Forall_app, !known_all. Qed.

Lemma known_for VarName Start End_ Body :
  operators_known (ForExprAST VarName Start End_ Body)
  ↔ operators_known Start ∧ operators_known End_ ∧ Forall operators_known Body.
Proof. unfold operators_known. simpl. by rewrite !operators_all, !Forall_app, !known_all. Qed.

Lemma known_leaf e : operators e = [] → operators_known e.
Proof. unfold operators_known. intros ->. constructor. Qed.

Ltac known_goal :=
  repeat first
    [ assumption
    | apply known_leaf; reflexivity
    | apply (proj2 (known_binary _ _ _)); split; [|split]
    | apply (proj2 (known_call _ _))
    | apply (proj2 (known_if _ _ _)); split; [|split]
    | apply (proj2 (known_while _ _)); split
    | apply (proj2 (known_for _ _ _ _)); split; [|split]
    | apply Forall_app_2
    | apply Forall_cons_2
    | apply Forall_nil_2
    | progress (unfold binary_operators);
      by repeat first [apply list_elem_of_here | apply list_elem_of_further] ].

Section ParserKnown.
Variable tokens : list Token.
Local Abbreviation known := (known tokens).

Ltac use_known IHp IHa IHb IHe IHc IHd :=
  repeat match goal with
  | H : parsePrimary _ _ _ = Ok _ |- _ => apply IHp in H
  | H : parseExpression _ _ _ = Ok _ |- _ => apply IHe in H
  | H : parseComparison _ _ _ = Ok _ |- _ => apply IHc in H
  | H : parseAddition _ _ _ = Ok _ |- _ => apply IHd in H
  | H : parseArgs _ _ _ _ = Ok _ |- _ => apply IHa in H; [|solve [known_goal]]
  | H : parseBlock _ _ _ _ = Ok _ |- _ => apply IHb in H; [|solve [known_goal]]
  end.

Lemma descent_known n : known n.
Proof.
  induction n as [|n (IHp & IHa & IHb & IHe & IHc & IHd)]; [by repeat split|].
  split; [|split; [|split; [|split; [|split]]]]; intros * H; simpl in H.
  - parser_all; use_known IHp IHa IHb IHe IHc IHd; known_goal.
  - intros Hargs. parser_all; use_known IHp IHa IHb IHe IHc IHd; known_goal.
  - intros Hbody. parser_all; use_known IHp IHa IHb IHe IHc IHd; known_goal.
  - parser_all; use_known IHp IHa IHb IHe IHc IHd; known_goal.
  - parser_all; use_known IHp IHa IHb IHe IHc IHd; known_goal.
  - parser_all; use_known IHp IHa IHb IHe IHc IHd; known_goal.
Qed.

End ParserKnown.

Section ParserKnown2.
Variable tokens : list Token.

Lemma parseFunction_known cur f cur' :
  parseFunction tokens cur = Ok (f, cur') → Forall operators_known (Body f).
Proof.
  unfold parseFunction. intros H.
  parser_all; simpl; try constructor.
  all: match goal with
       | H : parseBlock _ _ _ _ = Ok _ |- _ =>
           apply (descent_known tokens (fuel tokens)) in H; [done|constructor]
       end.
Qed.

Lemma parse_loop_known n : ∀ cur fs r,
  parse_loop tokens n cur fs = Ok r →
  Forall (λ f, Forall operators_known (Body f)) fs →
  Forall (λ f, Forall operators_known (Body f)) r.
Proof.
  induction n as [|n IH]; intros cur fs r H Hfs; [done|]. simpl in H.
  destruct (isAtEnd tokens cur); simpl in H; [by injection H as <-|].
  parser_all. apply parseFunction_known in Hx. eapply IH; [done|].
  apply Forall_app. by split; [|constructor].
Qed.

End ParserKnown2.

Lemma front_end_known source fs :
  front_end source = Ok fs → Forall (λ f, Forall operators_known (Body f)) fs.
Proof.
  unfold front_end. intros H.
  destruct (Lexer.scanTokens (bytes source)) as [s| |]; [simpl in H|done..].
  unfold parse in H. apply parse_loop_known in H; [done|constructor].
Qed.

End ParserProofs.


(** ** Code generator *)

Section CodegenProofs.

Import Codegen.

(** C1 (number narrowing).  For every literal [v] of [int64_t],
    [NumberExprAST::codegen] returns, without touching the state, the integer
    constant of width 8 when [v] is in [-128, 255], 16 when it is in
    [-32768, 65535], 32 when it is in [-2^31, 2^32 - 1] and 64 otherwise,
    built from [v] in signed representation ([isSigned = true]).  The constant
    denotes [v]: read back as a signed number when [v] is negative (the signed
    range of the width holds it) and as an unsigned number otherwise. *)
Theorem number_narrowing (v : Z) (st : State) :
  int64 v →
  codegen (NumberExprAST v) st
    = (Returned (Some (ConstantInt (IntegerTy (narrowed_width v)) v true)), st)
  ∧ ((v < 0)%Z → getSExtValue (narrowed_width v) v = v)
  ∧ ((0 ≤ v)%Z → getZExtValue (narrowed_width v) v = v).
Proof.
  intros [Hlo Hhi]. split; [|split].
  - simpl. unfold NumberExprAST_codegen, narrowed_width.
    assert (0 ≤ v → v mod 2 ^ 64 = v)%Z as Hmod by (intros; apply Z.mod_small; lia).
    repeat match goal with
    | |- context [(?a <=? ?b)%Z] => destruct (Z.leb_spec a b)
    | |- context [(?a <? ?b)%Z] => destruct (Z.ltb_spec a b)
    end; simpl; try reflexivity; try lia.
  - intros Hneg. unfold getSExtValue, APInt_bits, narrowed_width.
    repeat match goal with
    | |- context [(?a <=? ?b)%Z] => destruct (Z.leb_spec a b)
    end; simpl andb; cbv iota.
    all: try lia.
    all: match goal with
         | |- context [(?x mod ?m)%Z] =>
             assert (x mod m = x + m)%Z as ->
               by (symmetry; apply (Z.mod_unique x m (-1) (x + m)); [left|]; simpl; lia)
         end.
    all: simpl; match goal with |- context [(?a <? ?b)%Z] => destruct (Z.ltb_spec a b) end; lia.
  - intros Hpos. unfold getZExtValue, APInt_bits, narrowed_width.
    repeat match goal with
    | |- context [(?a <=? ?b)%Z] => destruct (Z.leb_spec a b)
    end; simpl andb; cbv iota; try lia.
    all: apply Z.mod_small; simpl; lia.
Qed.

Lemma number_narrowing_witness :
  codegen (NumberExprAST 200) initial
    = (Returned (Some (ConstantInt (IntegerTy 8) 200 true)), initial)
  ∧ ((200 < 0)%Z → getSExtValue 8 200 = 200%Z)
  ∧ ((0 ≤ 200)%Z → getZExtValue 8 200 = 200%Z).
Proof. apply (number_narrowing 200 initial). unfold int64. lia. Defined.

(** An induction principle that reaches the statements nested in lists. *)
Lemma ExprAST_nested_ind (P : ExprAST → Prop) :
  (∀ Val, P (NumberExprAST Val)) →
  (∀ Val, P (BooleanExprAST Val)) →
  (∀ Val, P (StringLiteralExprAST Val)) →
  (∀ Name, P (VariableExprAST Name)) →
  (∀ Op LHS RHS, P LHS → P RHS → P (BinaryExprAST Op LHS RHS)) →
  (∀ Callee Args, Forall P Args → P (CallExprAST Callee Args)) →
  (∀ RetVal, P RetVal → P (ReturnExprAST RetVal)) →
  (∀ Name Type_ IsConst Init,
      (∀ e, Init = Some e → P e) → P (VarDeclAST Name Type_ IsConst Init)) →
  (∀ Condition ThenBody ElseBody,
      P Condition → Forall P ThenBody → Forall P ElseBody →
      P (IfExprAST Condition ThenBody ElseBody)) →
  (∀ Condition Body, P Condition → Forall P Body → P (WhileExprAST Condition Body)) →
  (∀ VarName Start End_ Body,
      P Start → P End_ → Forall P Body → P (ForExprAST VarName Start End_ Body)) →
  P BreakExprAST →
  P ContinueExprAST →
  ∀ e, P e.
Proof.
  intros HN HB HS HV HBin HCall HRet HVar HIf HWhile HFor HBreak HCont.
  fix IH 1. intros e.
  assert (∀ l, Forall P l) as IHl.
  { fix IHl 1. intros [|x l]; constructor; [apply IH|apply IHl]. }
  destruct e as [| | | | | | |? ? ? [i|]| | | | |].
  - apply HN.
  - apply HB.
  - apply HS.
  - apply HV.
  - apply HBin; apply IH.
  - apply HCall, IHl.
  - apply HRet, IH.
  - apply HVar. intros e [= <-]. apply IH.
  - apply HVar. intros e [=].
  - apply HIf; [apply IH|apply IHl|apply IHl].
  - apply HWhile; [apply IH|apply IHl].
  - apply HFor; [apply IH|apply IH|apply IHl].
  - apply HBreak.
  - apply HCont.
Qed.

Section Steps.
Context (R : State → State → Prop) `{!PreOrder R}.

Lemma steps_ret {A} (a : A) : steps R (mret a).
Proof. intros st r st' [= <- <-]. reflexivity. Qed.

Lemma steps_throw {A} msg : steps R (@throw A msg).
Proof. intros st r st' [= <- <-]. reflexivity. Qed.

Lemma steps_get {A} (f : State → A) : steps R (get f).
Proof. intros st r st' [= <- <-]. reflexivity. Qed.

Lemma steps_modify (f : State → State) : (∀ st, R st (f st)) → steps R (modify f).
Proof. intros H st r st' [= <- <-]. apply H. Qed.

Lemma steps_bind {A B} (m : CG A) (k : A → CG B) :
  steps R m → (∀ a, steps R (k a)) → steps R (m ≫= k).
Proof.
  intros Hm Hk st r st'. unfold mbind, CG_bind.
  destruct (m st) as [[a|msg] st1] eqn:E.
  - intros H. etransitivity; [by eapply Hm|by eapply Hk].
  - intros [= <- <-]. by eapply Hm.
Qed.

Lemma steps_for_each (f : ExprAST → CG (option Value)) l :
  Forall (λ e, steps R (f e)) l → steps R (for_each f l).
Proof.
  induction 1 as [|e l He Hl IH]; simpl; [apply steps_ret|].
  apply steps_bind; [done|]. intros _. apply IH.
Qed.

Lemma steps_lower_args (f : ExprAST → CG (option Value)) l : ∀ acc,
  Forall (λ e, steps R (f e)) l → steps R (lower_args f l acc).
Proof.
  induction l as [|e l IH]; intros acc Hl; simpl; [apply steps_ret|].
  apply Forall_cons in Hl as [He Hl].
  apply steps_bind; [done|]. intros [v|]; [by apply IH|apply steps_ret].
Qed.

End Steps.

#[global] Instance block_extends_preorder : PreOrder block_extends.
Proof.
  split.
  - intros b. by repeat split.
  - intros a b c (H1 & H2 & H3) (H4 & H5 & H6). split; [congruence|].
    split; [congruence|]. by etransitivity.
Qed.

#[global] Instance extends_preorder : PreOrder extends.
Proof.
  split.
  - intros st. split; [done|]. split; [|done]. intros i b Hb. exists b. split; [done|reflexivity].
  - intros a b c (H1 & H2 & H3) (H4 & H5 & H6). split; [by etransitivity|].
    split; [|lia]. intros i x Hx.
    destruct (H2 i x Hx) as (y & Hy & Hxy). destruct (H5 i y Hy) as (z & Hz & Hyz).
    exists z. split; [done|]. by etransitivity.
Qed.

#[global] Instance same_loop_preorder : PreOrder same_loop.
Proof.
  split; [done|]. intros a b c H1 H2. unfold same_loop in *. congruence.
Qed.

Lemma extends_blocks st bs :
  (∀ i b, blocks st !! i = Some b → ∃ b', bs !! i = Some b' ∧ block_extends b b') →
  extends st (set_blocks bs st).
Proof. intros H. split; [done|]. split; [done|simpl; lia]. Qed.

Lemma extends_insert i st :
  extends st (match InsertBlock st with
              | Some b => set_blocks (alter (append_inst i) b (blocks st)) st
              | None => st
              end).
Proof.
  destruct (InsertBlock st) as [b|]; [|reflexivity].
  apply extends_blocks. intros j x Hx.
  destruct (decide (b = j)) as [->|Hne].
  - exists (append_inst i x). split; [by rewrite list_lookup_alter_eq, Hx|].
    split; [done|]. split; [done|]. simpl. by apply prefix_app_r.
  - exists x. split; [by rewrite list_lookup_alter_ne|reflexivity].
Qed.

#[global] Instance extends_builder : BuilderRel extends.
Proof.
  split.
  - apply _.
  - intros st n Hn. split; [done|]. split; [|done]. intros i b Hb. exists b. split; [done|reflexivity].
  - intros st i b Hb. pose proof (extends_insert i st) as H. by rewrite Hb in H.
  - intros st bb. apply extends_blocks. intros i b Hb. exists b.
    split; [by apply lookup_app_l_Some|reflexivity].
  - intros st b. split; [done|]. split; [|done]. intros i x Hx. exists x. split; [done|reflexivity].
  - intros st g. split; [by apply prefix_app_r|]. split; [|done].
    intros i x Hx. exists x. split; [done|reflexivity].
  - intros st nv. split; [done|]. split; [|done]. intros i x Hx. exists x. split; [done|reflexivity].
Qed.

#[global] Instance same_loop_builder : BuilderRel same_loop.
Proof. split; [apply _|done..]. Qed.

Section Prims.
Context (R : State → State → Prop) `{!BuilderRel R}.

Lemma steps_fresh : steps R fresh.
Proof. intros st r st' [= <- <-]. apply R_next. lia. Qed.

Lemma steps_insert i : steps R (insert i).
Proof.
  apply steps_modify. intros st.
  destruct (InsertBlock st) eqn:E; [by apply R_insert|reflexivity].
Qed.

Lemma steps_BasicBlock_Create name parent : steps R (BasicBlock_Create name parent).
Proof. intros st r st' [= <- <-]. apply R_block. Qed.

Lemma steps_SetInsertPoint bb : steps R (SetInsertPoint bb).
Proof. apply steps_modify. intros st. apply R_point. Qed.

Lemma steps_add_global g : steps R (add_global g).
Proof. intros st r st' [= <- <-]. apply R_global. Qed.

Lemma steps_NamedValues_subscript Name : steps R (NamedValues_subscript Name).
Proof.
  intros st r st'. unfold NamedValues_subscript.
  destruct (NamedValues st !! Name); intros [= <- <-]; [reflexivity|apply R_names].
Qed.

Lemma steps_NamedValues_assign Name V : steps R (NamedValues_assign Name V).
Proof. apply steps_modify. intros st. apply R_names. Qed.

Lemma steps_NamedValues_erase Name : steps R (NamedValues_erase Name).
Proof. apply steps_modify. intros st. apply R_names. Qed.

Lemma steps_clear : steps R (modify (set_NamedValues ∅)).
Proof. apply steps_modify. intros st. apply R_names. Qed.

End Prims.

(** Decompose a generator made of binds, case distinctions and builder
    operations. *)
Ltac steps_auto :=
  repeat first
    [ assumption
    | apply steps_ret | apply steps_throw | apply steps_get
    | apply steps_fresh | apply steps_insert | apply steps_BasicBlock_Create
    | apply steps_SetInsertPoint | apply steps_add_global
    | apply steps_NamedValues_subscript | apply steps_NamedValues_assign
    | apply steps_NamedValues_erase | apply steps_clear
    | match goal with
      | |- steps ?R (for_each _ _) => apply (steps_for_each R); assumption
      | |- steps ?R (lower_args _ _ _) => apply (steps_lower_args R); assumption
      | H : ∀ _, steps _ _ |- _ => apply H
      | H : ∀ _ _, steps _ _ |- _ => apply H
      | H : ∀ _ _ _, steps _ _ |- _ => apply H
      | H : Forall _ (_ :: _) |- _ => apply Forall_cons in H as [? ?]
      end
    | match goal with
      | |- steps ?R (_ ≫= _) => apply (steps_bind R); [|intros ?]
      end
    | match goal with
      | |- PreOrder _ => apply _
      | |- BuilderRel _ => apply _
      | |- steps _ (if ?b then _ else _) => destruct b
      | |- steps _ (let '(_, _) := ?x in _) => destruct x
      | |- steps _ (match ?x with _ => _ end) => destruct x
      end
    | progress unfold CreateAlloca, CreateLoad, CreateStore, CreateAdd, CreateICmp,
        CreateBr, CreateCondBr, CreateRet, CreateRetVoid, CreateBitCast,
        CreateInsertValue, CreateExtractValue, CreateIntCast, CreateCall,
        Function_Create, GetInsertBlock_getParent, GetInsertBlock_getTerminator,
        some, branch_unless_terminated, declare, str_ptr ].

Section Composite.
Context (R : State → State → Prop) `{!BuilderRel R}.

Lemma getTypeFromString_unfold typeStr :
  getTypeFromString typeStr =
  if String.eqb typeStr "u8" || String.eqb typeStr "i8" then mret Int8Ty
  else if String.eqb typeStr "u16" || String.eqb typeStr "i16" then mret Int16Ty
  else if String.eqb typeStr "u32" || String.eqb typeStr "i32" then mret Int32Ty
  else if String.eqb typeStr "bool" then mret Int1Ty
  else if String.eqb typeStr "str" then mret slice_type
  else
    match typeStr with
    | String c0 (String c1 elementType) =>
        if Ascii.eqb c0 "[" && Ascii.eqb c1 "]" then
          elemType ← getTypeFromString elementType;
          mret slice_type
        else throw ("Unknown type: " +:+ typeStr)
    | _ => throw ("Unknown type: " +:+ typeStr)
    end.
Proof. by destruct typeStr. Qed.

Lemma steps_getTypeFromString typeStr : steps R (getTypeFromString typeStr).
Proof.
  enough (steps R (getTypeFromString typeStr)
          ∧ ∀ c, steps R (getTypeFromString (String c typeStr))) as [? _] by done.
  induction typeStr as [|d s [IH1 IH2]].
  - split; [|intros c]; rewrite getTypeFromString_unfold; steps_auto.
  - split; [apply IH2|]. intros c. rewrite getTypeFromString_unfold. steps_auto.
Qed.

End Composite.

Section CodegenSteps.
Context (R : State → State → Prop) `{!BuilderRel R}.
Context (R_continue : ∀ st b, R st (set_CurrentLoopContinue b st)).
Context (R_break : ∀ st b, R st (set_CurrentLoopBreak b st)).

Lemma steps_set_loop_context c b : steps R (set_loop_context c b).
Proof.
  unfold set_loop_context. apply (steps_bind R); [|intros _].
  - apply steps_modify. intros st. apply R_continue.
  - apply steps_modify. intros st. apply R_break.
Qed.

Lemma steps_codegen e : steps R (codegen e).
Proof.
  pose proof steps_set_loop_context as Hloop.
  pose proof (steps_getTypeFromString R) as Htype.
  induction e as [| | | | | | |? ? ? Init IH| | | | |] using ExprAST_nested_ind; simpl;
    unfold NumberExprAST_codegen, BooleanExprAST_codegen, StringLiteralExprAST_codegen,
      VariableExprAST_codegen, BinaryExprAST_codegen, CallExprAST_codegen,
      generatePrintCall, ReturnExprAST_codegen, VarDeclAST_codegen, IfExprAST_codegen,
      WhileExprAST_codegen, ForExprAST_codegen, BreakExprAST_codegen,
      ContinueExprAST_codegen;
    try (destruct Init; [specialize (IH _ eq_refl)|clear IH]);
    repeat match goal with
    | H : Forall _ (_ :: _) |- _ => apply Forall_cons in H as [? ?]
    end;
    steps_auto.
Qed.

Lemma steps_arg_types Args : steps R (arg_types Args).
Proof.
  pose proof (steps_getTypeFromString R) as Htype.
  induction Args as [|a Args IH]; simpl; steps_auto.
Qed.

Lemma steps_arg_slots Args : ∀ F Idx, steps R (arg_slots F Idx Args).
Proof.
  pose proof (steps_getTypeFromString R) as Htype.
  induction Args as [|a Args IH]; intros F Idx; simpl; steps_auto.
Qed.

End CodegenSteps.

Lemma extends_codegen e : steps extends (codegen e).
Proof.
  apply steps_codegen; [apply _| |].
  - intros st b. split; [done|]. split; [|done]. intros i x Hx. exists x. split; [done|reflexivity].
  - intros st b. split; [done|]. split; [|done]. intros i x Hx. exists x. split; [done|reflexivity].
Qed.

Lemma bind_Returned_inv {A B} (m : CG A) (k : A → CG B) st b st' :
  (m ≫= k) st = (Returned b, st') →
  ∃ a st1, m st = (Returned a, st1) ∧ k a st1 = (Returned b, st').
Proof.
  unfold mbind, CG_bind. destruct (m st) as [[a|msg] st1]; [eauto|done].
Qed.

Lemma extends_lookup_global st st' i g :
  extends st st' → TheModule st !! i = Some g → TheModule st' !! i = Some g.
Proof. intros (Hm & _) Hi. by eapply prefix_lookup_Some. Qed.

Lemma linkage_of_spec Fn :
  ((Name Fn = "main" ∨ isExtern Fn = true ∨ isExport Fn = true) →
     linkage_of Fn = ExternalLinkage)
  ∧ (¬ (Name Fn = "main" ∨ isExtern Fn = true ∨ isExport Fn = true) →
     linkage_of Fn = InternalLinkage).
Proof.
  unfold linkage_of.
  destruct (isExtern Fn), (isExport Fn), (String.eqb_spec (Name Fn) "main");
    simpl; split; first [done | tauto | intros [?|[?|?]]; congruence].
Qed.

(** C4 (linkage rule).  Whenever [FunctionAST::codegen] returns a function,
    that function is in the module under the name of the definition, with
    external linkage when the definition is named [main] or is marked
    [extern] or [export], and with internal linkage otherwise.  This holds
    whatever the verifier answers. *)
Theorem linkage_rule (verifyFunction : State → nat → bool) (Fn : FunctionAST)
    (st : State) (F : nat) (st' : State) :
  FunctionAST_codegen verifyFunction Fn st = (Returned F, st') →
  ∃ f, TheModule st' !! F = Some (GFunction f)
    ∧ fn_name f = Name Fn
    ∧ ((Name Fn = "main" ∨ isExtern Fn = true ∨ isExport Fn = true) →
         fn_linkage f = ExternalLinkage)
    ∧ (¬ (Name Fn = "main" ∨ isExtern Fn = true ∨ isExport Fn = true) →
         fn_linkage f = InternalLinkage).
Proof.
  unfold FunctionAST_codegen. intros H.
  apply bind_Returned_inv in H as (ArgTypes & st1 & _ & H).
  apply bind_Returned_inv in H as (RetType & st2 & _ & H).
  apply bind_Returned_inv in H as (F' & st3 & HF & H).
  injection HF as <- <-.
  set (f := mkFunction (Name Fn) RetType ArgTypes false (linkage_of Fn) CC_C (Args Fn).*1) in *.
  exists f. split; [|split; [done|apply linkage_of_spec]].
  assert (TheModule (set_TheModule (TheModule st2 ++ [GFunction f]) st2)
            !! length (TheModule st2) = Some (GFunction f)) as Hnew.
  { simpl. by rewrite lookup_app_r, Nat.sub_diag. }
  destruct (isExtern Fn).
  - injection H as <- <-. done.
  - assert (extends (set_TheModule (TheModule st2 ++ [GFunction f]) st2) st') as Hext; cycle 1.
    { repeat (apply bind_Returned_inv in H as (? & ? & _ & H)).
      injection H as <- <-. by eapply extends_lookup_global. }
    revert H. generalize (length (TheModule st2)) as F0. intros F0 H.
    assert (∀ F0, steps extends
      (BB ← BasicBlock_Create "entry" (Some F0);
       _ ← SetInsertPoint BB;
       _ ← modify (set_NamedValues ∅);
       _ ← arg_slots F0 0 (Args Fn);
       _ ← for_each codegen (Body Fn);
       t ← GetInsertBlock_getTerminator;
       _ ← (if String.eqb (ReturnType Fn) EmptyString && negb t
            then CreateRetVoid else mret tt);
       _ ← get (λ st, verifyFunction st F0);
       mret F0)) as Hrest.
    { intros F1. pose proof (steps_arg_slots extends) as Hslots.
      assert (Forall (λ e, steps extends (codegen e)) (Body Fn)) as Hbody.
      { apply Forall_forall. intros e _. apply extends_codegen. }
      steps_auto. }
    eapply Hrest. exact H.
Qed.

Lemma linkage_rule_witness :
  ∃ f, TheModule (FunctionAST_codegen verify_terminators main_function initial).2 !! 0
         = Some (GFunction f)
    ∧ fn_name f = "main"
    ∧ ((Name main_function = "main" ∨ isExtern main_function = true
        ∨ isExport main_function = true) → fn_linkage f = ExternalLinkage)
    ∧ (¬ (Name main_function = "main" ∨ isExtern main_function = true
          ∨ isExport main_function = true) → fn_linkage f = InternalLinkage).
Proof.
  apply (linkage_rule verify_terminators main_function initial 0). reflexivity.
Defined.

Lemma bind_ext {A B} (m : CG A) (k1 k2 : A → CG B) st :
  (∀ a st1, k1 a st1 = k2 a st1) → (m ≫= k1) st = (m ≫= k2) st.
Proof.
  intros H. unfold mbind, CG_bind. destruct (m st) as [[a|msg] st1]; [apply H|done].
Qed.

Lemma FunctionAST_codegen_verifier v1 v2 Fn st :
  FunctionAST_codegen v1 Fn st = FunctionAST_codegen v2 Fn st.
Proof.
  unfold FunctionAST_codegen.
  do 3 (apply bind_ext; intros ? ?). destruct (isExtern Fn); [done|].
  do 7 (apply bind_ext; intros ? ?). done.
Qed.

Lemma main_codegen_verifier v1 v2 fs : ∀ st, main_codegen v1 fs st = main_codegen v2 fs st.
Proof.
  induction fs as [|f fs IH]; intros st; [done|]. simpl.
  unfold mbind, CG_bind. rewrite (FunctionAST_codegen_verifier v1 v2).
  destruct (FunctionAST_codegen v2 f st) as [[a|msg] st1]; [apply IH|done].
Qed.

(** C5 (verification).  [FunctionAST::codegen] calls [llvm::verifyFunction]
    and drops what it answers: the generator of one function and of a whole
    program do the same under any two verifiers.  On [fn f() -> u32 { }] the
    front end yields a function whose entry block has no terminator; the
    generator returns normally on it although the verifier rejects function 0
    of the resulting module ([true] reports a broken function). *)
Theorem verification_verdict_unused :
  (∀ v1 v2 Fn st, FunctionAST_codegen v1 Fn st = FunctionAST_codegen v2 Fn st)
  ∧ (∀ v1 v2 fs st, main_codegen v1 fs st = main_codegen v2 fs st)
  ∧ front_end "fn f() -> u32 { }" = Ok [unterminated_function]
  ∧ (main_codegen verify_terminators [unterminated_function] initial).1 = Returned tt
  ∧ verify_terminators
      (main_codegen verify_terminators [unterminated_function] initial).2 0 = true.
Proof.
  split; [exact FunctionAST_codegen_verifier|]. split; [exact main_codegen_verifier|].
  split; [by vm_compute|]. split; by vm_compute.
Qed.

(** C10 (lookup of an unknown variable).  Lowering a reference to a name that
    [NamedValues] does not hold throws [Unknown variable name: <name>], and
    the state it throws from is the old one with the name bound to the null
    pointer: [NamedValues[Name]] has inserted the binding, so the state has
    changed. *)
Theorem unknown_variable_inserts_null (Name : string) (st : State) :
  NamedValues st !! Name = None →
  codegen (VariableExprAST Name) st
    = (Thrown ("Unknown variable name: " +:+ Name),
       set_NamedValues (<[Name := None]> (NamedValues st)) st)
  ∧ NamedValues (codegen (VariableExprAST Name) st).2 !! Name = Some None
  ∧ (codegen (VariableExprAST Name) st).2 ≠ st.
Proof.
  intros Hno.
  assert (codegen (VariableExprAST Name) st
    = (Thrown ("Unknown variable name: " +:+ Name),
       set_NamedValues (<[Name := None]> (NamedValues st)) st)) as E.
  { simpl. unfold VariableExprAST_codegen, mbind, CG_bind, NamedValues_subscript.
    by rewrite Hno. }
  split; [done|]. rewrite E. simpl. split; [by rewrite lookup_insert_eq|].
  intros Heq. apply (f_equal NamedValues) in Heq. simpl in Heq.
  apply (f_equal (λ m, m !! Name)) in Heq. rewrite lookup_insert_eq in Heq. congruence.
Qed.

Lemma unknown_variable_inserts_null_witness :
  codegen (VariableExprAST "x") initial
    = (Thrown ("Unknown variable name: " +:+ "x"),
       set_NamedValues (<["x" := None]> (NamedValues initial)) initial)
  ∧ NamedValues (codegen (VariableExprAST "x") initial).2 !! "x" = Some None
  ∧ (codegen (VariableExprAST "x") initial).2 ≠ initial.
Proof. apply (unknown_variable_inserts_null "x" initial). reflexivity. Defined.













Lemma extends_lookup_block st st' i b :
  extends st st' → blocks st !! i = Some b →
  ∃ b' post, blocks st' !! i = Some b' ∧ bb_name b' = bb_name b
    ∧ bb_insts b' = bb_insts b ++ post.
Proof.
  intros (_ & Hb & _) Hi. destruct (Hb i b Hi) as (b' & Hb' & Hn & _ & [post Hp]).
  by exists b', post.
Qed.

(** What inserting at a known insertion point does. *)
Lemma insert_spec i st n b r st' :
  insert i st = (r, st') → InsertBlock st = Some n → blocks st !! n = Some b →
  InsertBlock st' = Some n ∧ blocks st' !! n = Some (append_inst i b).
Proof.
  unfold insert, modify. intros [= <- <-] Hn Hb. rewrite Hn. simpl.
  split; [done|]. by rewrite list_lookup_alter_eq, Hb.
Qed.

Lemma emit_spec {A} (I : nat → Instruction) (V : nat → A) st n b a st' :
  (id ← fresh; _ ← insert (I id); mret (V id)) st = (Returned a, st') →
  InsertBlock st = Some n → blocks st !! n = Some b →
  a = V (next_id st) ∧ InsertBlock st' = Some n
  ∧ blocks st' !! n = Some (append_inst (I (next_id st)) b).
Proof.
  intros H Hn Hb.
  apply bind_Returned_inv in H as (id & s1 & [= <- <-] & H).
  apply bind_Returned_inv in H as ([] & s2 & Hi & [= <- <-]).
  split; [done|]. by apply (insert_spec _ _ n b) in Hi.
Qed.

Lemma extends_set_loop_context c b : steps extends (set_loop_context c b).
Proof.
  apply steps_set_loop_context; [apply _| |]; intros st x;
    (split; [done|]; split; [|done]; intros i y Hy; exists y; split; [done|reflexivity]).
Qed.

Lemma binary_comparison Op pred LHS RHS st L st1 R st2 :
  (Op, pred) ∈ ordering_predicates →
  codegen LHS st = (Returned (Some L), st1) →
  codegen RHS st1 = (Returned (Some R), st2) →
  codegen (BinaryExprAST Op LHS RHS) st
  = (Returned (Some (InstValue (next_id st2) (IntegerTy 1))),
     emitted (λ id, ICmp id pred L R "cmptmp") st2).
Proof.
  intros Hop HL HR. simpl. unfold BinaryExprAST_codegen, mbind at 1, CG_bind at 1.
  rewrite HL. unfold mbind at 1, CG_bind at 1. rewrite HR.
  unfold ordering_predicates in Hop.
  repeat (apply elem_of_cons in Hop as [[= -> ->]|Hop]; [reflexivity|]).
  by apply elem_of_nil in Hop.
Qed.



(** In the nested loops each [break] branches to the after-block of its own
    loop: the inner one (block 6) and the outer one (block 3). *)
Example nested_loops_targets :
  bb_insts <$> blocks (codegen nested_loops in_entry).2
  = [ [Br 1];
      [ICmp 0 ICMP_NE (ConstantInt (IntegerTy 1) 1 false)
          (ConstantInt (IntegerTy 1) 0 false) "whilecond";
       CondBr (InstValue 0 (IntegerTy 1)) 2 3];
      [Br 4];
      [];
      [ICmp 1 ICMP_NE (ConstantInt (IntegerTy 1) 1 false)
          (ConstantInt (IntegerTy 1) 0 false) "whilecond";
       CondBr (InstValue 1 (IntegerTy 1)) 5 6];
      [Br 6];
      [Br 3] ].
Proof. vm_compute. reflexivity. Qed.

Section CodegenWhole.
Context (R : State → State → Prop) `{!BuilderRel R}.
Context (R_continue : ∀ st b, R st (set_CurrentLoopContinue b st)).
Context (R_break : ∀ st b, R st (set_CurrentLoopBreak b st)).

Lemma steps_FunctionAST_codegen v Fn : steps R (FunctionAST_codegen v Fn).
Proof.
  pose proof (steps_getTypeFromString R) as Htype.
  pose proof (steps_arg_types R) as Hargs.
  pose proof (steps_arg_slots R) as Hslots.
  pose proof (steps_codegen R R_continue R_break) as Hcodegen.
  assert (steps R (for_each codegen (Body Fn))) as Hbody.
  { apply (steps_for_each R). apply Forall_forall. intros e _. apply Hcodegen. }
  unfold FunctionAST_codegen. steps_auto.
Qed.

Lemma steps_main_codegen v fs : steps R (main_codegen v fs).
Proof.
  pose proof (steps_FunctionAST_codegen v) as Hfn.
  induction fs as [|f fs IH]; simpl; steps_auto.
Qed.

End CodegenWhole.

Lemma extends_loop_continue st b : extends st (set_CurrentLoopContinue b st).
Proof. split; [done|]. split; [|done]. intros i x Hx. exists x. split; [done|reflexivity]. Qed.

Lemma extends_loop_break st b : extends st (set_CurrentLoopBreak b st).
Proof. split; [done|]. split; [|done]. intros i x Hx. exists x. split; [done|reflexivity]. Qed.

(** X14 (nothing is taken back).  Lowering an expression, a function or a
    whole program only adds to what has been generated: the globals of the
    module stay where they are and new ones come behind them, every basic
    block keeps its name, its function and the instructions it holds and
    gets new instructions at its end only, and the counter of value numbers
    does not go down.  This holds for the runs that throw as well. *)
Theorem generation_only_appends :
  (∀ e st r st', codegen e st = (r, st') → extends st st')
  ∧ (∀ v Fn st r st', FunctionAST_codegen v Fn st = (r, st') → extends st st')
  ∧ (∀ v fs st r st', main_codegen v fs st = (r, st') → extends st st').
Proof.
  split; [|split].
  - intros e. apply extends_codegen.
  - intros v Fn.
    apply (steps_FunctionAST_codegen extends extends_loop_continue extends_loop_break).
  - intros v fs.
    apply (steps_main_codegen extends extends_loop_continue extends_loop_break).
Qed.

Lemma getTypeFromString_slice s :
  getTypeFromString ("[]" +:+ s) = (elemType ← getTypeFromString s; mret slice_type).
Proof. rewrite getTypeFromString_unfold. reflexivity. Qed.

(** [getTypeFromString] reads the context only. *)
Lemma getTypeFromString_pure s : ∀ st, (getTypeFromString s st).2 = st.
Proof.
  enough ((∀ st, (getTypeFromString s st).2 = st)
          ∧ ∀ c st, (getTypeFromString (String c s) st).2 = st) as [? _] by done.
  induction s as [|c0 s [IH1 IH2]].
  - split; [|intros c]; intros st; rewrite getTypeFromString_unfold;
      repeat case_match; done.
  - split; [apply IH2|]. intros c st. rewrite getTypeFromString_unfold.
    repeat case_match; try done.
    unfold mbind, CG_bind. specialize (IH1 st).
    destruct (getTypeFromString s st) as [[?|?] ?]; simpl in *; done.
Qed.

Lemma getTypeFromString_slices (k : nat) (base : string) (st : State) :
  getTypeFromString (slice_name k base) st
  = (match (getTypeFromString base st).1 with
     | Returned T => Returned (match k with 0 => T | S _ => slice_type end)
     | Thrown msg => Thrown msg
     end, st).
Proof.
  pose proof (getTypeFromString_pure base st) as Hst.
  induction k as [|k IH].
  - simpl. destruct (getTypeFromString base st) as [[T|msg] st1]; simpl in *; by subst.
  - change (slice_name (S k) base) with ("[]" +:+ slice_name k base).
    rewrite getTypeFromString_slice. unfold mbind, CG_bind. rewrite IH.
    destruct (getTypeFromString base st) as [[T|msg] st1]; simpl; done.
Qed.

Lemma primitive_types_known (name : string) :
  Lexer.keyword name = TOK_TYPE ↔ ∃ T, (name, T) ∈ primitive_types.
Proof.
  split.
  - unfold Lexer.keyword. intros H.
    repeat match type of H with
    | context [String.eqb name ?x] =>
        destruct (String.eqb_spec name x) as [E|?];
        [first [ by (simpl in H; discriminate H)
               | rewrite E; eexists; unfold primitive_types;
                 by repeat first [apply list_elem_of_here | apply list_elem_of_further] ]|]
    end.
    simpl in H. discriminate H.
  - intros [T H]. unfold primitive_types in H.
    repeat (apply elem_of_cons in H as [[= -> ->]|H]; [reflexivity|]).
    by apply elem_of_nil in H.
Qed.

Lemma primitive_lowers name T st :
  (name, T) ∈ primitive_types → getTypeFromString name st = (Returned T, st).
Proof.
  intros H. unfold primitive_types in H.
  repeat (apply elem_of_cons in H as [[= -> ->]|H]; [reflexivity|]).
  by apply elem_of_nil in H.
Qed.

Lemma written_type_slice s : written_type s → written_type ("[]" +:+ s).
Proof. intros (k & base & -> & Hb). by exists (S k), base. Qed.

Lemma lowered_is_written s :
  ∀ st T st', getTypeFromString s st = (Returned T, st') → written_type s.
Proof.
  enough ((∀ st T st', getTypeFromString s st = (Returned T, st') → written_type s)
          ∧ ∀ c st T st', getTypeFromString (String c s) st = (Returned T, st')
                          → written_type (String c s)) as [? _] by done.
  assert (∀ name, (∃ T, (name, T) ∈ primitive_types) → written_type name) as Hprim.
  { intros name H. exists 0, name. split; [done|]. by apply primitive_types_known. }
  assert (∀ name st T st', getTypeFromString name st = (Returned T, st') →
            written_type name
            ∨ ∃ elementType T' st1, name = "[]" +:+ elementType
                ∧ getTypeFromString elementType st = (Returned T', st1)) as Hstep.
  { intros name st T st'. rewrite getTypeFromString_unfold.
    repeat match goal with
    | |- context [String.eqb name ?x] =>
        destruct (String.eqb_spec name x) as [E|?];
        [intros _; left; apply Hprim; rewrite E; eexists; unfold primitive_types;
         by repeat first [apply list_elem_of_here | apply list_elem_of_further]|]
    end.
    simpl. destruct name as [|c [|c0 elementType]]; try done.
    destruct (Ascii.eqb_spec c "[") as [->|?]; [|done].
    destruct (Ascii.eqb_spec c0 "]") as [->|?]; [|done]. simpl.
    intros H. apply bind_Returned_inv in H as (T' & st1 & H & _).
    right. by exists elementType, T', st1. }
  induction s as [|c0 s [IH1 IH2]].
  - split; [|intros c]; intros st T st' H;
      apply Hstep in H as [H|(e & T' & st1 & E & _)]; done.
  - split; [apply IH2|]. intros c st T st' H.
    apply Hstep in H as [H|(e & T' & st1 & E & H)]; [done|].
    injection E as -> -> ->. apply written_type_slice. by eapply IH1.
Qed.

Lemma written_lowers name st :
  written_type name → ∃ T, getTypeFromString name st = (Returned T, st).
Proof.
  intros (k & base & -> & Hb). apply primitive_types_known in Hb as [T HT].
  rewrite getTypeFromString_slices, (primitive_lowers _ _ _ HT). simpl. by eexists.
Qed.

(** X15 (the types of the scanner are the types of the generator).
    [getTypeFromString] returns a type exactly for the names that are a type
    keyword of the scanner under any number of [[]] prefixes, and throws on
    every other name; it leaves the state as it is.  So the scanner and the
    code generator agree on what a type is. *)
Theorem types_agree (name : string) (st : State) :
  (∃ T, getTypeFromString name st = (Returned T, st)) ↔ written_type name.
Proof.
  split.
  - intros [T H]. by eapply lowered_is_written.
  - apply written_lowers.
Qed.

Lemma arg_types_written args st :
  Forall (λ a : string * string, written_type a.2) args →
  ∃ tys, arg_types args st = (Returned tys, st).
Proof.
  induction 1 as [|a args Ha _ [tys IH]]; simpl; [by eexists|].
  destruct (written_lowers _ st Ha) as [T HT].
  unfold mbind, CG_bind. rewrite HT, IH. by eexists.
Qed.

(** X16 (parsed types are lowered).  Every type name that [parseType] returns
    on a token vector of the scanner is one that [getTypeFromString] lowers:
    the error for an unknown type cannot be reached from source text. *)
Theorem parsed_types_lower (source : list ascii) (s : Lexer.State)
    (cur : nat) (ty : string) (cur' : nat) (st : State) :
  Lexer.scanTokens source = Ok s →
  Parser.parseType (Lexer.tokens s) cur = Ok (ty, cur') →
  ∃ T, getTypeFromString ty st = (Returned T, st).
Proof.
  intros Hs Hty. apply scanTokens_well_formed in Hs.
  apply (parseType_written _ Hs) in Hty. by apply written_lowers.
Qed.

Lemma parsed_types_lower_witness :
  ∃ T, getTypeFromString "[]u8" initial = (Returned T, initial).
Proof.
  apply (parsed_types_lower (bytes "[]u8") (Lexer.mkState 4 1 (scanned "[]u8") [])
           0 "[]u8" 3 initial).
  - vm_compute. reflexivity.
  - vm_compute. reflexivity.
Defined.

(** X17 (signatures are lowered).  For every function the front end returns,
    the code generator lowers each parameter type and the return type, if
    one is written, without an error and without a change of its state. *)
Theorem signatures_lower (source : string) (fs : list FunctionAST) :
  front_end source = Ok fs →
  ∀ f, f ∈ fs →
    (∀ st, ∃ tys, arg_types (Args f) st = (Returned tys, st))
    ∧ (ReturnType f = EmptyString
       ∨ ∀ st, ∃ T, getTypeFromString (ReturnType f) st = (Returned T, st)).
Proof.
  intros H f Hf. apply front_end_written in H.
  rewrite Forall_forall in H. destruct (H f Hf) as [Hargs Hret]. split.
  - intros st. by apply arg_types_written.
  - destruct Hret as [?|Hret]; [by left|right]. intros st. by apply written_lowers.
Qed.

Lemma signatures_lower_witness :
  (∀ st, ∃ tys, arg_types [("a", "u8"); ("b", "[]str")] st = (Returned tys, st))
  ∧ ("bool" = EmptyString
     ∨ ∀ st, ∃ T, getTypeFromString "bool" st = (Returned T, st)).
Proof.
  apply (signatures_lower "fn f(a: u8, b: []str) -> bool { }"
           [mkFunctionAST "f" [("a", "u8"); ("b", "[]str")] "bool" [] false false]
           eq_refl
           (mkFunctionAST "f" [("a", "u8"); ("b", "[]str")] "bool" [] false false)).
  apply list_elem_of_here.
Defined.

Lemma bind_Thrown_inv {A B} (m : CG A) (k : A → CG B) st msg st' :
  (m ≫= k) st = (Thrown msg, st') →
  m st = (Thrown msg, st') ∨ ∃ a st1, m st = (Returned a, st1) ∧ k a st1 = (Thrown msg, st').
Proof.
  unfold mbind, CG_bind. destruct (m st) as [[a|m'] st1]; [eauto|].
  intros [= <- <-]. by left.
Qed.



(** X19 (print with a format).  A call of [printf], or of [print] or
    [println] with no argument or with more than one, throws
    [Complex print formatting not yet implemented] before it lowers any
    argument: the symbol table and the basic blocks are as they were (the
    declarations of [printf] and [puts] may have been added to the
    module). *)
Theorem print_formatting_unsupported (Callee : string) (Args : list ExprAST) (st : State) :
  Callee ∈ print_builtins →
  Callee = "printf" ∨ length Args ≠ 1 →
  ∃ st', codegen (CallExprAST Callee Args) st
         = (Thrown "Complex print formatting not yet implemented", st')
    ∧ NamedValues st' = NamedValues st ∧ blocks st' = blocks st.
Proof.
  intros Hin Hcase. simpl. unfold CallExprAST_codegen.
  assert (String.eqb Callee "print" || String.eqb Callee "println"
          || String.eqb Callee "printf" = true) as ->.
  { unfold print_builtins in Hin.
    repeat (apply elem_of_cons in Hin as [->|Hin]; [reflexivity|]).
    by apply elem_of_nil in Hin. }
  unfold generatePrintCall, mbind at 1, CG_bind at 1.
  assert (∀ name vararg st0, ∃ F st1, declare name vararg st0 = (Returned F, st1)
            ∧ NamedValues st1 = NamedValues st0 ∧ blocks st1 = blocks st0) as Hdecl.
  { intros name vararg st0. unfold declare, mbind, CG_bind, get.
    destruct (getFunction name (TheModule st0)) as [[i f]|]; eexists _, _; done. }
  destruct (Hdecl "printf" true st) as (F1 & st1 & -> & Hn1 & Hb1).
  unfold mbind at 1, CG_bind at 1.
  destruct (Hdecl "puts" false st1) as (F2 & st2 & -> & Hn2 & Hb2).
  exists st2. split; [|split; congruence].
  destruct Hcase as [->|Hlen].
  - destruct Args as [|? [|? ?]]; done.
  - destruct Args as [|? [|? ?]]; done.
Qed.

Lemma yields_ret {A} (Q : A → Prop) a : Q a → yields Q (mret a).
Proof. intros H st a' st' [= <- _]. done. Qed.

Lemma yields_throw {A} (Q : A → Prop) msg : yields Q (throw msg).
Proof. intros st a st' [=]. Qed.

Lemma yields_bind {A B} (P : A → Prop) (Q : B → Prop) (m : CG A) (k : A → CG B) :
  yields P m → (∀ a, P a → yields Q (k a)) → yields Q (m ≫= k).
Proof.
  intros Hm Hk st b st' H. apply bind_Returned_inv in H as (a & st1 & Ha & H).
  eapply Hk; [|done]. by eapply Hm.
Qed.

Lemma yields_bind_any {A B} (Q : B → Prop) (m : CG A) (k : A → CG B) :
  (∀ a, yields Q (k a)) → yields Q (m ≫= k).
Proof. intros Hk. apply (yields_bind (λ _, True)); [done|]. intros a _. apply Hk. Qed.

Lemma yields_some (m : CG Value) : yields non_null (some m).
Proof.
  unfold some. apply yields_bind_any. intros a. by apply yields_ret.
Qed.

Lemma yields_lower_args (f : ExprAST → CG (option Value)) l :
  Forall (λ e, yields non_null (f e)) l →
  ∀ acc, yields non_null (lower_args f l acc).
Proof.
  induction 1 as [|e l He Hl IH]; intros acc; simpl; [by apply yields_ret|].
  apply (yields_bind non_null); [done|]. intros [V|] HV; [apply IH|done].
Qed.

Ltac yields_auto :=
  repeat first
    [ by apply yields_ret
    | apply yields_throw
    | apply yields_some
    | match goal with
      | H : Forall _ (_ :: _) |- _ => apply Forall_cons in H as [? ?]
      | H : yields non_null ?m |- yields _ (?m ≫= _) =>
          apply (yields_bind non_null); [exact H|];
          let v := fresh "v" in let Hv := fresh "Hv" in
          intros [v|] Hv; [|by destruct Hv]
      | H : Forall _ ?l |- yields _ (lower_args _ ?l _ ≫= _) =>
          apply (yields_bind non_null); [by apply yields_lower_args|];
          let v := fresh "v" in let Hv := fresh "Hv" in
          intros [v|] Hv; [|by destruct Hv]
      | |- yields _ (_ ≫= _) => apply yields_bind_any; intros ?
      | |- yields _ (if ?b then _ else _) => destruct b
      | |- yields _ (match ?x with _ => _ end) => destruct x
      end ].

Lemma print_formatting_unsupported_witness :
  ∃ st', codegen (CallExprAST "printf" []) initial
         = (Thrown "Complex print formatting not yet implemented", st')
    ∧ NamedValues st' = NamedValues initial ∧ blocks st' = blocks initial.
Proof.
  apply (print_formatting_unsupported "printf" [] initial).
  - do 2 apply list_elem_of_further. apply list_elem_of_here.
  - left. reflexivity.
Defined.

Lemma codegen_non_null e : yields non_null (codegen e).
Proof.
  induction e as [| | | | | | |? ? ? Init IH| | | | |] using ExprAST_nested_ind; simpl;
    unfold NumberExprAST_codegen, BooleanExprAST_codegen, StringLiteralExprAST_codegen,
      VariableExprAST_codegen, BinaryExprAST_codegen, CallExprAST_codegen,
      generatePrintCall, ReturnExprAST_codegen, VarDeclAST_codegen, IfExprAST_codegen,
      WhileExprAST_codegen, ForExprAST_codegen, BreakExprAST_codegen,
      ContinueExprAST_codegen, dummy;
    try (destruct Init; [specialize (IH _ eq_refl)|clear IH]);
    repeat match goal with
    | H : Forall _ (_ :: _) |- _ => apply Forall_cons in H as [? ?]
    end;
    yields_auto.
Qed.

(** X20 (no null result).  [codegen] never returns the null pointer: a node
    that does not throw returns a value, for every node and in every state.
    (The checks for a null operand in the generator never fire; a failure
    inside a node is an exception.) *)
Theorem codegen_never_null (e : ExprAST) (st st' : State) :
  codegen e st ≠ (Returned None, st').
Proof. intros E. by apply codegen_non_null in E. Qed.

Lemma codegen_never_null_witness :
  codegen BreakExprAST in_entry ≠ (Returned None, in_entry).
Proof. exact (codegen_never_null BreakExprAST in_entry in_entry). Defined.

(** Lowering a type name, and a list of parameter types, reads nothing of
    the state and leaves it as it is. *)
Lemma getTypeFromString_indep s : ∀ st,
  getTypeFromString s st = ((getTypeFromString s initial).1, st).
Proof.
  enough ((∀ st, getTypeFromString s st = ((getTypeFromString s initial).1, st))
          ∧ ∀ c st, getTypeFromString (String c s) st
                    = ((getTypeFromString (String c s) initial).1, st)) as [? _] by done.
  induction s as [|c0 s [IH1 IH2]].
  - split; [|intros c]; intros st; rewrite getTypeFromString_unfold;
      repeat case_match; done.
  - split; [apply IH2|]. intros c st. rewrite getTypeFromString_unfold.
    repeat case_match; try done.
    unfold mbind, CG_bind. rewrite (IH1 st).
    destruct (getTypeFromString s initial) as [[?|?] ?]; done.
Qed.

Lemma arg_types_indep Args : ∀ st,
  arg_types Args st = ((arg_types Args initial).1, st).
Proof.
  induction Args as [|a Args IH]; intros st; simpl; [done|].
  unfold mbind, CG_bind.
  rewrite (getTypeFromString_indep a.2 st), (getTypeFromString_indep a.2 initial).
  destruct (getTypeFromString a.2 initial).1; [|done].
  rewrite (IH st). destruct (arg_types Args initial) as [[?|?] ?]; done.
Qed.

(** The state in which [FunctionAST::codegen] starts on the parameters and
    the body: the function and its entry block are there, the builder is in
    the entry block and [NamedValues] is empty. *)
Lemma FunctionAST_codegen_entry v Fn st :
  isExtern Fn = false →
  ∀ tys RetType,
  (arg_types (Args Fn) initial).1 = Returned tys →
  ((if String.eqb (ReturnType Fn) EmptyString then mret VoidTy
    else getTypeFromString (ReturnType Fn)) initial).1 = Returned RetType →
  FunctionAST_codegen v Fn st
  = (let F := length (TheModule st) in
     _ ← arg_slots F 0 (Args Fn);
     _ ← for_each codegen (Body Fn);
     t ← GetInsertBlock_getTerminator;
     _ ← (if String.eqb (ReturnType Fn) EmptyString && negb t
          then CreateRetVoid else mret tt);
     _ ← get (λ st, v st F);
     mret F)
    (mkState
       (TheModule st ++ [GFunction (mkFunction (Name Fn) RetType tys false (linkage_of Fn)
                                      CC_C (Args Fn).*1)])
       (blocks st ++ [mkBasicBlock "entry" (Some (length (TheModule st))) []])
       (Some (length (blocks st))) (next_id st) ∅
       (CurrentLoopContinue st) (CurrentLoopBreak st)).
Proof.
  intros Hext tys RetType Htys Hret. unfold FunctionAST_codegen.
  unfold mbind at 1, CG_bind at 1. rewrite arg_types_indep, Htys.
  unfold mbind at 1, CG_bind at 1.
  assert ((if String.eqb (ReturnType Fn) EmptyString then mret VoidTy
           else getTypeFromString (ReturnType Fn)) st = (Returned RetType, st)) as ->.
  { destruct (String.eqb (ReturnType Fn) EmptyString).
    - simpl in Hret. by injection Hret as <-.
    - by rewrite getTypeFromString_indep, Hret. }
  rewrite Hext. reflexivity.
Qed.

(** X21 (names are local to a function).  [FunctionAST::codegen] clears
    [NamedValues] before it binds the parameters of a function with a body:
    whatever the map held when the function is reached, the function is
    lowered to the same result and the same state.  (When the signature
    cannot be lowered, the same error is thrown and the state is left as it
    was.) *)
Theorem function_names_local (v : State → nat → bool) (Fn : FunctionAST)
    (nv : gmap string (option Value)) (st : State) :
  isExtern Fn = false →
  FunctionAST_codegen v Fn (set_NamedValues nv st) = FunctionAST_codegen v Fn st
  ∨ ∃ msg, FunctionAST_codegen v Fn st = (Thrown msg, st)
      ∧ FunctionAST_codegen v Fn (set_NamedValues nv st) = (Thrown msg, set_NamedValues nv st).
Proof.
  intros Hext.
  destruct (arg_types (Args Fn) initial).1 as [tys|msg] eqn:Htys.
  2:{ right. exists msg.
      split; unfold FunctionAST_codegen, mbind at 1, CG_bind at 1;
        [rewrite (arg_types_indep _ st)|rewrite (arg_types_indep _ (set_NamedValues nv st))];
        by rewrite Htys. }
  destruct ((if String.eqb (ReturnType Fn) EmptyString then mret VoidTy
             else getTypeFromString (ReturnType Fn)) initial).1 as [RetType|msg] eqn:Hret.
  2:{ right. exists msg.
      split; unfold FunctionAST_codegen, mbind at 1, CG_bind at 1;
        [rewrite (arg_types_indep _ st)|rewrite (arg_types_indep _ (set_NamedValues nv st))];
        rewrite Htys; unfold mbind at 1, CG_bind at 1;
        (destruct (String.eqb (ReturnType Fn) EmptyString); [done|]);
        [rewrite (getTypeFromString_indep _ st)
        |rewrite (getTypeFromString_indep _ (set_NamedValues nv st))];
        by rewrite Hret. }
  left.
  rewrite (FunctionAST_codegen_entry v Fn st Hext tys RetType Htys Hret).
  by rewrite (FunctionAST_codegen_entry v Fn _ Hext tys RetType Htys Hret).
Qed.

Lemma function_names_local_witness :
  FunctionAST_codegen (λ _ _, false) main_function
    (set_NamedValues (<["x" := None]> ∅) initial)
  = FunctionAST_codegen (λ _ _, false) main_function initial
  ∨ ∃ msg, FunctionAST_codegen (λ _ _, false) main_function initial = (Thrown msg, initial)
      ∧ FunctionAST_codegen (λ _ _, false) main_function
          (set_NamedValues (<["x" := None]> ∅) initial)
        = (Thrown msg, set_NamedValues (<["x" := None]> ∅) initial).
Proof.
  apply (function_names_local (λ _ _, false) main_function (<["x" := None]> ∅) initial).
  reflexivity.
Defined.

(** X22 (the range of a for loop).  When the two ends of the range have
    different types and one of them is not an integer type, the loop throws
    [Type mismatch in for loop range] right after it has lowered the two
    ends.  When the loop returns, the condition block compares the loaded
    variable, signed, with the end of the range, or, if the types differ,
    with the end converted to the type of the start; that conversion is a
    signed integer cast, emitted where the builder stood after the two ends
    were lowered. *)
Theorem for_range_conversion (VarName : string) (Start End_ : ExprAST)
    (Body : list ExprAST) (st : State) (StartVal : Value) (st1 : State)
    (EndVal : Value) (st2 : State) :
  codegen Start st = (Returned (Some StartVal), st1) →
  codegen End_ st1 = (Returned (Some EndVal), st2) →
  (getType EndVal ≠ getType StartVal →
   isIntegerTy (getType StartVal) && isIntegerTy (getType EndVal) = false →
   codegen (ForExprAST VarName Start End_ Body) st
   = (Thrown "Type mismatch in for loop range", st2))
  ∧ ∀ r st', codegen (ForExprAST VarName Start End_ Body) st = (Returned r, st') →
      (∃ CondBB bb pre post idl idc ids LoopBB AfterBB,
        blocks st' !! CondBB = Some bb ∧ bb_name bb = "forcond"
        ∧ bb_insts bb
          = pre ++ [Load idl (getType StartVal) (AllocaInst ids (getType StartVal)) VarName;
                    ICmp idc ICMP_SLT (InstValue idl (getType StartVal))
                      (for_bound StartVal EndVal st2) "forcond";
                    CondBr (InstValue idc (IntegerTy 1)) LoopBB AfterBB] ++ post)
      ∧ (getType EndVal ≠ getType StartVal →
         ∀ n b, InsertBlock st2 = Some n → blocks st2 !! n = Some b →
         ∃ b' post, blocks st' !! n = Some b'
           ∧ bb_insts b'
             = bb_insts b
               ++ IntCast (next_id st2) EndVal (getType StartVal) true "endcast" :: post).
Proof.
  intros HS HE.
  assert (∀ A (k : option nat → option Value → option Value → CG A),
    (TheFunction ← GetInsertBlock_getParent;
     StartVal ← codegen Start;
     EndVal ← codegen End_;
     k TheFunction StartVal EndVal) st
    = k (ib ← InsertBlock st; bb ← blocks st !! ib; bb_parent bb)
        (Some StartVal) (Some EndVal) st2) as Hstart.
  { intros A k. unfold mbind at 1, CG_bind at 1, GetInsertBlock_getParent at 1, get at 1.
    unfold mbind at 1, CG_bind at 1. rewrite HS.
    unfold mbind at 1, CG_bind at 1. by rewrite HE. }
  simpl. unfold ForExprAST_codegen. rewrite Hstart. clear Hstart.
  set (TheFunction := ib ← InsertBlock st; bb ← blocks st !! ib; bb_parent bb).
  pose proof extends_set_loop_context as Hloop.
  assert (Forall (λ e, steps extends (codegen e)) Body) as Hbody.
  { apply Forall_forall. intros e _. apply extends_codegen. }
  assert (∀ A (m : CG A), steps extends m → ∀ s x s', m s = (x, s') → extends s s') as Hs
    by (intros A m Hm; exact Hm).
  split.
  - intros Hne Hint. unfold mbind at 1, CG_bind at 1.
    rewrite bool_decide_eq_true_2 by done. by rewrite Hint.
  - intros r st' H.
    apply bind_Returned_inv in H as (EndVal' & st3 & E3 & H).
    assert (extends st3 st') as Hafter.
    { revert H. apply Hs. steps_auto. }
    assert (EndVal' = for_bound StartVal EndVal st2
            ∧ (getType EndVal ≠ getType StartVal →
               ∀ n b, InsertBlock st2 = Some n → blocks st2 !! n = Some b →
               blocks st3 !! n
               = Some (append_inst
                         (IntCast (next_id st2) EndVal (getType StartVal) true "endcast") b)))
      as [-> Hcast].
    { unfold for_bound. case_bool_decide as Hne.
      - destruct (isIntegerTy (getType StartVal) && isIntegerTy (getType EndVal)); [|done].
        split.
        + unfold CreateIntCast in E3.
          apply bind_Returned_inv in E3 as (id & s1 & [= <- <-] & E3).
          by apply bind_Returned_inv in E3 as ([] & s2 & _ & [= <- <-]).
        + intros _ n b Hn Hb. unfold CreateIntCast in E3.
          by eapply (emit_spec _ _ _ n b) in E3 as (_ & _ & ?).
      - injection E3 as <- <-. split; [done|]. intros Hne'. by destruct Hne. }
    split.
    2:{ intros Hne n b Hn Hb. specialize (Hcast Hne n b Hn Hb).
        destruct (extends_lookup_block _ _ _ _ Hafter Hcast) as (b' & post & Hb' & _ & Hi).
        exists b', post. split; [done|]. rewrite Hi. simpl. by rewrite <- app_assoc. }
    clear Hcast Hafter.
    apply bind_Returned_inv in H as (Alloca & st4 & E4 & H).
    assert (∃ ids, Alloca = AllocaInst ids (getType StartVal)) as [ids ->].
    { unfold CreateAlloca in E4.
      apply bind_Returned_inv in E4 as (id & s1 & _ & E4).
      apply bind_Returned_inv in E4 as ([] & s2 & _ & [= <- <-]). by eexists. }
    apply bind_Returned_inv in H as (? & st5 & _ & H).
    apply bind_Returned_inv in H as (OldVal & st6 & _ & H).
    apply bind_Returned_inv in H as (? & st7 & _ & H).
    apply bind_Returned_inv in H as (CondBB & st8 & [= <- <-] & H).
    set (cond := mkBasicBlock "forcond" TheFunction []) in *.
    assert (blocks (set_blocks (blocks st7 ++ [cond]) st7) !! length (blocks st7) = Some cond)
      as Hcond by (simpl; by rewrite lookup_app_r, Nat.sub_diag).
    revert H Hcond.
    generalize (set_blocks (blocks st7 ++ [cond]) st7) as st8.
    generalize (length (blocks st7)) as CondBB. intros CondBB st8 H Hcond.
    apply bind_Returned_inv in H as (LoopBB & st9 & E9 & H).
    apply (steps_BasicBlock_Create extends) in E9.
    apply bind_Returned_inv in H as (IncrBB & st10 & E10 & H).
    apply (steps_BasicBlock_Create extends) in E10.
    apply bind_Returned_inv in H as (AfterBB & st11 & E11 & H).
    apply (steps_BasicBlock_Create extends) in E11.
    apply bind_Returned_inv in H as (PrevContinue & st12 & E12 & H).
    apply (steps_get extends) in E12.
    apply bind_Returned_inv in H as (PrevBreak & st13 & E13 & H).
    apply (steps_get extends) in E13.
    apply bind_Returned_inv in H as (? & st14 & E14 & H).
    apply extends_set_loop_context in E14.
    apply bind_Returned_inv in H as (? & st15 & E15 & H).
    apply (steps_insert extends) in E15.
    assert (extends st8 st15) as Hext by (repeat (etransitivity; [eassumption|]); reflexivity).
    destruct (extends_lookup_block _ _ _ _ Hext Hcond) as (b15 & pre & Hb15 & Hname & Hpre).
    apply bind_Returned_inv in H as (? & st16 & [= <- <-] & H).
    apply bind_Returned_inv in H as (CurVar & st17 & E17 & H).
    eapply (emit_spec _ _ _ CondBB b15) in E17 as (-> & Hi17 & Hb17); [|done|done].
    apply bind_Returned_inv in H as (CondV & st18 & E18 & H).
    eapply (emit_spec _ _ _ CondBB) in E18 as (-> & Hi18 & Hb18); [|done|done].
    apply bind_Returned_inv in H as (? & st19 & E19 & H).
    eapply (insert_spec _ _ CondBB) in E19 as (Hi19 & Hb19); [|done|done].
    assert (extends st19 st') as Hrest.
    { revert H. generalize st19. intros s. apply Hs. steps_auto. }
    destruct (extends_lookup_block _ _ _ _ Hrest Hb19) as (bb & post & Hbb & Hname' & Hinsts).
    exists CondBB, bb, (bb_insts b15), post. do 5 eexists.
    split; [done|]. split; [rewrite Hname'; simpl; by rewrite Hname|].
    rewrite Hinsts. simpl. rewrite <- !app_assoc. reflexivity.
Qed.

Lemma for_range_conversion_witness :
  ∃ b' post,
    blocks (codegen (ForExprAST "i" (NumberExprAST 0) (NumberExprAST 300) []) in_entry).2 !! 0
    = Some b'
    ∧ bb_insts b'
      = [] ++ IntCast 0 (ConstantInt (IntegerTy 16) 300 true) (IntegerTy 8) true "endcast"
              :: post.
Proof.
  assert (codegen (ForExprAST "i" (NumberExprAST 0) (NumberExprAST 300) []) in_entry
          = (Returned dummy,
             (codegen (ForExprAST "i" (NumberExprAST 0) (NumberExprAST 300) []) in_entry).2))
    as H by (vm_compute; reflexivity).
  destruct (for_range_conversion "i" (NumberExprAST 0) (NumberExprAST 300) [] in_entry
              (ConstantInt (IntegerTy 8) 0 true) in_entry
              (ConstantInt (IntegerTy 16) 300 true) in_entry) as [_ Hret].
  - vm_compute. reflexivity.
  - vm_compute. reflexivity.
  - destruct (Hret _ _ H) as [_ Hcast].
    apply (Hcast ltac:(discriminate) 0 (mkBasicBlock "entry" None [])); reflexivity.
Defined.

Lemma not_print_builtin Callee :
  Callee ∉ print_builtins →
  String.eqb Callee "print" || String.eqb Callee "println" || String.eqb Callee "printf"
  = false.
Proof.
  intros Hno. unfold print_builtins in Hno.
  destruct (String.eqb_spec Callee "print") as [E|_].
  { destruct Hno. rewrite E. apply list_elem_of_here. }
  destruct (String.eqb_spec Callee "println") as [E|_].
  { destruct Hno. rewrite E. apply list_elem_of_further, list_elem_of_here. }
  destruct (String.eqb_spec Callee "printf") as [E|_]; [|done].
  destruct Hno. rewrite E. do 2 apply list_elem_of_further. apply list_elem_of_here.
Qed.

(** X26 (what a call resolves to).  A call of a name that is none of the
    print builtins looks the name up in the module as it is when the call is
    lowered.  With no function of that name there (one that is defined
    further down in the source, say) the call throws
    [Unknown function referenced]; with a function of another arity it
    throws [Incorrect number of arguments passed]; both before any argument
    is lowered, so the state is as it was.  A call that returns has found a
    function of the right arity and returns a value of the return type of
    that function. *)
Theorem call_resolution (Callee : string) (Args : list ExprAST) (st : State) :
  Callee ∉ print_builtins →
  (getFunction Callee (TheModule st) = None →
   codegen (CallExprAST Callee Args) st
   = (Thrown ("Unknown function referenced: " +:+ Callee), st))
  ∧ (∀ F f, getFunction Callee (TheModule st) = Some (F, f) →
       length (fn_params f) ≠ length Args →
       codegen (CallExprAST Callee Args) st
       = (Thrown "Incorrect number of arguments passed", st))
  ∧ (∀ V st', codegen (CallExprAST Callee Args) st = (Returned V, st') →
       ∃ F f id,
         getFunction Callee (TheModule st) = Some (F, f)
         ∧ length (fn_params f) = length Args
         ∧ V = Some (InstValue id (fn_ret f))).
Proof.
  intros Hno. pose proof (not_print_builtin Callee Hno) as Hb.
  split; [|split].
  - intros Hnone. simpl. unfold CallExprAST_codegen. rewrite Hb.
    unfold mbind, CG_bind, get. by rewrite Hnone.
  - intros F f Hsome Hlen. simpl. unfold CallExprAST_codegen. rewrite Hb.
    unfold mbind at 1, CG_bind at 1, get at 1. rewrite Hsome.
    apply Nat.eqb_neq in Hlen. by rewrite Hlen.
  - intros V st'. simpl. unfold CallExprAST_codegen. rewrite Hb.
    unfold mbind at 1, CG_bind at 1, get at 1.
    destruct (getFunction Callee (TheModule st)) as [[F f]|]; [|done].
    destruct (Nat.eqb_spec (length (fn_params f)) (length Args)) as [Hlen|?]; [|done].
    simpl. intros H. apply bind_Returned_inv in H as (ArgsV & st1 & HA & H).
    destruct ArgsV as [ArgsV|].
    + unfold some in H.
      apply bind_Returned_inv in H as (v & s2 & Hc & [= <- <-]).
      unfold CreateCall in Hc.
      apply bind_Returned_inv in Hc as (id & s3 & _ & Hc).
      apply bind_Returned_inv in Hc as ([] & s4 & _ & [= <- <-]).
      by exists F, f, id.
    + exfalso.
      assert (Forall (λ e, yields non_null (codegen e)) Args) as Hall.
      { apply Forall_forall. intros e _. apply codegen_non_null. }
      by apply (yields_lower_args codegen Args Hall []) in HA.
Qed.

Lemma call_resolution_witness :
  codegen (CallExprAST "f" []) initial
  = (Thrown ("Unknown function referenced: " +:+ "f"), initial).
Proof.
  apply (call_resolution "f" [] initial).
  - unfold print_builtins. intros H.
    repeat (apply elem_of_cons in H as [H|H]; [discriminate H|]).
    by apply elem_of_nil in H.
  - reflexivity.
Defined.

(** X27 (extern functions).  For a function marked [extern],
    [FunctionAST::codegen] adds one declaration with external linkage to the
    module and returns it; it creates no block, moves no insertion point,
    leaves [NamedValues] as it is and does not run the verifier.  When a type
    of the signature cannot be lowered it throws and the state is as it
    was. *)
Theorem extern_declaration_only (v : State → nat → bool) (Fn : FunctionAST) (st : State) :
  isExtern Fn = true →
  (∃ tys RetType,
     FunctionAST_codegen v Fn st
     = (Returned (length (TheModule st)),
        set_TheModule
          (TheModule st ++ [GFunction (mkFunction (Name Fn) RetType tys false
                                         ExternalLinkage CC_C (Args Fn).*1)]) st))
  ∨ (∃ msg, FunctionAST_codegen v Fn st = (Thrown msg, st)).
Proof.
  intros Hext.
  destruct (arg_types (Args Fn) initial).1 as [tys|msg] eqn:Htys.
  2:{ right. exists msg. unfold FunctionAST_codegen, mbind at 1, CG_bind at 1.
      by rewrite (arg_types_indep _ st), Htys. }
  assert (∃ r, (if String.eqb (ReturnType Fn) EmptyString then mret VoidTy
                else getTypeFromString (ReturnType Fn)) st = (r, st)) as [r Hr].
  { destruct (String.eqb (ReturnType Fn) EmptyString); [by eexists|].
    rewrite (getTypeFromString_indep _ st). by eexists. }
  destruct r as [RetType|msg]; [left; exists tys, RetType|right; exists msg].
  - unfold FunctionAST_codegen, mbind at 1, CG_bind at 1.
    rewrite (arg_types_indep _ st), Htys. unfold mbind at 1, CG_bind at 1. rewrite Hr.
    unfold linkage_of. rewrite Hext. reflexivity.
  - unfold FunctionAST_codegen, mbind at 1, CG_bind at 1.
    rewrite (arg_types_indep _ st), Htys. unfold mbind at 1, CG_bind at 1. by rewrite Hr.
Qed.

Lemma extern_declaration_only_witness :
  (∃ tys RetType,
     FunctionAST_codegen (λ _ _, false) extern_puts initial
     = (Returned (length (TheModule initial)),
        set_TheModule
          (TheModule initial ++ [GFunction (mkFunction (Name extern_puts) RetType tys false
                                              ExternalLinkage CC_C (Args extern_puts).*1)])
          initial))
  ∨ (∃ msg, FunctionAST_codegen (λ _ _, false) extern_puts initial = (Thrown msg, initial)).
Proof. apply (extern_declaration_only (λ _ _, false) extern_puts initial). reflexivity. Defined.

(** X28 (the variable of a for loop).  A [for] loop that returns returns the
    dummy value, and behind it the name of its variable is bound as it was
    before the loop: a binding to a value that the name had when the two
    ends of the range were lowered is put back, and otherwise the name is
    removed from [NamedValues], whatever the body has done with it. *)
Theorem for_variable_scope (VarName : string) (Start End_ : ExprAST)
    (Body : list ExprAST) (st : State) (StartVal : Value) (st1 : State)
    (EndVal : Value) (st2 : State) (r : option Value) (st' : State) :
  codegen Start st = (Returned (Some StartVal), st1) →
  codegen End_ st1 = (Returned (Some EndVal), st2) →
  codegen (ForExprAST VarName Start End_ Body) st = (Returned r, st') →
  r = dummy
  ∧ NamedValues st' !! VarName = restored (NamedValues st2 !! VarName).
Proof.
  intros HS HE.
  assert (∀ A (k : option nat → option Value → option Value → CG A),
    (TheFunction ← GetInsertBlock_getParent;
     StartVal ← codegen Start;
     EndVal ← codegen End_;
     k TheFunction StartVal EndVal) st
    = k (ib ← InsertBlock st; bb ← blocks st !! ib; bb_parent bb)
        (Some StartVal) (Some EndVal) st2) as Hstart.
  { intros A k. unfold mbind at 1, CG_bind at 1, GetInsertBlock_getParent at 1, get at 1.
    unfold mbind at 1, CG_bind at 1. rewrite HS.
    unfold mbind at 1, CG_bind at 1. by rewrite HE. }
  simpl. unfold ForExprAST_codegen. rewrite Hstart. clear Hstart.
  set (TheFunction := ib ← InsertBlock st; bb ← blocks st !! ib; bb_parent bb).
  intros H.
  apply bind_Returned_inv in H as (EndVal' & st3 & E3 & H).
  assert (NamedValues st3 = NamedValues st2) as N3.
  { case_bool_decide.
    - destruct (isIntegerTy (getType StartVal) && isIntegerTy (getType EndVal)); [|done].
      unfold CreateIntCast in E3.
      apply bind_Returned_inv in E3 as (id & s1 & [= <- <-] & E3).
      apply bind_Returned_inv in E3 as ([] & s2 & Hi & [= <- <-]).
      unfold insert, modify in Hi. injection Hi as <-. simpl. by destruct (InsertBlock st2).
    - by injection E3 as <- <-. }
  apply bind_Returned_inv in H as (Alloca & st4 & E4 & H).
  assert (∃ ids, Alloca = AllocaInst ids (getType StartVal)
                 ∧ NamedValues st4 = NamedValues st3) as (ids & -> & N4).
  { unfold CreateAlloca in E4.
    apply bind_Returned_inv in E4 as (id & s1 & [= <- <-] & E4).
    apply bind_Returned_inv in E4 as ([] & s2 & Hi & [= <- <-]).
    unfold insert, modify in Hi. injection Hi as <-. eexists. split; [done|].
    simpl. by destruct (InsertBlock st3). }
  apply bind_Returned_inv in H as ([] & st5 & E5 & H).
  assert (NamedValues st5 = NamedValues st4) as N5.
  { unfold CreateStore, insert, modify in E5. injection E5 as <-.
    by destruct (InsertBlock st4). }
  apply bind_Returned_inv in H as (OldVal & st6 & E6 & H).
  assert (restored (Some OldVal) = restored (NamedValues st2 !! VarName)) as Hold.
  { unfold NamedValues_subscript in E6. rewrite N5, N4, N3 in E6.
    destruct (NamedValues st2 !! VarName) as [V|] eqn:Hv; by injection E6 as <- <-. }
  apply bind_Returned_inv in H as ([] & st7 & [= <-] & H).
  apply bind_Returned_inv in H as (CondBB & st8 & [= <- <-] & H).
  apply bind_Returned_inv in H as (LoopBB & st9 & [= <- <-] & H).
  apply bind_Returned_inv in H as (IncrBB & st10 & [= <- <-] & H).
  apply bind_Returned_inv in H as (AfterBB & st11 & [= <- <-] & H).
  apply bind_Returned_inv in H as (PrevContinue & st12 & [= <- <-] & H).
  apply bind_Returned_inv in H as (PrevBreak & st13 & [= <- <-] & H).
  apply bind_Returned_inv in H as ([] & st14 & [= <-] & H).
  apply bind_Returned_inv in H as ([] & st15 & E15 & H).
  apply bind_Returned_inv in H as ([] & st16 & [= <-] & H).
  apply bind_Returned_inv in H as (CurVar & st17 & E17 & H).
  apply bind_Returned_inv in H as (CondV & st18 & E18 & H).
  apply bind_Returned_inv in H as ([] & st19 & E19 & H).
  apply bind_Returned_inv in H as ([] & st20 & [= <-] & H).
  apply bind_Returned_inv in H as ([] & st21 & E21 & H).
  apply bind_Returned_inv in H as ([] & st22 & E22 & H).
  apply bind_Returned_inv in H as ([] & st23 & [= <-] & H).
  apply bind_Returned_inv in H as (CurVar' & st24 & E24 & H).
  apply bind_Returned_inv in H as (NextVar & st25 & E25 & H).
  apply bind_Returned_inv in H as ([] & st26 & E26 & H).
  apply bind_Returned_inv in H as ([] & st27 & E27 & H).
  apply bind_Returned_inv in H as ([] & st28 & [= <-] & H).
  apply bind_Returned_inv in H as ([] & st29 & E29 & H).
  apply bind_Returned_inv in H as ([] & st30 & [= <-] & [= <- <-]).
  split; [done|].
  rewrite <- Hold. simpl.
  destruct OldVal as [V|]; injection E29 as <-; simpl.
  - by rewrite lookup_insert_eq.
  - by rewrite lookup_delete_eq.
Qed.

Lemma for_variable_scope_witness :
  dummy = dummy
  ∧ NamedValues
      (codegen (ForExprAST "i" (NumberExprAST 0) (NumberExprAST 3) []) in_entry).2 !! "i"
    = restored (NamedValues in_entry !! "i").
Proof.
  apply (for_variable_scope "i" (NumberExprAST 0) (NumberExprAST 3) [] in_entry
           (ConstantInt (IntegerTy 8) 0 true) in_entry
           (ConstantInt (IntegerTy 8) 3 true) in_entry dummy
           (codegen (ForExprAST "i" (NumberExprAST 0) (NumberExprAST 3) []) in_entry).2).
  - vm_compute. reflexivity.
  - vm_compute. reflexivity.
  - vm_compute. reflexivity.
Defined.

Section Throws.
Context (Q : string → Prop).

Lemma throws_ret {A} (a : A) : throws Q (mret a).
Proof. intros st msg st' [=]. Qed.

Lemma throws_throw {A} msg : Q msg → throws Q (throw (A := A) msg).
Proof. intros H st msg' st' [= <- _]. done. Qed.

Lemma throws_get {A} (f : State → A) : throws Q (get f).
Proof. intros st msg st' [=]. Qed.

Lemma throws_modify f : throws Q (modify f).
Proof. intros st msg st' [=]. Qed.

Lemma throws_fresh : throws Q fresh.
Proof. intros st msg st' [=]. Qed.

Lemma throws_insert i : throws Q (insert i).
Proof. apply throws_modify. Qed.

Lemma throws_BasicBlock_Create name parent : throws Q (BasicBlock_Create name parent).
Proof. intros st msg st' [=]. Qed.

Lemma throws_SetInsertPoint bb : throws Q (SetInsertPoint bb).
Proof. apply throws_modify. Qed.

Lemma throws_add_global g : throws Q (add_global g).
Proof. intros st msg st' [=]. Qed.

Lemma throws_NamedValues_subscript Name : throws Q (NamedValues_subscript Name).
Proof.
  intros st msg st'. unfold NamedValues_subscript. by destruct (NamedValues st !! Name).
Qed.

Lemma throws_NamedValues_assign Name V : throws Q (NamedValues_assign Name V).
Proof. apply throws_modify. Qed.

Lemma throws_NamedValues_erase Name : throws Q (NamedValues_erase Name).
Proof. apply throws_modify. Qed.

Lemma throws_bind {A B} (m : CG A) (k : A → CG B) :
  throws Q m → (∀ a, throws Q (k a)) → throws Q (m ≫= k).
Proof.
  intros Hm Hk st msg st' H. apply bind_Thrown_inv in H as [H|(a & st1 & _ & H)].
  - by eapply Hm.
  - by eapply Hk.
Qed.

Lemma throws_for_each (f : ExprAST → CG (option Value)) l :
  Forall (λ e, throws Q (f e)) l → throws Q (for_each f l).
Proof.
  induction 1 as [|e l He Hl IH]; simpl; [apply throws_ret|].
  apply throws_bind; [done|]. by intros _.
Qed.

Lemma throws_lower_args (f : ExprAST → CG (option Value)) l :
  Forall (λ e, throws Q (f e)) l → ∀ acc, throws Q (lower_args f l acc).
Proof.
  induction 1 as [|e l He Hl IH]; intros acc; simpl; [apply throws_ret|].
  apply throws_bind; [done|]. intros [V|]; [apply IH|apply throws_ret].
Qed.

Lemma throws_set_loop_context c b : throws Q (set_loop_context c b).
Proof. unfold set_loop_context. apply throws_bind; [|intros _]; apply throws_modify. Qed.

End Throws.

(** Decompose a generator made of binds, case distinctions and builder
    operations; a message that is thrown is shown to be another one. *)
Ltac throws_auto :=
  repeat first
    [ assumption
    | apply throws_ret | apply throws_get
    | apply throws_fresh | apply throws_insert | apply throws_BasicBlock_Create
    | apply throws_SetInsertPoint | apply throws_add_global
    | apply throws_NamedValues_subscript | apply throws_NamedValues_assign
    | apply throws_NamedValues_erase | apply throws_modify | apply throws_set_loop_context
    | apply throws_throw; intros ?; simpl; discriminate
    | match goal with
      | |- throws ?Q (for_each _ _) => apply (throws_for_each Q); assumption
      | |- throws ?Q (lower_args _ _ _) => apply (throws_lower_args Q); assumption
      | H : ∀ _, throws _ _ |- _ => apply H
      | H : ∀ _ _, throws _ _ |- _ => apply H
      | H : ∀ _ _ _, throws _ _ |- _ => apply H
      end
    | match goal with
      | |- throws ?Q (_ ≫= _) => apply (throws_bind Q); [|intros ?]
      end
    | match goal with
      | |- throws _ (if ?b then _ else _) => destruct b
      | |- throws _ (let '(_, _) := ?x in _) => destruct x
      | |- throws _ (match ?x with _ => _ end) => destruct x
      end
    | progress unfold CreateAlloca, CreateLoad, CreateStore, CreateAdd, CreateICmp,
        CreateBr, CreateCondBr, CreateRet, CreateRetVoid, CreateBitCast,
        CreateInsertValue, CreateExtractValue, CreateIntCast, CreateCall,
        Function_Create, GetInsertBlock_getParent, GetInsertBlock_getTerminator,
        some, branch_unless_terminated, declare, str_ptr ].

Lemma throws_getTypeFromString typeStr :
  throws operator_known_message (getTypeFromString typeStr).
Proof.
  enough (throws operator_known_message (getTypeFromString typeStr)
          ∧ ∀ c, throws operator_known_message (getTypeFromString (String c typeStr)))
    as [? _] by done.
  induction typeStr as [|c0 s [IH1 IH2]].
  - split; [|intros c]; rewrite getTypeFromString_unfold; throws_auto.
  - split; [apply IH2|]. intros c. rewrite getTypeFromString_unfold. throws_auto.
Qed.

Lemma throws_arg_types Args : throws operator_known_message (arg_types Args).
Proof.
  pose proof throws_getTypeFromString as Htype.
  induction Args as [|a Args IH]; simpl; throws_auto.
Qed.

Lemma throws_arg_slots Args : ∀ F Idx, throws operator_known_message (arg_slots F Idx Args).
Proof.
  pose proof throws_getTypeFromString as Htype.
  induction Args as [|a Args IH]; intros F Idx; simpl; throws_auto.
Qed.

Lemma throws_codegen e :
  operators_known e → throws operator_known_message (codegen e).
Proof.
  pose proof throws_getTypeFromString as Htype.
  induction e as [Val|Val|Val|Name|Op LHS RHS IHL IHR|Callee CallArgs HArgs|RetVal IHR
                 |Name Type_ IsConst Init IH|Cond ThenBody ElseBody IHC HThen HElse
                 |Cond LoopBody IHC HBody|VarName Start End_ LoopBody IHS IHE HBody| |]
    using ExprAST_nested_ind; intros HK; simpl.
  - unfold NumberExprAST_codegen. throws_auto.
  - unfold BooleanExprAST_codegen. throws_auto.
  - unfold StringLiteralExprAST_codegen. throws_auto.
  - unfold VariableExprAST_codegen. throws_auto.
  - apply known_binary in HK as (Hop & HL & HR).
    specialize (IHL HL). specialize (IHR HR).
    unfold BinaryExprAST_codegen.
    unfold binary_operators in Hop.
    repeat (apply elem_of_cons in Hop as [->|Hop]; [simpl; throws_auto|]).
    by apply elem_of_nil in Hop.
  - apply known_call in HK.
    assert (Forall (λ e, throws operator_known_message (codegen e)) CallArgs) as Hargs.
    { rewrite Forall_forall in HArgs, HK |- *. intros x Hx. by apply HArgs, HK. }
    assert (∀ acc, throws operator_known_message (lower_args codegen CallArgs acc)) as Hlower
      by (by apply throws_lower_args).
    unfold CallExprAST_codegen, generatePrintCall.
    destruct CallArgs as [|? [|? ?]];
      repeat match goal with
      | H : Forall _ (_ :: _) |- _ => apply Forall_cons in H as [? ?]
      end; throws_auto.
  - unfold ReturnExprAST_codegen. specialize (IHR HK). throws_auto.
  - unfold VarDeclAST_codegen. destruct Init as [Init|].
    + specialize (IH Init eq_refl HK). throws_auto.
    + throws_auto.
  - apply known_if in HK as (HC & HT & HE). specialize (IHC HC).
    assert (Forall (λ e, throws operator_known_message (codegen e)) ThenBody) as Hthen.
    { rewrite Forall_forall in HThen, HT |- *. intros x Hx. by apply HThen, HT. }
    assert (Forall (λ e, throws operator_known_message (codegen e)) ElseBody) as Helse.
    { rewrite Forall_forall in HElse, HE |- *. intros x Hx. by apply HElse, HE. }
    unfold IfExprAST_codegen. throws_auto.
  - apply known_while in HK as (HC & HB). specialize (IHC HC).
    assert (Forall (λ e, throws operator_known_message (codegen e)) LoopBody) as Hbody.
    { rewrite Forall_forall in HBody, HB |- *. intros x Hx. by apply HBody, HB. }
    unfold WhileExprAST_codegen. throws_auto.
  - apply known_for in HK as (HS & HE & HB). specialize (IHS HS). specialize (IHE HE).
    assert (Forall (λ e, throws operator_known_message (codegen e)) LoopBody) as Hbody.
    { rewrite Forall_forall in HBody, HB |- *. intros x Hx. by apply HBody, HB. }
    unfold ForExprAST_codegen. throws_auto.
  - unfold BreakExprAST_codegen. throws_auto.
  - unfold ContinueExprAST_codegen. throws_auto.
Qed.

Lemma throws_FunctionAST_codegen v Fn :
  Forall operators_known (Body Fn) →
  throws operator_known_message (FunctionAST_codegen v Fn).
Proof.
  intros HK.
  pose proof throws_getTypeFromString as Htype.
  pose proof throws_arg_types as Hargs.
  pose proof throws_arg_slots as Hslots.
  assert (Forall (λ e, throws operator_known_message (codegen e)) (Body Fn)) as Hbody.
  { eapply Forall_impl; [exact HK|]. intros e. apply throws_codegen. }
  unfold FunctionAST_codegen. throws_auto.
Qed.

Lemma throws_main_codegen v fs :
  Forall (λ f, Forall operators_known (Body f)) fs →
  throws operator_known_message (main_codegen v fs).
Proof.
  induction 1 as [|f fs Hf Hfs IH]; simpl; [apply throws_ret|].
  apply throws_bind; [by apply throws_FunctionAST_codegen|]. by intros _.
Qed.

(** X29 (the operators of the parser are the operators of the generator).
    In every function the front end returns, each binary node carries one of
    the seven operators [BinaryExprAST::codegen] lowers.  So lowering the
    functions of a source never throws [Invalid binary operator], in any
    state and whatever the verifier answers: that error cannot be reached
    from source text. *)
Theorem operators_agree (source : string) (fs : list FunctionAST) :
  front_end source = Ok fs →
  (∀ f e, f ∈ fs → e ∈ Body f → operators_known e)
  ∧ ∀ v st msg st' op,
      main_codegen v fs st = (Thrown msg, st') →
      msg ≠ "Invalid binary operator: " +:+ op.
Proof.
  intros H. apply front_end_known in H. split.
  - intros f e Hf He. rewrite Forall_forall in H. specialize (H f Hf).
    rewrite Forall_forall in H. by apply H.
  - intros v st msg st' op Hm. by apply (throws_main_codegen v fs H) in Hm.
Qed.

Lemma operators_agree_witness :
  (∀ f e, f ∈ [sum_function] → e ∈ Body f → operators_known e)
  ∧ ∀ v st msg st' op,
      main_codegen v [sum_function] st = (Thrown msg, st') →
      msg ≠ "Invalid binary operator: " +:+ op.
Proof.
  apply (operators_agree "fn f() -> u8 { return 1 + 2; }" [sum_function]).
  vm_compute. reflexivity.
Defined.

Lemma safe_ret {A} (V : A → Prop) a : V a → safe V (mret a).
Proof. intros H st r st' Hst [= <- <-]. done. Qed.

Lemma safe_throw {A} (V : A → Prop) msg : msg ≠ cast_failure → safe V (throw msg).
Proof. intros H st r st' Hst [= <- <-]. done. Qed.

Lemma safe_bind {A B} (V1 : A → Prop) (V : B → Prop) (m : CG A) (k : A → CG B) :
  safe V1 m → (∀ a, V1 a → safe V (k a)) → safe V (m ≫= k).
Proof.
  intros Hm Hk st r st' Hst. unfold mbind, CG_bind.
  destruct (m st) as [[a|msg] st1] eqn:E; destruct (Hm _ _ _ Hst E) as [Hst1 Ha].
  - by apply Hk.
  - by intros [= <- <-].
Qed.

Lemma safe_get {A} (f : State → A) : safe any (get f).
Proof. intros st r st' Hst [= <- <-]. done. Qed.

Lemma safe_modify f :
  (∀ st, NamedValues (f st) = NamedValues st) → safe any (modify f).
Proof.
  intros Hf st r st' Hst [= <- <-]. split; [|done]. unfold slots_only. by rewrite Hf.
Qed.

Lemma safe_fresh : safe any fresh.
Proof. intros st r st' Hst [= <- <-]. done. Qed.

Lemma safe_insert i : safe any (insert i).
Proof. apply safe_modify. intros st. by destruct (InsertBlock st). Qed.

Lemma safe_BasicBlock_Create name parent : safe any (BasicBlock_Create name parent).
Proof. intros st r st' Hst [= <- <-]. done. Qed.

Lemma safe_SetInsertPoint bb : safe any (SetInsertPoint bb).
Proof. by apply safe_modify. Qed.

Lemma safe_add_global g : safe any (add_global g).
Proof. intros st r st' Hst [= <- <-]. done. Qed.

Lemma safe_set_loop_context c b : safe any (set_loop_context c b).
Proof.
  unfold set_loop_context. apply (safe_bind any); [|intros _ _]; by apply safe_modify.
Qed.

Lemma safe_NamedValues_subscript Name : safe slot_or_null (NamedValues_subscript Name).
Proof.
  intros st r st' Hst. unfold NamedValues_subscript.
  destruct (NamedValues st !! Name) as [v|] eqn:E; intros [= <- <-].
  - split; [done|]. intros V ->. by eapply Hst.
  - split; [|done]. intros n V. simpl.
    destruct (decide (n = Name)) as [->|?].
    + by rewrite lookup_insert_eq.
    + rewrite lookup_insert_ne by done. apply Hst.
Qed.

Lemma safe_NamedValues_assign Name v :
  slot_or_null v → safe any (NamedValues_assign Name v).
Proof.
  intros Hv st r st' Hst [= <- <-]. split; [|done]. intros n V. simpl.
  destruct (decide (n = Name)) as [->|?].
  - rewrite lookup_insert_eq. intros [= ->]. by apply Hv.
  - rewrite lookup_insert_ne by done. apply Hst.
Qed.

Lemma safe_NamedValues_erase Name : safe any (NamedValues_erase Name).
Proof.
  intros st r st' Hst [= <- <-]. split; [|done]. intros n V. simpl.
  destruct (decide (n = Name)) as [->|?].
  - by rewrite lookup_delete_eq.
  - rewrite lookup_delete_ne by done. apply Hst.
Qed.

Lemma safe_clear : safe any (modify (set_NamedValues ∅)).
Proof. intros st r st' Hst [= <- <-]. split; [|done]. intros n V. simpl. done. Qed.

Lemma safe_CreateAlloca ty name : safe is_slot (CreateAlloca ty name).
Proof.
  unfold CreateAlloca. apply (safe_bind any); [apply safe_fresh|]. intros id _.
  apply (safe_bind any); [apply safe_insert|]. intros _ _.
  apply safe_ret. by eexists _, _.
Qed.

Lemma safe_for_each (f : ExprAST → CG (option Value)) l :
  Forall (λ e, safe any (f e)) l → safe any (for_each f l).
Proof.
  induction 1 as [|e l He Hl IH]; simpl; [by apply safe_ret|].
  apply (safe_bind any); [done|]. by intros _ _.
Qed.

Lemma safe_lower_args (f : ExprAST → CG (option Value)) l :
  Forall (λ e, safe any (f e)) l → ∀ acc, safe any (lower_args f l acc).
Proof.
  induction 1 as [|e l He Hl IH]; intros acc; simpl; [by apply safe_ret|].
  apply (safe_bind any); [done|]. intros [V|] _; [apply IH|by apply safe_ret].
Qed.

(** Decompose a generator made of binds, case distinctions and builder
    operations, keeping what is known of the values read from [NamedValues]
    and of the slots allocated. *)
Ltac safe_auto :=
  repeat first
    [ assumption
    | by apply safe_ret
    | apply safe_get | apply safe_fresh | apply safe_insert | apply safe_BasicBlock_Create
    | apply safe_SetInsertPoint | apply safe_add_global | apply safe_set_loop_context
    | apply safe_NamedValues_erase | apply safe_clear
    | apply safe_NamedValues_assign; first [assumption | by intros ? [= <-]]
    | match goal with
      | H : slot_or_null (Some ?v) |- _ =>
          exfalso; destruct (H v eq_refl) as (? & ? & E); discriminate E
      end
    | apply safe_throw; unfold cast_failure; simpl; discriminate
    | match goal with
      | |- safe _ (for_each _ _) => apply safe_for_each; assumption
      | |- safe _ (lower_args _ _ _) => apply safe_lower_args; assumption
      | H : ∀ _, safe _ _ |- _ => apply H
      | H : ∀ _ _, safe _ _ |- _ => apply H
      | H : ∀ _ _ _, safe _ _ |- _ => apply H
      end
    | match goal with
      | |- safe _ (NamedValues_subscript _ ≫= _) =>
          apply (safe_bind slot_or_null); [apply safe_NamedValues_subscript|intros ? ?]
      | |- safe _ (CreateAlloca _ _ ≫= _) =>
          apply (safe_bind is_slot); [apply safe_CreateAlloca|intros ? ?]
      | |- safe _ (_ ≫= _) => apply (safe_bind any); [|intros ? _]
      end
    | match goal with
      | |- safe _ (if ?b then _ else _) => destruct b
      | |- safe _ (let '(_, _) := ?x in _) => destruct x
      | |- safe _ (match ?x with _ => _ end) => destruct x
      end
    | progress unfold CreateLoad, CreateStore, CreateAdd, CreateICmp,
        CreateBr, CreateCondBr, CreateRet, CreateRetVoid, CreateBitCast,
        CreateInsertValue, CreateExtractValue, CreateIntCast, CreateCall,
        Function_Create, GetInsertBlock_getParent, GetInsertBlock_getTerminator,
        some, branch_unless_terminated, declare, str_ptr ].

Lemma safe_getTypeFromString typeStr : safe any (getTypeFromString typeStr).
Proof.
  enough (safe any (getTypeFromString typeStr)
          ∧ ∀ c, safe any (getTypeFromString (String c typeStr))) as [? _] by done.
  induction typeStr as [|c0 s [IH1 IH2]].
  - split; [|intros c]; rewrite getTypeFromString_unfold; safe_auto.
  - split; [apply IH2|]. intros c. rewrite getTypeFromString_unfold. safe_auto.
Qed.

Lemma safe_arg_types Args : safe any (arg_types Args).
Proof.
  pose proof safe_getTypeFromString as Htype.
  induction Args as [|a Args IH]; simpl; safe_auto.
Qed.

Lemma safe_arg_slots Args : ∀ F Idx, safe any (arg_slots F Idx Args).
Proof.
  pose proof safe_getTypeFromString as Htype.
  induction Args as [|a Args IH]; intros F Idx; simpl; safe_auto.
Qed.

Lemma safe_codegen e : safe any (codegen e).
Proof.
  pose proof safe_getTypeFromString as Htype.
  induction e as [Val|Val|Val|Name|Op LHS RHS IHL IHR|Callee CallArgs HArgs|RetVal IHR
                 |Name Type_ IsConst Init IH|Cond ThenBody ElseBody IHC HThen HElse
                 |Cond LoopBody IHC HBody|VarName Start End_ LoopBody IHS IHE HBody| |]
    using ExprAST_nested_ind; simpl.
  - unfold NumberExprAST_codegen. safe_auto.
  - unfold BooleanExprAST_codegen. safe_auto.
  - unfold StringLiteralExprAST_codegen. safe_auto.
  - unfold VariableExprAST_codegen. safe_auto.
  - unfold BinaryExprAST_codegen. safe_auto.
  - assert (∀ acc, safe any (lower_args codegen CallArgs acc)) as Hlower
      by (by apply safe_lower_args).
    unfold CallExprAST_codegen, generatePrintCall.
    destruct CallArgs as [|? [|? ?]];
      repeat match goal with
      | H : Forall _ (_ :: _) |- _ => apply Forall_cons in H as [? ?]
      end; safe_auto.
  - unfold ReturnExprAST_codegen. safe_auto.
  - unfold VarDeclAST_codegen. destruct Init as [Init|].
    + specialize (IH Init eq_refl). safe_auto.
    + safe_auto.
  - unfold IfExprAST_codegen. safe_auto.
  - unfold WhileExprAST_codegen. safe_auto.
  - unfold ForExprAST_codegen. safe_auto.
  - unfold BreakExprAST_codegen. safe_auto.
  - unfold ContinueExprAST_codegen. safe_auto.
Qed.

Lemma safe_FunctionAST_codegen v Fn : safe any (FunctionAST_codegen v Fn).
Proof.
  pose proof safe_getTypeFromString as Htype.
  pose proof safe_arg_types as Hargs.
  pose proof safe_arg_slots as Hslots.
  assert (Forall (λ e, safe any (codegen e)) (Body Fn)) as Hbody.
  { apply Forall_forall. intros e _. apply safe_codegen. }
  unfold FunctionAST_codegen. safe_auto.
Qed.

Lemma safe_main_codegen v fs : safe any (main_codegen v fs).
Proof.
  induction fs as [|f fs IH]; simpl; [by apply safe_ret|].
  apply (safe_bind any); [apply safe_FunctionAST_codegen|]. by intros _ _.
Qed.

(** X30 (what the symbol table holds).  [NamedValues] only ever holds stack
    slots: it is empty at the start, and lowering an expression or a whole
    program from a state in which every value of the map is the result of an
    [alloca] ends in such a state, whether the run returns or throws.  So
    the [llvm::cast<llvm::AllocaInst>] of a variable reference never fails
    in such a run; it does fail on a map that holds another value. *)
Theorem named_values_hold_slots :
  slots_only initial
  ∧ (∀ e st r st', slots_only st → codegen e st = (r, st') →
       slots_only st' ∧ r ≠ Thrown cast_failure)
  ∧ (∀ v fs st r st', slots_only st → main_codegen v fs st = (r, st') →
       slots_only st' ∧ r ≠ Thrown cast_failure)
  ∧ (∀ Name V st, NamedValues st !! Name = Some (Some V) → ¬ is_slot V →
       codegen (VariableExprAST Name) st = (Thrown cast_failure, st)).
Proof.
  split; [|split; [|split]].
  - intros n V. unfold initial. simpl. done.
  - intros e st r st' Hst H. destruct (safe_codegen e st r st' Hst H) as [? Hr].
    split; [done|]. destruct r; [done|]. intros [= ->]. done.
  - intros v fs st r st' Hst H. destruct (safe_main_codegen v fs st r st' Hst H) as [? Hr].
    split; [done|]. destruct r; [done|]. intros [= ->]. done.
  - intros Name V st HV Hno. simpl.
    unfold VariableExprAST_codegen, mbind, CG_bind, NamedValues_subscript. rewrite HV.
    destruct V; try reflexivity. destruct Hno. by eexists _, _.
Qed.

Lemma bind_inv {A B} (m : CG A) (k : A → CG B) st r st' :
  (m ≫= k) st = (r, st') →
  (∃ a st1, m st = (Returned a, st1) ∧ k a st1 = (r, st'))
  ∨ (∃ msg, m st = (Thrown msg, st')).
Proof.
  unfold mbind, CG_bind. destruct (m st) as [[a|msg] st1]; [eauto|].
  intros [= <- <-]. eauto.
Qed.

Ltac never_thrown E :=
  match type of E with
  | ?m ?st = _ =>
      let Hn := fresh "Hn" in
      assert (throws (λ _ : string, False) m) as Hn by throws_auto;
      exact (Hn _ _ _ E)
  end.

Ltac for_step H a st1 E :=
  let msg := fresh "msg" in
  apply bind_inv in H as [(a & st1 & E & H)|(msg & E)]; [|exfalso; never_thrown E].

(** What numbering and inserting one instruction leaves as it is. *)
Lemma emit_frame {A} (I : nat → Instruction) (V : nat → A) st a st' :
  (id ← fresh; _ ← insert (I id); mret (V id)) st = (Returned a, st') →
  a = V (next_id st) ∧ next_id st' = S (next_id st)
  ∧ InsertBlock st' = InsertBlock st ∧ length (blocks st') = length (blocks st)
  ∧ (∀ n b, InsertBlock st = Some n → blocks st !! n = Some b →
       blocks st' !! n = Some (append_inst (I (next_id st)) b))
  ∧ (∀ n, InsertBlock st ≠ Some n → blocks st' !! n = blocks st !! n).
Proof.
  intros H.
  apply bind_Returned_inv in H as (id & s1 & [= <- <-] & H).
  apply bind_Returned_inv in H as ([] & s2 & Hi & [= <- <-]).
  unfold insert, modify in Hi. injection Hi as <-. simpl.
  destruct (InsertBlock st) as [ib|] eqn:Hib; simpl.
  - repeat split; try done.
    + by rewrite length_alter.
    + intros n b [= <-] Hb. by rewrite list_lookup_alter_eq, Hb.
    + intros n Hn. rewrite list_lookup_alter_ne; [done|congruence].
  - repeat split; try done.
Qed.

Lemma insert_frame i st r st' :
  insert i st = (r, st') →
  next_id st' = next_id st
  ∧ InsertBlock st' = InsertBlock st ∧ length (blocks st') = length (blocks st)
  ∧ (∀ n b, InsertBlock st = Some n → blocks st !! n = Some b →
       blocks st' !! n = Some (append_inst i b))
  ∧ (∀ n, InsertBlock st ≠ Some n → blocks st' !! n = blocks st !! n).
Proof.
  unfold insert, modify. intros [= <- <-].
  destruct (InsertBlock st) as [ib|] eqn:Hib; simpl.
  - repeat split; try done.
    + by rewrite length_alter.
    + intros n b [= <-] Hb. by rewrite list_lookup_alter_eq, Hb.
    + intros n Hn. rewrite list_lookup_alter_ne; [done|congruence].
  - repeat split; try done.
Qed.

Lemma for_condition VarName Start End_ Body st StartVal st1 EndVal st2 n b r st' :
  codegen Start st = (Returned (Some StartVal), st1) →
  codegen End_ st1 = (Returned (Some EndVal), st2) →
  InsertBlock st2 = Some n → blocks st2 !! n = Some b →
  getType EndVal = getType StartVal
  ∨ isIntegerTy (getType StartVal) && isIntegerTy (getType EndVal) = true →
  codegen (ForExprAST VarName Start End_ Body) st = (r, st') →
  let T := getType StartVal in
  let slot := AllocaInst (for_slot StartVal EndVal st2) T in
  let CondBB := length (blocks st2) in
  let CurVar := InstValue (S (for_slot StartVal EndVal st2)) T in
  let CondV := InstValue (S (S (for_slot StartVal EndVal st2))) (IntegerTy 1) in
  (∃ b' post, blocks st' !! n = Some b'
     ∧ bb_insts b'
       = bb_insts b ++ for_cast StartVal EndVal st2
         ++ [Alloca (for_slot StartVal EndVal st2) T VarName; Store StartVal slot; Br CondBB]
         ++ post)
  ∧ (∃ bb post, blocks st' !! CondBB = Some bb ∧ bb_name bb = "forcond"
       ∧ bb_insts bb
         = [Load (S (for_slot StartVal EndVal st2)) T slot VarName;
            ICmp (S (S (for_slot StartVal EndVal st2))) ICMP_SLT CurVar
              (for_bound StartVal EndVal st2) "forcond";
            CondBr CondV (CondBB + 1) (CondBB + 3)] ++ post).
Proof.
  intros HS HE Hn Hb Hty.
  assert (∀ A (k : option nat → option Value → option Value → CG A),
    (TheFunction ← GetInsertBlock_getParent;
     StartVal ← codegen Start;
     EndVal ← codegen End_;
     k TheFunction StartVal EndVal) st
    = k (ib ← InsertBlock st; bb ← blocks st !! ib; bb_parent bb)
        (Some StartVal) (Some EndVal) st2) as Hstart.
  { intros A k. unfold mbind at 1, CG_bind at 1, GetInsertBlock_getParent at 1, get at 1.
    unfold mbind at 1, CG_bind at 1. rewrite HS.
    unfold mbind at 1, CG_bind at 1. by rewrite HE. }
  simpl. unfold ForExprAST_codegen. rewrite Hstart. clear Hstart.
  set (TheFunction := ib ← InsertBlock st; bb ← blocks st !! ib; bb_parent bb).
  pose proof extends_set_loop_context as Hloop.
  assert (Forall (λ e, steps extends (codegen e)) Body) as Hbody.
  { apply Forall_forall. intros e _. apply extends_codegen. }
  assert (∀ A (m : CG A), steps extends m → ∀ s x s', m s = (x, s') → extends s s') as Hs
    by (intros A m Hm; exact Hm).
  assert (n < length (blocks st2)) as Hlt by by eapply lookup_lt_Some.
  intros H.
  (* the end of the range *)
  apply bind_inv in H as [(EndVal' & st3 & E3 & H)|(msg & E3)]; cycle 1.
  { exfalso. case_bool_decide as Hne; [|done].
    destruct Hty as [?|Hint]; [done|]. rewrite Hint in E3.
    never_thrown E3. }
  assert (EndVal' = for_bound StartVal EndVal st2
          ∧ next_id st3 = for_slot StartVal EndVal st2
          ∧ InsertBlock st3 = Some n ∧ length (blocks st3) = length (blocks st2)
          ∧ ∃ b3, blocks st3 !! n = Some b3 ∧ bb_name b3 = bb_name b
              ∧ bb_insts b3 = bb_insts b ++ for_cast StartVal EndVal st2)
    as (-> & N3 & I3 & L3 & b3 & B3 & _ & C3).
  { unfold for_bound, for_slot, for_cast. case_bool_decide as Hne.
    - destruct Hty as [?|Hint]; [done|]. rewrite Hint in E3.
      apply emit_frame in E3 as (-> & ? & ? & ? & Hin & _).
      repeat split; try done; try congruence.
      eexists. split; [by apply Hin|]. done.
    - injection E3 as <- <-. repeat split; try done.
      exists b. by rewrite app_nil_r. }
  (* the slot of the variable *)
  for_step H Slot st4 E4.
  apply emit_frame in E4 as (-> & N4 & I4 & L4 & B4 & _).
  specialize (B4 n b3 I3 B3). rewrite N3 in *.
  for_step H u5 st5 E5.
  apply insert_frame in E5 as (N5 & I5 & L5 & B5 & _).
  specialize (B5 n _ ltac:(congruence) B4).
  for_step H OldVal st6 E6.
  assert (next_id st6 = next_id st5 ∧ InsertBlock st6 = InsertBlock st5
          ∧ blocks st6 = blocks st5) as (N6 & I6 & B6).
  { unfold NamedValues_subscript in E6.
    destruct (NamedValues st5 !! VarName); by injection E6 as <- <-. }
  for_step H u7 st7 E7. injection E7 as <- <-.
  (* the four blocks *)
  for_step H Cbb st8 E8. injection E8 as <- <-.
  for_step H Lbb st9 E9. injection E9 as <- <-.
  for_step H Ibb st10 E10. injection E10 as <- <-.
  for_step H Abb st11 E11. injection E11 as <- <-.
  for_step H PrevContinue st12 E12. injection E12 as <- <-.
  for_step H PrevBreak st13 E13. injection E13 as <- <-.
  for_step H u14 st14 E14. injection E14 as <- <-.
  simpl in H. rewrite B6 in H.
  set (cond := mkBasicBlock "forcond" TheFunction []) in *.
  assert (length (blocks st5) = length (blocks st2)) as L by congruence.
  (* the branch into the condition block *)
  for_step H u15 st15 E15.
  apply insert_frame in E15 as (N15 & I15 & L15 & B15 & F15). simpl in *.
  rewrite I6, I5, I4, I3 in *.
  match type of B5 with _ = Some ?x => set (b5 := x) in * end.
  assert (blocks st15 !! n = Some (append_inst (Br (length (blocks st5))) b5)) as Bn15.
  { apply B15; [done|]. rewrite !lookup_app_l; [exact B5|..];
      rewrite ?length_app; simpl; lia. }
  assert (blocks st15 !! length (blocks st5) = Some cond) as Bc15.
  { rewrite F15 by (intros [= ->]; lia).
    rewrite lookup_app_l by (rewrite !length_app; simpl; lia).
    rewrite lookup_app_l by (rewrite !length_app; simpl; lia).
    rewrite lookup_app_l by (rewrite !length_app; simpl; lia).
    by rewrite lookup_app_r, Nat.sub_diag. }
  for_step H u16 st16 E16. injection E16 as <- <-.
  (* the condition *)
  for_step H Cur st17 E17.
  apply emit_frame in E17 as (-> & N17 & I17 & L17 & B17 & F17). simpl in *.
  specialize (B17 _ _ eq_refl Bc15).
  assert (blocks st17 !! n = blocks st15 !! n) as Bn17 by (apply F17; intros [= E]; lia).
  for_step H Cnd st18 E18.
  apply emit_frame in E18 as (-> & N18 & I18 & L18 & B18 & F18).
  specialize (B18 _ _ I17 B17).
  assert (blocks st18 !! n = blocks st17 !! n) as Bn18
    by (apply F18; rewrite I17; intros [= E]; lia).
  for_step H u19 st19 E19.
  apply insert_frame in E19 as (N19 & I19 & L19 & B19 & F19).
  rewrite I17 in I18. specialize (B19 _ _ I18 B18).
  assert (blocks st19 !! n = blocks st18 !! n) as Bn19
    by (apply F19; rewrite I18; intros [= E]; lia).
  assert (extends st19 st') as Hrest.
  { revert H. apply Hs. steps_auto. }
  rewrite Bn18, Bn17, Bn15 in Bn19.
  destruct (extends_lookup_block _ _ _ _ Hrest Bn19) as (bn & postn & Hbn & _ & Hin).
  destruct (extends_lookup_block _ _ _ _ Hrest B19) as (bc & postc & Hbc & Hnc & Hic).
  rewrite <- L. split.
  - exists bn, postn. split; [done|]. rewrite Hin. simpl. rewrite C3.
    rewrite <- !app_assoc. simpl. reflexivity.
  - exists bc, postc. split; [done|]. split; [by rewrite Hnc|].
    rewrite Hic. simpl. rewrite N17, N15, N6, N5, N4. simpl.
    rewrite !length_app. simpl.
    replace (length (blocks st5) + 1 + 1 + 1) with (length (blocks st5) + 3) by lia.
    reflexivity.
Qed.

(** C2 (signedness of comparisons).  When both operands lower to a value,
    [BinaryExprAST::codegen] lowers [<], [<=], [>] and [>=] to one [icmp] with
    the unsigned predicate [ult], [ule], [ugt], [uge].  [ForExprAST::codegen],
    started in a block [n] with both ends of the range lowered to values of
    one type or of two integer types, leaves, whatever the body does, in block
    [n] the conversion of the end (when the types differ), the slot of the
    loop variable, the store of the start into it and the branch to the new
    block [forcond]; and [forcond] begins with the load of that slot, the
    signed comparison [icmp slt] of the loaded value against the (converted)
    end of the range, and the conditional branch on its result into the body
    or behind the loop. *)
Theorem comparison_signedness :
  (∀ Op pred LHS RHS st L st1 R st2,
      (Op, pred) ∈ ordering_predicates →
      codegen LHS st = (Returned (Some L), st1) →
      codegen RHS st1 = (Returned (Some R), st2) →
      codegen (BinaryExprAST Op LHS RHS) st
      = (Returned (Some (InstValue (next_id st2) (IntegerTy 1))),
         emitted (λ id, ICmp id pred L R "cmptmp") st2))
  ∧ (∀ VarName Start End_ Body st StartVal st1 EndVal st2 n b r st',
      codegen Start st = (Returned (Some StartVal), st1) →
      codegen End_ st1 = (Returned (Some EndVal), st2) →
      InsertBlock st2 = Some n → blocks st2 !! n = Some b →
      getType EndVal = getType StartVal
      ∨ isIntegerTy (getType StartVal) && isIntegerTy (getType EndVal) = true →
      codegen (ForExprAST VarName Start End_ Body) st = (r, st') →
      let T := getType StartVal in
      let slot := AllocaInst (for_slot StartVal EndVal st2) T in
      let CondBB := length (blocks st2) in
      let CurVar := InstValue (S (for_slot StartVal EndVal st2)) T in
      let CondV := InstValue (S (S (for_slot StartVal EndVal st2))) (IntegerTy 1) in
      (∃ b' post, blocks st' !! n = Some b'
         ∧ bb_insts b'
           = bb_insts b ++ for_cast StartVal EndVal st2
             ++ [Alloca (for_slot StartVal EndVal st2) T VarName;
                 Store StartVal slot; Br CondBB]
             ++ post)
      ∧ (∃ bb post, blocks st' !! CondBB = Some bb ∧ bb_name bb = "forcond"
           ∧ bb_insts bb
             = [Load (S (for_slot StartVal EndVal st2)) T slot VarName;
                ICmp (S (S (for_slot StartVal EndVal st2))) ICMP_SLT CurVar
                  (for_bound StartVal EndVal st2) "forcond";
                CondBr CondV (CondBB + 1) (CondBB + 3)] ++ post)).
Proof. split; [exact binary_comparison|exact for_condition]. Qed.

Lemma comparison_signedness_witness :
  codegen (BinaryExprAST "<" (NumberExprAST (-1)) (NumberExprAST 1)) in_entry
  = (Returned (Some (InstValue 0 (IntegerTy 1))),
     emitted (λ id, ICmp id ICMP_ULT (ConstantInt (IntegerTy 8) (-1) true)
                      (ConstantInt (IntegerTy 8) 1 true) "cmptmp") in_entry)
  ∧ ∃ r st',
      codegen (ForExprAST "i" (NumberExprAST 0) (NumberExprAST 300) [BreakExprAST]) in_entry
      = (r, st')
      ∧ (∃ b' post, blocks st' !! 0 = Some b'
           ∧ bb_insts b'
             = [IntCast 0 (ConstantInt (IntegerTy 16) 300 true) (IntegerTy 8) true "endcast";
                Alloca 1 (IntegerTy 8) "i";
                Store (ConstantInt (IntegerTy 8) 0 true) (AllocaInst 1 (IntegerTy 8));
                Br 1] ++ post)
      ∧ (∃ bb post, blocks st' !! 1 = Some bb ∧ bb_name bb = "forcond"
           ∧ bb_insts bb
             = [Load 2 (IntegerTy 8) (AllocaInst 1 (IntegerTy 8)) "i";
                ICmp 3 ICMP_SLT (InstValue 2 (IntegerTy 8)) (InstValue 0 (IntegerTy 8))
                  "forcond";
                CondBr (InstValue 3 (IntegerTy 1)) 2 4] ++ post).
Proof.
  split.
  - apply (proj1 comparison_signedness "<" ICMP_ULT (NumberExprAST (-1)) (NumberExprAST 1)
             in_entry _ in_entry _ in_entry).
    + apply list_elem_of_here.
    + vm_compute. reflexivity.
    + vm_compute. reflexivity.
  - eexists _, _. split; [vm_compute; reflexivity|].
    apply (proj2 comparison_signedness "i" (NumberExprAST 0) (NumberExprAST 300)
             [BreakExprAST] in_entry
             (ConstantInt (IntegerTy 8) 0 true) in_entry
             (ConstantInt (IntegerTy 16) 300 true) in_entry
             0 (mkBasicBlock "entry" None [])
             (Returned (Some (ConstantInt (IntegerTy 8) 0 false)))).
    + vm_compute. reflexivity.
    + vm_compute. reflexivity.
    + reflexivity.
    + reflexivity.
    + right. reflexivity.
    + vm_compute. reflexivity.
Defined.

End CodegenProofs.

(** ** Command line *)

Section MainProofs.

Import Main.

Lemma parse_flags_prefix pre : ∀ file post o,
  Forall is_flag pre → ¬ is_flag file →
  parse_flags (pre ++ file :: post) o
  = mkOptions (runFlag o || bool_decide ("--run" ∈ pre))
      (showTarget o || bool_decide ("--target-info" ∈ pre)) file.
Proof.
  induction pre as [|a pre IH]; intros file post o Hpre Hfile.
  - cbn [app parse_flags].
    destruct (String.eqb_spec file "--run") as [E|_]; [destruct Hfile; by left|].
    destruct (String.eqb_spec file "--target-info") as [E|_]; [destruct Hfile; by right|].
    rewrite !bool_decide_eq_false_2 by apply not_elem_of_nil.
    by rewrite !orb_false_r.
  - apply Forall_cons in Hpre as [Ha Hpre]. cbn [app parse_flags].
    destruct Ha as [-> | ->]; cbn [String.eqb Ascii.eqb Bool.eqb]; rewrite IH by done;
      cbn [runFlag showTarget filename]; f_equal.
    + rewrite (bool_decide_eq_true_2 (_ ∈ "--run" :: pre)) by apply list_elem_of_here.
      by rewrite orb_true_r.
    + f_equal. apply bool_decide_ext. rewrite elem_of_cons.
      split; [by right|intros [E|E]; [discriminate E|done]].
    + f_equal. apply bool_decide_ext. rewrite elem_of_cons.
      split; [by right|intros [E|E]; [discriminate E|done]].
    + rewrite (bool_decide_eq_true_2 (_ ∈ "--target-info" :: pre)) by apply list_elem_of_here.
      by rewrite orb_true_r.
Qed.

Lemma parse_flags_all pre : ∀ o,
  Forall is_flag pre → filename (parse_flags pre o) = filename o.
Proof.
  induction pre as [|a pre IH]; intros o Hpre; simpl; [done|].
  apply Forall_cons in Hpre as [[-> | ->] Hpre]; simpl; by rewrite IH.
Qed.

(** X23 (the command line).  [main] reads [--run] and [--target-info] up to
    the first argument that is neither; that argument is the input file and
    nothing behind it is looked at, so a flag behind the file name is not
    seen.  The two options hold whether their flag stands before the file
    name.  With no argument at all [main] prints the usage and returns 1;
    with flags only, or with an empty file name, it prints
    [Error: No input file specified] and the usage and returns 1. *)
Theorem command_line_options (argv0 : string) (pre : list string) :
  Forall is_flag pre →
  (∀ file post, ¬ is_flag file →
     command_line (argv0 :: pre ++ file :: post)
     = if String.eqb file EmptyString
       then Exit 1 ["Error: No input file specified"; usage argv0]
       else Proceed (mkOptions (bool_decide ("--run" ∈ pre))
                       (bool_decide ("--target-info" ∈ pre)) file))
  ∧ command_line (argv0 :: pre)
    = Exit 1 (match pre with
              | [] => [usage argv0]
              | _ => ["Error: No input file specified"; usage argv0]
              end).
Proof.
  intros Hpre. split.
  - intros file post Hfile. unfold command_line.
    assert ((length (argv0 :: pre ++ file :: post) <? 2) = false) as ->.
    { apply Nat.ltb_ge. simpl. rewrite length_app. simpl. lia. }
    cbn [tail head default]. rewrite parse_flags_prefix by done. done.
  - unfold command_line. destruct pre as [|a pre]; [done|].
    assert ((length (argv0 :: a :: pre) <? 2) = false) as -> by (apply Nat.ltb_ge; simpl; lia).
    cbn [tail head default]. by rewrite parse_flags_all.
Qed.

Lemma command_line_options_witness :
  command_line ["jam"; "--run"; "a.jam"; "--target-info"]
  = Proceed (mkOptions true false "a.jam").
Proof.
  apply (proj1 (command_line_options "jam" ["--run"]
                  ltac:(repeat constructor; by left))
           "a.jam" ["--target-info"]).
  intros [E|E]; discriminate E.
Defined.

End MainProofs.

(** ** Targets *)

Section TargetProofs.

Import Target.

Lemma all_targets_complete t : t ∈ all_targets.
Proof.
  unfold all_targets. destruct t as [a o b].
  apply list_elem_of_bind. exists a. split; [|destruct a; set_solver].
  apply list_elem_of_bind. exists o. split; [|destruct o; set_solver].
  apply list_elem_of_bind. exists b. split; [|destruct b; set_solver].
  apply list_elem_of_singleton. done.
Qed.

Lemma forallb_elem_of {A} (f : A → bool) (l : list A) x :
  forallb f l = true → x ∈ l → f x = true.
Proof.
  intros H Hx. rewrite forallb_forall in H. apply H. by apply list_elem_of_In.
Qed.

Lemma names_classify (t1 t2 : Target) :
  (getName t1 = getName t2 ↔ same_but_unnamed_abi t1 t2)
  ∧ (toLLVMTriple t1 = toLLVMTriple t2 ↔ same_but_triple_abi t1 t2).
Proof.
  assert (forallb (λ t1, forallb (λ t2,
            Bool.eqb (bool_decide (getName t1 = getName t2))
                     (bool_decide (same_but_unnamed_abi t1 t2))
            && Bool.eqb (bool_decide (toLLVMTriple t1 = toLLVMTriple t2))
                        (bool_decide (same_but_triple_abi t1 t2)))
            all_targets) all_targets = true) as Hall by (vm_compute; reflexivity).
  apply (forallb_elem_of _ _ t1) in Hall; [|apply all_targets_complete].
  apply (forallb_elem_of _ _ t2) in Hall; [|apply all_targets_complete].
  apply andb_true_iff in Hall as [H1 H2].
  apply Bool.eqb_prop in H1, H2. split.
  - by rewrite <- (bool_decide_spec (getName t1 = getName t2)), H1, bool_decide_spec.
  - by rewrite <- (bool_decide_spec (toLLVMTriple t1 = toLLVMTriple t2)), H2, bool_decide_spec.
Qed.

(** X24 (what the names of a target tell apart).  Two targets have the same
    name exactly when they have the same architecture and system and the
    same ABI, or each an ABI that is none or unknown.  They have the same
    LLVM triple exactly when they have the same architecture and system and
    the same ABI, or each an ABI that is none or unknown, or each GNU or
    MinGW: the triple of a MinGW target is the triple of the GNU target, so
    the triple does not give the target back. *)
Theorem target_names (t1 t2 : Target) :
  (getName t1 = getName t2 ↔ same_but_unnamed_abi t1 t2)
  ∧ (toLLVMTriple t1 = toLLVMTriple t2 ↔ same_but_triple_abi t1 t2).
Proof. apply names_classify. Qed.

(** X25 (the ABI of a detected target).  In a target made from an LLVM
    triple the ABI is MinGW exactly when the system is Win32 and the triple
    names no environment; it is none only on MacOS, and on MacOS it is
    neither unknown nor MinGW.  Among the targets made from a triple the
    name tells the target: two of them with the same name are equal. *)
Theorem detected_abi (triple : Triple) :
  let t := fromLLVMTriple triple in
  (abi t = MinGW ↔ getOS triple = Win32 ∧ getEnvironment triple = UnknownEnvironment)
  ∧ (abi t = ABINone → os t = MacOS)
  ∧ (os t = MacOS → abi t ≠ ABIUnknown ∧ abi t ≠ MinGW)
  ∧ ∀ triple', getName t = getName (fromLLVMTriple triple') → t = fromLLVMTriple triple'.
Proof.
  assert (∀ tr, abi (fromLLVMTriple tr) = ABINone → os (fromLLVMTriple tr) = MacOS) as Hnone.
  { intros [a o e]. unfold fromLLVMTriple. simpl. destruct o, e; simpl; congruence. }
  assert (∀ tr, os (fromLLVMTriple tr) = MacOS → abi (fromLLVMTriple tr) ≠ ABIUnknown
                                                  ∧ abi (fromLLVMTriple tr) ≠ MinGW) as Hmac.
  { intros [a o e]. unfold fromLLVMTriple. simpl. destruct o, e; simpl; intros; split; congruence. }
  simpl. split; [|split; [apply Hnone|split; [apply Hmac|]]].
  - destruct triple as [a o e]. unfold fromLLVMTriple. simpl.
    destruct o, e; simpl; split; first [congruence | intros [? ?]; congruence | done].
  - intros triple' Hname. apply names_classify in Hname as (Ha & Ho & Hb).
    pose proof (Hnone triple) as Hn. pose proof (Hnone triple') as Hn'.
    pose proof (Hmac triple) as Hm. pose proof (Hmac triple') as Hm'.
    destruct (fromLLVMTriple triple) as [a o b], (fromLLVMTriple triple') as [a' o' b'].
    simpl in *. subst a' o'. f_equal.
    destruct Hb as [Hb|[H1 H2]]; [done|].
    apply elem_of_cons in H1 as [H1|H1], H2 as [H2|H2]; try congruence.
    + apply list_elem_of_singleton in H2. destruct (Hm' (Hn H1)) as [? _]. done.
    + apply list_elem_of_singleton in H1. destruct (Hm (Hn' H2)) as [? _]. done.
    + apply list_elem_of_singleton in H1, H2. congruence.
Qed.

End TargetProofs.
